(** * wolf-agent: the readiness-gated streaming proxy of cmd/wolf-agent/main.go

    A shallow embedding of [main] (the monitor goroutine, the three HTTP
    handlers and the body-relay loop) together with the properties the
    specification states about them.

    Conventions.
    - Every call that leaves the handler (logging, the ResponseWriter, the
      backend transport, the response body, the Go library) is recorded as
      an [event]; a run of a function is the list of events it performs,
      in program order, and the way it ends ([exit]).
    - Go values that are shared by reference and mutated ([http.Header]
      maps) live in a store and are named by locations.
    - What the outside world answers (backend responses, body reads, client
      writes, [os.Stat], [net.Dial]) is an explicit parameter.
    - The Go library functions the handler calls ([url.JoinPath], the URL
      parsing of [http.NewRequest], the canonical header keys, the order
      of a map iteration) and the backend are the fields of the class
      [Env]; a concrete model of the library functions is given in
      [GoStd] and used for the examples and for the facts on clean
      paths. *)

From Stdlib Require Import ZArith Ascii String List Lia DecimalString.
From Stdlib.Strings Require Import Byte.
From stdpp Require Import base gmap strings list fin_maps.

Local Open Scope string_scope.
Local Open Scope Z_scope.
Local Open Scope list_scope.

(** ** Go values *)

(** A Go [error] value. The handler only distinguishes [io.EOF] from every
    other error. *)
Inductive error : Type :=
| io_EOF
| Err (msg : string).

(** [err.Error()] *)
Definition error_msg (e : error) : string :=
  match e with
  | io_EOF => "EOF"
  | Err msg => msg
  end.

Definition is_EOF (e : error) : bool :=
  match e with
  | io_EOF => true
  | Err _ => false
  end.

(** A location in the store: the identity of a Go map object. *)
Definition loc := nat.

(** [http.Header]: a map from key to the list of its values. *)
Abbreviation Header := (gmap string (list string)).

(** [h[k]]: the values recorded under [k], [nil] when [k] is absent. *)
Definition values (k : string) (h : Header) : list string :=
  default [] (h !! k).

Definition StatusOK : Z := 200.
Definition StatusInternalServerError : Z := 500.
Definition StatusBadGateway : Z := 502.
Definition StatusServiceUnavailable : Z := 503.

Module URL.
Record t : Type := mk {
  Scheme : string;
  Host : string;
  Path : string;
  RawQuery : string
}.
End URL.

Module Request.
(** The fields of [http.Request] that the handler reads or writes. [Header]
    is a reference ([None] is the nil map); [Body] and [Ctx] name the body
    stream and the request context. *)
Record t : Type := mk {
  Method : string;
  URL : URL.t;
  Proto : string;
  ProtoMajor : Z;
  ProtoMinor : Z;
  Header : option loc;
  Body : nat;
  ContentLength : Z;
  TransferEncoding : list string;
  Host : string;
  Ctx : nat
}.

Definition set_Proto (v : string) (q : t) : t :=
  mk (Method q) (URL q) v (ProtoMajor q) (ProtoMinor q) (Header q) (Body q)
     (ContentLength q) (TransferEncoding q) (Host q) (Ctx q).
Definition set_ProtoMajor (v : Z) (q : t) : t :=
  mk (Method q) (URL q) (Proto q) v (ProtoMinor q) (Header q) (Body q)
     (ContentLength q) (TransferEncoding q) (Host q) (Ctx q).
Definition set_ProtoMinor (v : Z) (q : t) : t :=
  mk (Method q) (URL q) (Proto q) (ProtoMajor q) v (Header q) (Body q)
     (ContentLength q) (TransferEncoding q) (Host q) (Ctx q).
Definition set_TransferEncoding (v : list string) (q : t) : t :=
  mk (Method q) (URL q) (Proto q) (ProtoMajor q) (ProtoMinor q) (Header q)
     (Body q) (ContentLength q) v (Host q) (Ctx q).
Definition set_ContentLength (v : Z) (q : t) : t :=
  mk (Method q) (URL q) (Proto q) (ProtoMajor q) (ProtoMinor q) (Header q)
     (Body q) v (TransferEncoding q) (Host q) (Ctx q).
Definition set_Header (v : option loc) (q : t) : t :=
  mk (Method q) (URL q) (Proto q) (ProtoMajor q) (ProtoMinor q) v (Body q)
     (ContentLength q) (TransferEncoding q) (Host q) (Ctx q).
(** [q.WithContext(ctx)]: a shallow copy of [q] with its context changed. *)
Definition WithContext (ctx : nat) (q : t) : t :=
  mk (Method q) (URL q) (Proto q) (ProtoMajor q) (ProtoMinor q) (Header q)
     (Body q) (ContentLength q) (TransferEncoding q) (Host q) ctx.
End Request.

(** What one call of [Body.Read(buf)] returns: the bytes stored at the
    front of [buf] (their number is Go's [n]) and the error. *)
Definition ReadResult : Type := list byte * option error.

Module Response.
(** [http.Response]. [Body k] is the answer to the [k]-th call of
    [Body.Read], counted from 0. *)
Record t : Type := mk {
  StatusCode : Z;
  Header : Header;
  Body : nat -> ReadResult
}.
End Response.

Module ResponseWriter.
(** The client side. [Flusher] tells whether the writer implements
    [http.Flusher]; [WriteErr k] is the error of the [k]-th call of
    [Write], counted from 0. The writers that net/http hands to a handler
    all implement [http.Flusher]: a writer without it is foreign to
    net/http. *)
Record t : Type := mk {
  Flusher : bool;
  WriteErr : nat -> option error
}.
End ResponseWriter.

(** ** Events *)

Inductive severity : Type := INFO | WARNING | ERROR | FATAL.

Inductive logarg : Type :=
| AStr (s : string)
| AInt (z : Z)
| AErr (e : option error).

Inductive event : Type :=
| Log (sev : severity) (args : list logarg)
| ReadyLoad (b : bool)
| ReadyStore (b : bool)
| Stat (path : string)
| Dial (network address : string)
| ConnClose
| StartAgent (port : Z)
| Sleep (ms : Z)
| OsExit (code : Z)
| JoinPath (base : string) (elem : list string)
| NewRequest (method url : string) (body : nat)
| ClientDo (req : Request.t) (resp : option Response.t) (err : option error)
| BodyRead (size : Z) (data : list byte) (err : option error)
| BodyClose
| HeaderAdd (key value : string)
| WriteHeader (code : Z) (h : Header)
| HttpError (msg : string) (code : Z)
| Write (data : list byte) (err : option error)
| Flush.

(** How a run ends. [OutOfFuel] stands for a loop that is still running
    when the fuel of the model is spent. *)
Inductive exit : Type :=
| Returned
| Panicked (msg : string)
| OutOfFuel.

Definition nil_dereference : string :=
  "runtime error: invalid memory address or nil pointer dereference".
Definition slice_out_of_range : string :=
  "runtime error: slice bounds out of range".

(** ** The handler monad *)

(** The mutable state a handler run works on: the [http.Header] objects
    of requests ([hdrs]), the header map of the ResponseWriter ([wh]) and
    how many [Body.Read] and [Write] calls were made so far. *)
Record store : Type := mkStore {
  hdrs : gmap loc Header;
  wh : Header;
  nreads : nat;
  nwrites : nat
}.

Definition M (A : Type) : Type := store -> list event * (A + exit) * store.

Definition ret {A} (a : A) : M A := fun s => ([], inl a, s).

Definition bind {A B} (m : M A) (f : A -> M B) : M B := fun s =>
  match m s with
  | (t1, inl a, s1) =>
      match f a s1 with
      | (t2, r, s2) => (t1 ++ t2, r, s2)
      end
  | (t1, inr x, s1) => (t1, inr x, s1)
  end.

(** The notations [x ← m; k] and [m;; k] of stdpp are used for [bind]. *)
#[global] Instance M_ret : MRet M := @ret.
#[global] Instance M_bind : MBind M := fun A B f m => bind m f.

Definition emit (e : event) : M unit := fun s => ([e], inl tt, s).

(** [return] in the middle of the handler. *)
Definition return_ {A} : M A := fun s => ([], inr Returned, s).

Definition panic {A} (msg : string) : M A := fun s => ([], inr (Panicked msg), s).

Definition out_of_fuel {A} : M A := fun s => ([], inr OutOfFuel, s).

(** [defer d] followed by the rest [m] of the function: [d] runs when [m]
    returns or panics. *)
Definition defer {A} (d : M unit) (m : M A) : M A := fun s =>
  match m s with
  | (t, inr OutOfFuel, s1) => (t, inr OutOfFuel, s1)
  | (t, r, s1) =>
      match d s1 with
      | (t2, _, s2) => (t ++ t2, r, s2)
      end
  end.

(** [if err != nil { h }] *)
Definition if_err (err : option error) (h : error -> M unit) : M unit :=
  match err with
  | Some e => h e
  | None => ret tt
  end.

(** A run of a whole function: falling off the end is a return. *)
Definition run (m : M unit) (s : store) : list event * exit * store :=
  match m s with
  | (t, inl _, s1) => (t, Returned, s1)
  | (t, inr x, s1) => (t, x, s1)
  end.

(** ** The parts of the Go library whose behaviour the handler relies on *)

(** [strings.LastIndex(s, c)] for a one-byte [c]: the index of the last
    occurrence, [-1] when there is none. *)
Fixpoint LastIndex_from (c : ascii) (s : string) (i acc : Z) : Z :=
  match s with
  | EmptyString => acc
  | String a s' => LastIndex_from c s' (i + 1) (if Ascii.eqb a c then i else acc)
  end.

Definition LastIndex (s : string) (c : ascii) : Z := LastIndex_from c s 0 (-1).

(** [strings.TrimSuffix(s, c)] for a one-byte [c]. *)
Fixpoint TrimSuffix (s : string) (c : ascii) : string :=
  match s with
  | EmptyString => EmptyString
  | String a EmptyString => if Ascii.eqb a c then EmptyString else s
  | String a s' => String a (TrimSuffix s' c)
  end.

(** net/http: [hasPort] and [removeEmptyPort]. *)
Definition hasPort (s : string) : bool :=
  LastIndex s "]" <? LastIndex s ":".

Definition removeEmptyPort (host : string) : string :=
  if hasPort host then TrimSuffix host ":" else host.

(** net/http: a method is valid when it is a non-empty HTTP token. The
    token bytes are the letters, the digits and
    ! # $ % & ' * + - . ^ _ ` | ~ (given here by their codes). *)
Definition isTokenByte (a : ascii) : bool :=
  let n := Z.of_N (N_of_ascii a) in
  ((48 <=? n) && (n <=? 57)) || ((65 <=? n) && (n <=? 90)) ||
  ((97 <=? n) && (n <=? 122)) ||
  bool_decide (n ∈ [33; 35; 36; 37; 38; 39; 42; 43; 45; 46; 94; 95; 96; 124; 126]).

Fixpoint allTokenBytes (s : string) : bool :=
  match s with
  | EmptyString => true
  | String a s' => isTokenByte a && allTokenBytes s'
  end.

Definition validMethod (method : string) : bool :=
  (0 <? Z.of_nat (String.length method)) && allTokenBytes method.

(** net/http: the empty method means GET. *)
Definition method_or_GET (method : string) : string :=
  if decide (method = "") then "GET" else method.

(** [%q] of [fmt], for a string without special characters. *)
Definition quoted (s : string) : string :=
  String (ascii_of_N 34) (s +:+ String (ascii_of_N 34) EmptyString).

Definition invalid_method (method : string) : error :=
  Err ("net/http: invalid method " +:+ quoted method).

(** ** The store operations *)

(** A location that names no map of the store. *)
Definition fresh_loc (s : store) : loc := fresh (dom (hdrs s)).

(** The store with a new map [h] at the fresh location. *)
Definition allocated (s : store) (h : Header) : store :=
  mkStore (<[fresh_loc s := h]> (hdrs s)) (wh s) (nreads s) (nwrites s).

(** [make(http.Header)] and every other allocation of a header map. *)
Definition alloc_Header (h : Header) : M loc := fun s =>
  ([], inl (fresh_loc s), allocated s h).

(** The store as it is. *)
Definition get_store : M store := fun s => ([], inl s, s).

(** [h.Clone()]: nil for the nil map, otherwise a new map with the same
    keys and values. *)
Definition Header_Clone (h : option loc) : M (option loc) :=
  match h with
  | None => ret None
  | Some l =>
      s ← get_store;
      l' ← alloc_Header (default ∅ (hdrs s !! l));
      ret (Some l')
  end.

(** ** klog *)

Definition klog_Info (args : list logarg) : M unit := emit (Log INFO args).
Definition klog_Error (args : list logarg) : M unit := emit (Log ERROR args).
Definition klog_ErrorS (err : error) (msg : string) (kv : list logarg) : M unit :=
  emit (Log ERROR (AErr (Some err) :: AStr msg :: kv)).
Definition klog_InfoS (msg : string) (kv : list logarg) : M unit :=
  emit (Log INFO (AStr msg :: kv)).

(** ** The ResponseWriter and the response body *)

(** net/http, [checkWriteHeaderCode]: a status code outside 100..999 is
    refused with a panic. *)
Definition invalid_code (code : Z) : bool := (code <? 100) || (999 <? code).

(** [fmt.Sprintf("invalid WriteHeader code %v", code)] *)
Definition invalid_WriteHeader_code (code : Z) : string :=
  "invalid WriteHeader code " +:+ NilZero.string_of_int (Z.to_int code).

(** [w.WriteHeader(code)]: the status line and the header map as it is at
    this moment go to the client. [own] tells whether the writer is one
    of net/http's own, which check the code first; for the writer [w] of
    a handler [own] is [ResponseWriter.Flusher w]. The [WriteHeader] of a
    writer foreign to net/http is taken to accept every code. (The
    informational codes other than 101 are not told apart from the other
    codes: [client.Do] does not return them.) *)
Definition w_WriteHeader (own : bool) (code : Z) : M unit := fun s =>
  if invalid_code code && own
  then ([], inr (Panicked (invalid_WriteHeader_code code)), s)
  else ([WriteHeader code (wh s)], inl tt, s).

(** [http.Error(w, msg, code)]: replies with the status [code] and the
    text [msg]. *)
Definition http_Error (msg : string) (code : Z) : M unit :=
  emit (HttpError msg code).

(** [w.Write(data)] *)
Definition w_Write (w : ResponseWriter.t) (data : list byte) : M (option error) := fun s =>
  let err := ResponseWriter.WriteErr w (nwrites s) in
  ([Write data err], inl err, mkStore (hdrs s) (wh s) (nreads s) (S (nwrites s))).

(** [body.Read(buf)] with [len(buf) = size] *)
Definition Body_Read (body : nat -> ReadResult) (size : Z) : M ReadResult := fun s =>
  let '(data, err) := body (nreads s) in
  ([BodyRead size data err], inl (data, err), mkStore (hdrs s) (wh s) (S (nreads s)) (nwrites s)).

(** [ready.Load()], given the value the flag holds. *)
Definition ready_Load (ready : bool) : M bool :=
  emit (ReadyLoad ready);; ret ready.

(** [if c { body }] *)
Definition when_ (c : bool) (body : M unit) : M unit :=
  if c then body else ret tt.

(** [p.f = v] through a pointer [p]: a nil [p] panics. *)
Definition assign {A} (p : option A) (f : A -> A) : M (option A) :=
  match p with
  | None => panic nil_dereference
  | Some q => ret (Some (f q))
  end.

(** Reading through a pointer. *)
Definition deref {A} (p : option A) : M A :=
  match p with
  | None => panic nil_dereference
  | Some q => ret q
  end.

Definition bufSize : Z := 4096.

(** The three parts of a run. *)
Definition events_of (x : list event * exit * store) : list event := x.1.1.
Definition exit_of_run (x : list event * exit * store) : exit := x.1.2.
Definition store_of (x : list event * exit * store) : store := x.2.

(** ** What the client sees *)

(** The status of the response: the first status written, [200] when the
    body is written first, [None] when nothing was written. *)
Fixpoint client_status (t : list event) : option Z :=
  match t with
  | [] => None
  | WriteHeader c _ :: _ => Some c
  | HttpError _ c :: _ => Some c
  | Write _ _ :: _ => Some StatusOK
  | _ :: t' => client_status t'
  end.

Definition is_ClientDo (e : event) : bool :=
  match e with ClientDo _ _ _ => true | _ => false end.
Definition is_NewRequest (e : event) : bool :=
  match e with NewRequest _ _ _ => true | _ => false end.
Definition is_JoinPath (e : event) : bool :=
  match e with JoinPath _ _ => true | _ => false end.
Definition is_Write (e : event) : bool :=
  match e with Write _ _ => true | _ => false end.
Definition is_ReadyStore (e : event) : bool :=
  match e with ReadyStore _ => true | _ => false end.

(** How many times the events [t] store to the readiness flag. *)
Definition store_count (t : list event) : nat :=
  length (List.filter is_ReadyStore t).

(** The request of the first [client.Do] of a run. *)
Fixpoint sent (t : list event) : option Request.t :=
  match t with
  | [] => None
  | ClientDo q _ _ :: _ => Some q
  | _ :: t' => sent t'
  end.

(** Every successful write is followed at once by a flush. *)
Fixpoint flushed (t : list event) : Prop :=
  match t with
  | [] => True
  | Write _ None :: t' => (exists t'', t' = Flush :: t'') /\ flushed t'
  | _ :: t' => flushed t'
  end.

(** Every write comes at once after a read of [bufSize] bytes at most and
    carries the bytes of that read; [prev] is the event before [t]. *)
Fixpoint chunked (prev : option event) (t : list event) : Prop :=
  match t with
  | [] => True
  | e :: t' =>
      match e with
      | Write data _ =>
          (exists rerr, prev = Some (BodyRead bufSize data rerr)) /\
          0 < Z.of_nat (length data) <= bufSize
      | _ => True
      end /\ chunked (Some e) t'
  end.

(** The events that come before the body: everything but the reads of
    the backend body, the writes and flushes to the client, and the
    closing of the body. *)
Definition before_body (e : event) : Prop :=
  match e with
  | BodyRead _ _ _ | Write _ _ | Flush | BodyClose => False
  | _ => True
  end.

(** The events the relay loop can perform. *)
Definition relay_event (e : event) : Prop :=
  match e with
  | BodyRead size _ _ => size = bufSize
  | Write _ _ | Flush | Log INFO _ | Log ERROR _ => True
  | _ => False
  end.

(** The three records the relay loop can leave in the log. *)
Definition client_gone : event :=
  Log INFO [AStr "Client connection closed"].
Definition read_failure (e : error) : event :=
  Log ERROR [AErr (Some e); AStr "Error reading from backend"].
Definition completion (code : Z) : event :=
  Log INFO [AStr "Request completed"; AStr "statusCode"; AInt code].

(** The events of a relay that goes on: no read has returned an error, no
    write has failed, no error and no completion has been reported, and
    the body is not closed. *)
Definition steady (e : event) : Prop :=
  match e with
  | BodyRead _ _ (Some _) | Write _ (Some _) | Log ERROR _ | BodyClose => False
  | Log INFO (AStr m :: _) => m <> "Request completed"
  | _ => True
  end.

(** The events of a chunk that reaches the client: nothing for an empty
    read, otherwise one write and one flush. *)
Definition delivery (data : list byte) : list event :=
  if 0 <? Z.of_nat (length data) then [Write data None; Flush] else [].

(** The ways a relay ends, with the last events of the run and the way
    the handler ends: the status [code] is one that [WriteHeader]
    refuses, and the loop is not reached; the loop is still running; a
    read returned more than the buffer holds; a write to the client
    failed; a read failed; the stream ended. *)
Inductive ending (code : Z) : list event -> exit -> Prop :=
| ending_unwritable :
    invalid_code code = true ->
    ending code [BodyClose] (Panicked (invalid_WriteHeader_code code))
| ending_running :
    ending code [] OutOfFuel
| ending_overflow data err :
    bufSize < Z.of_nat (length data) ->
    ending code [BodyRead bufSize data err; BodyClose] (Panicked slice_out_of_range)
| ending_client_gone data rerr e :
    ending code [BodyRead bufSize data rerr; Write data (Some e); client_gone; BodyClose]
           Returned
| ending_read_error data msg :
    ending code
           (BodyRead bufSize data (Some (Err msg)) :: delivery data ++
            [read_failure (Err msg); BodyClose])
           Returned
| ending_eof data :
    ending code
           (BodyRead bufSize data (Some io_EOF) :: delivery data ++
            [completion code; BodyClose])
           Returned.

(** The inbound request [r] with the query string [q]. *)
Definition with_RawQuery (q : string) (r : Request.t) : Request.t :=
  Request.mk (Request.Method r)
             (URL.mk (URL.Scheme (Request.URL r)) (URL.Host (Request.URL r))
                     (URL.Path (Request.URL r)) q)
             (Request.Proto r) (Request.ProtoMajor r) (Request.ProtoMinor r)
             (Request.Header r) (Request.Body r) (Request.ContentLength r)
             (Request.TransferEncoding r) (Request.Host r) (Request.Ctx r).

(** ** The monitor goroutine (lines 48-92) *)

(** [os.ModeSocket] *)
Definition ModeSocket : Z := Z.shiftl 1 24.

(** What the world answers in one iteration of the monitor: the two
    results of [os.Stat] ([stat_info] is the file mode, [None] for a nil
    [FileInfo]) and the error of [net.Dial]. *)
Record Probe : Type := mkProbe {
  stat_info : option Z;
  stat_err : option error;
  dial_err : option error
}.

(** How one iteration ends: the loop goes on after the sleep, the
    goroutine returns, [klog.Fatal] ends the process, or a panic does. *)
Inductive verdict : Type :=
| Continue
| Done
| Fatal
| Panic (msg : string).

Definition is_nil {A} (o : option A) : bool :=
  match o with
  | None => true
  | Some _ => false
  end.

Definition retry_interval_ms : Z := 200.

Section Monitor.

Variable wolfSocketPath : string.
Variable serverPort : Z.

(** One iteration of the [for] loop. *)
Definition monitor_iter (p : Probe) : list event * verdict :=
  let info := stat_info p in
  let err := stat_err p in
  if is_nil err
     && match info with
        | Some mode => negb (Z.land mode ModeSocket =? 0)
        | None => false
        end
  then
    match dial_err p with
    | None =>
        ([Stat wolfSocketPath; Dial "unix" wolfSocketPath;
          Log INFO [AStr "wolf.sock is ready"];
          StartAgent serverPort;
          ReadyStore true;
          ConnClose], Done)
    | Some e =>
        ([Stat wolfSocketPath; Dial "unix" wolfSocketPath;
          Log WARNING [AStr "Waiting for wolf.sock to accept connections: "; AErr (Some e)];
          Sleep retry_interval_ms], Continue)
    end
  else if is_nil err then
    match info with
    | None => ([Stat wolfSocketPath], Panic nil_dereference)
    | Some mode =>
        if Z.land mode ModeSocket =? 0 then
          ([Stat wolfSocketPath;
            Log FATAL [AStr "wolf.sock is not a socket"; AInt mode];
            OsExit 255], Fatal)
        else
          ([Stat wolfSocketPath;
            Log INFO [AStr "Waiting for wolf.sock to appear..."; AErr err];
            Sleep retry_interval_ms], Continue)
    end
  else
    ([Stat wolfSocketPath;
      Log INFO [AStr "Waiting for wolf.sock to appear..."; AErr err];
      Sleep retry_interval_ms], Continue).

(** The goroutine: iteration [i] sees [world i]. The verdict [Continue]
    of the whole loop means that it is still polling when the fuel is
    spent. *)
Fixpoint monitor (fuel : nat) (world : nat -> Probe) (i : nat) : list event * verdict :=
  match fuel with
  | O => ([], Continue)
  | S fuel' =>
      match monitor_iter (world i) with
      | (t, Continue) =>
          match monitor fuel' world (S i) with
          | (t', v) => (t ++ t', v)
          end
      | (t, v) => (t, v)
      end
  end.

End Monitor.

(** What the handler is run against: the Go library functions it calls
    and the backend behind the transport.
    - [url_JoinPath], [url_Parse]: [url.JoinPath] and [url.Parse], with
      their result or their error;
    - [CanonicalMIMEHeaderKey]: the function of [net/textproto] that
      [Header.Add] applies to its key;
    - [range_order]: the order in which a [range] over a header map
      visits its entries;
    - [client_Do]: what the backend transport answers to [client.Do]. *)
Class Env : Type := mkEnv {
  url_JoinPath : string -> list string -> string + error;
  url_Parse : string -> URL.t + error;
  CanonicalMIMEHeaderKey : string -> string;
  range_order : Header -> list (string * list string);
  client_Do : Request.t -> gmap loc Header -> Response.t + error
}.

Section Proxy.

Context {env : Env}.

(** The two results of a Go call: the value (the zero value on an error)
    and the error. *)
Definition go_string (x : string + error) : string * option error :=
  match x with
  | inl v => (v, None)
  | inr e => ("", Some e)
  end.

Definition go_pointer {A} (x : A + error) : option A * option error :=
  match x with
  | inl v => (Some v, None)
  | inr e => (None, Some e)
  end.

Definition call_JoinPath (base : string) (elem : list string) : M (string * option error) :=
  emit (JoinPath base elem);; ret (go_string (url_JoinPath base elem)).

(** [http.NewRequest(method, url, body)] *)
Definition http_NewRequest (method url : string) (body : nat)
  : M (option Request.t * option error) :=
  emit (NewRequest method url body);;
  let method := method_or_GET method in
  if negb (validMethod method)
  then ret (None, Some (invalid_method method))
  else
    match url_Parse url with
    | inr e => ret (None, Some e)
    | inl u =>
        let host := removeEmptyPort (URL.Host u) in
        h ← alloc_Header ∅;
        ret (Some (Request.mk method
                     (URL.mk (URL.Scheme u) host (URL.Path u) (URL.RawQuery u))
                     "HTTP/1.1" 1 1 (Some h) body 0 [] host 0%nat),
             None)
    end.

(** [client.Do(req)] *)
Definition call_Do (req : Request.t) : M (option Response.t * option error) := fun s =>
  let '(resp, err) := go_pointer (client_Do req (hdrs s)) in
  ([ClientDo req resp err], inl (resp, err), s).

(** [h.Add(key, value)]: [value] is appended to the values of the
    canonical form of [key]. *)
Definition Header_Add (h : Header) (key value : string) : Header :=
  let k := CanonicalMIMEHeaderKey key in
  <[k := values k h ++ [value]]> h.

(** [w.Header().Add(key, value)] *)
Definition w_Header_Add (key value : string) : M unit := fun s =>
  ([HeaderAdd key value], inl tt,
   mkStore (hdrs s) (Header_Add (wh s) key value) (nreads s) (nwrites s)).

(** [for _, x := range l { body x }] *)
Fixpoint for_each {A} (l : list A) (body : A -> M unit) : M unit :=
  match l with
  | [] => ret tt
  | x :: l' => body x;; for_each l' body
  end.

(** The body-relay loop of the [/api/v1/] handler (lines 160-178). The
    result [tt] is the [break]; [return_] leaves the handler. *)
Fixpoint relay (fuel : nat) (w : ResponseWriter.t) (response : Response.t) : M unit :=
  match fuel with
  | O => out_of_fuel
  | S fuel' =>
      '(data, err) ← Body_Read (Response.Body response) bufSize;
      let n := Z.of_nat (length data) in
      when_ (0 <? n) (
        (* buf[:n] *)
        when_ (bufSize <? n) (panic slice_out_of_range);;
        writeErr ← w_Write w data;
        if_err writeErr (fun _ =>
          klog_Info [AStr "Client connection closed"];;
          return_);;
        emit Flush);;
      match err with
      | Some e =>
          if is_EOF e then ret tt
          else klog_ErrorS e "Error reading from backend" [];; return_
      | None => relay fuel' w response
      end
  end.

(** Lines 116-133 of the [/api/v1/] handler: the outbound request built
    from the inbound request [r]. *)
Definition outbound_request (r : Request.t) : M Request.t :=
  '(url, err) ← call_JoinPath "http://" ["wolf.sock"; URL.Path (Request.URL r)];
  if_err err (fun err =>
    klog_ErrorS err "Failed to join URL" [];;
    http_Error ("Failed to join URL: " +:+ error_msg err) StatusInternalServerError;;
    return_);;
  '(request, err) ← http_NewRequest (Request.Method r) url (Request.Body r);
  request ← assign request (Request.set_Proto (Request.Proto r));
  request ← assign request (Request.set_ProtoMajor (Request.ProtoMajor r));
  request ← assign request (Request.set_ProtoMinor (Request.ProtoMinor r));
  request ← assign request (Request.set_TransferEncoding (Request.TransferEncoding r));
  request ← assign request (Request.set_ContentLength (Request.ContentLength r));
  if_err err (fun err =>
    klog_ErrorS err "Failed to create proxy request" [];;
    http_Error ("Failed to create proxy request: " +:+ error_msg err) StatusInternalServerError;;
    return_);;
  clone ← Header_Clone (Request.Header r);
  request ← assign request (Request.set_Header clone);
  deref request.

(** Lines 143-179 of the [/api/v1/] handler: the backend's response
    written back to the client. *)
Definition write_back (fuel : nat) (w : ResponseWriter.t) (response : Response.t) : M unit :=
  defer (emit BodyClose) (
    for_each (range_order (Response.Header response)) (fun '(key, values) =>
      for_each values (fun value =>
        w_Header_Add key value));;
    w_WriteHeader (ResponseWriter.Flusher w) (Response.StatusCode response);;
    when_ (negb (ResponseWriter.Flusher w)) (
      klog_Error [AStr "Flushing not supported! Aborting writing response"];;
      return_);;
    relay fuel w response;;
    klog_InfoS "Request completed" [AStr "statusCode"; AInt (Response.StatusCode response)]).

(** The handler of [/api/v1/] (lines 106-180). [ready] is the value the
    readiness flag holds when the handler loads it. *)
Definition api_v1 (ready : bool) (fuel : nat) (w : ResponseWriter.t) (r : Request.t) : M unit :=
  klog_Info [AStr "Received request:"; AStr (Request.Method r);
             AStr (URL.Path (Request.URL r))];;
  rdy ← ready_Load ready;
  when_ (negb rdy) (
    w_WriteHeader (ResponseWriter.Flusher w) StatusServiceUnavailable;;
    return_);;
  request ← outbound_request r;
  klog_Info [AStr "Sending request to wolf.sock:"; AStr (Request.Method request);
             AStr (URL.Path (Request.URL request))];;
  '(response, err) ← call_Do (Request.WithContext (Request.Ctx r) request);
  if_err err (fun err =>
    klog_ErrorS err "Failed to send request to wolf.sock" [];;
    http_Error (error_msg err) StatusInternalServerError;;
    return_);;
  response ← deref response;
  write_back fuel w response.

(** The handler of [/readyz] (lines 96-102). *)
Definition readyz (ready : bool) : M unit :=
  rdy ← ready_Load ready;
  if (rdy : bool) then w_WriteHeader true StatusOK
  else w_WriteHeader true StatusServiceUnavailable.

(** The handler of [/livez] (lines 103-105). *)
Definition livez : M unit :=
  w_WriteHeader true StatusOK.

(** *** The relay loop, run by run *)

Definition after_round (s : store) (data : list byte) : store :=
  mkStore (hdrs s) (wh s) (S (nreads s))
          (if 0 <? Z.of_nat (length data) then S (nwrites s) else nwrites s).

Definition deliverable (w : ResponseWriter.t) (s : store) (data : list byte) : Prop :=
  Z.of_nat (length data) <= bufSize /\
  (0 < Z.of_nat (length data) -> ResponseWriter.WriteErr w (nwrites s) = None).

(** The runs of the loop: one rule for each way through its body. *)
Inductive relays (w : ResponseWriter.t) (resp : Response.t)
  : store -> list event -> unit + exit -> store -> Prop :=
| relays_out_of_fuel s :
    relays w resp s [] (inr OutOfFuel) s
| relays_overflow s data err :
    Response.Body resp (nreads s) = (data, err) ->
    bufSize < Z.of_nat (length data) ->
    relays w resp s [BodyRead bufSize data err] (inr (Panicked slice_out_of_range))
           (mkStore (hdrs s) (wh s) (S (nreads s)) (nwrites s))
| relays_client_gone s data err e :
    Response.Body resp (nreads s) = (data, err) ->
    0 < Z.of_nat (length data) <= bufSize ->
    ResponseWriter.WriteErr w (nwrites s) = Some e ->
    relays w resp s
           [BodyRead bufSize data err; Write data (Some e);
            Log INFO [AStr "Client connection closed"]]
           (inr Returned) (after_round s data)
| relays_eof s data :
    Response.Body resp (nreads s) = (data, Some io_EOF) ->
    deliverable w s data ->
    relays w resp s (BodyRead bufSize data (Some io_EOF) :: delivery data)
           (inl tt) (after_round s data)
| relays_read_error s data msg :
    Response.Body resp (nreads s) = (data, Some (Err msg)) ->
    deliverable w s data ->
    relays w resp s
           (BodyRead bufSize data (Some (Err msg)) :: delivery data ++
            [Log ERROR [AErr (Some (Err msg)); AStr "Error reading from backend"]])
           (inr Returned) (after_round s data)
| relays_next s data t r s' :
    Response.Body resp (nreads s) = (data, None) ->
    deliverable w s data ->
    relays w resp (after_round s data) t r s' ->
    relays w resp s (BodyRead bufSize data None :: delivery data ++ t) r s'.

(** *** The handler, run by run *)

(** The header map after the values [kv.2] were added under [kv.1]. *)
Definition copy_values (h : Header) (kv : string * list string) : Header :=
  fold_left (fun h v => Header_Add h kv.1 v) kv.2 h.

(** The header map after every entry of [l] was copied into it. *)
Definition copied (h : Header) (l : list (string * list string)) : Header :=
  fold_left copy_values l h.

(** The calls of [Add] that copy the entries [l]. *)
Definition adds (l : list (string * list string)) : list event :=
  flat_map (fun kv => map (HeaderAdd kv.1) kv.2) l.

Definition with_wh (s : store) (h : Header) : store :=
  mkStore (hdrs s) h (nreads s) (nwrites s).

(** The URL string the handler asks [url.JoinPath] for. *)
Definition target (r : Request.t) : string + error :=
  url_JoinPath "http://" ["wolf.sock"; URL.Path (Request.URL r)].

(** What [http.NewRequest] makes of the method and the URL string: the
    parsed URL, or its error. *)
Definition parsed (method url : string) : URL.t + error :=
  if negb (validMethod (method_or_GET method)) then inr (invalid_method (method_or_GET method))
  else url_Parse url.

(** The error of the outbound-request construction (lines 116-122), if
    there is one. *)
Definition construction_error (r : Request.t) : option error :=
  match target r with
  | inr e => Some e
  | inl url =>
      match parsed (Request.Method r) url with
      | inr e => Some e
      | inl _ => None
      end
  end.

(** [r.Header.Clone()] on the store [s]. *)
Definition cloned (r : Request.t) (s : store) : option loc * store :=
  match Request.Header r with
  | None => (None, s)
  | Some l => (Some (fresh_loc s), allocated s (default ∅ (hdrs s !! l)))
  end.

(** The request after line 133 and the store at that moment, when
    [http.NewRequest] parsed the URL [u]. *)
Definition constructed (r : Request.t) (u : URL.t) (s : store) : Request.t * store :=
  let '(clone, s2) := cloned r (allocated s ∅) in
  (Request.mk (method_or_GET (Request.Method r))
              (URL.mk (URL.Scheme u) (removeEmptyPort (URL.Host u)) (URL.Path u)
                      (URL.RawQuery u))
              (Request.Proto r) (Request.ProtoMajor r) (Request.ProtoMinor r)
              clone (Request.Body r) (Request.ContentLength r)
              (Request.TransferEncoding r) (removeEmptyPort (URL.Host u))
              0%nat,
   s2).

(** The request handed to [client.Do]. *)
Definition built (r : Request.t) (u : URL.t) (s : store) : Request.t * store :=
  let '(q, s2) := constructed r u s in
  (Request.WithContext (Request.Ctx r) q, s2).


Definition received (r : Request.t) (ready : bool) : list event :=
  [Log INFO [AStr "Received request:"; AStr (Request.Method r);
             AStr (URL.Path (Request.URL r))];
   ReadyLoad ready].

Definition joining (r : Request.t) : list event :=
  received r true ++ [JoinPath "http://" ["wolf.sock"; URL.Path (Request.URL r)]].

Definition sending (r : Request.t) (url : string) (out : Request.t) : list event :=
  joining r ++
  [NewRequest (Request.Method r) url (Request.Body r);
   Log INFO [AStr "Sending request to wolf.sock:"; AStr (Request.Method out);
             AStr (URL.Path (Request.URL out))]].

(** What follows the relay loop: the completion record after a [break],
    and the deferred [Body.Close] unless the loop is still running. *)
Definition closing (resp : Response.t) (x : unit + exit) : list event :=
  match x with
  | inl _ =>
      [Log INFO [AStr "Request completed"; AStr "statusCode";
                 AInt (Response.StatusCode resp)];
       BodyClose]
  | inr OutOfFuel => []
  | inr _ => [BodyClose]
  end.

Definition exit_of (x : unit + exit) : exit :=
  match x with
  | inl _ => Returned
  | inr e => e
  end.

(** The runs of the [/api/v1/] handler: one rule for each way through it. *)
Inductive handled (w : ResponseWriter.t) (r : Request.t) (s : store)
  : bool -> list event -> exit -> store -> Prop :=
| handled_not_ready :
    handled w r s false
            (received r false ++ [WriteHeader StatusServiceUnavailable (wh s)])
            Returned s
| handled_join_error e :
    target r = inr e ->
    handled w r s true
            (joining r ++
             [Log ERROR [AErr (Some e); AStr "Failed to join URL"];
              HttpError ("Failed to join URL: " +:+ error_msg e) StatusInternalServerError])
            Returned s
| handled_request_error url e :
    target r = inl url ->
    parsed (Request.Method r) url = inr e ->
    handled w r s true
            (joining r ++ [NewRequest (Request.Method r) url (Request.Body r)])
            (Panicked nil_dereference) s
| handled_backend_error url u out s1 e :
    target r = inl url ->
    parsed (Request.Method r) url = inl u ->
    built r u s = (out, s1) ->
    client_Do out (hdrs s1) = inr e ->
    handled w r s true
            (sending r url out ++
             [ClientDo out None (Some e);
              Log ERROR [AErr (Some e); AStr "Failed to send request to wolf.sock"];
              HttpError (error_msg e) StatusInternalServerError])
            Returned s1
| handled_no_flusher url u out s1 resp :
    target r = inl url ->
    parsed (Request.Method r) url = inl u ->
    built r u s = (out, s1) ->
    client_Do out (hdrs s1) = inl resp ->
    ResponseWriter.Flusher w = false ->
    handled w r s true
            (sending r url out ++
             ClientDo out (Some resp) None ::
             adds (range_order (Response.Header resp)) ++
             [WriteHeader (Response.StatusCode resp)
                          (copied (wh s1) (range_order (Response.Header resp)));
              Log ERROR [AStr "Flushing not supported! Aborting writing response"];
              BodyClose])
            Returned
            (with_wh s1 (copied (wh s1) (range_order (Response.Header resp))))
| handled_relayed url u out s1 resp t x s2 :
    target r = inl url ->
    parsed (Request.Method r) url = inl u ->
    built r u s = (out, s1) ->
    client_Do out (hdrs s1) = inl resp ->
    ResponseWriter.Flusher w = true ->
    relays w resp (with_wh s1 (copied (wh s1) (range_order (Response.Header resp)))) t x s2 ->
    invalid_code (Response.StatusCode resp) = false ->
    handled w r s true
            (sending r url out ++
             ClientDo out (Some resp) None ::
             adds (range_order (Response.Header resp)) ++
             WriteHeader (Response.StatusCode resp)
                         (copied (wh s1) (range_order (Response.Header resp))) ::
             t ++ closing resp x)
            (exit_of x) s2
| handled_unwritable url u out s1 resp :
    target r = inl url ->
    parsed (Request.Method r) url = inl u ->
    built r u s = (out, s1) ->
    client_Do out (hdrs s1) = inl resp ->
    ResponseWriter.Flusher w = true ->
    invalid_code (Response.StatusCode resp) = true ->
    handled w r s true
            (sending r url out ++
             ClientDo out (Some resp) None ::
             adds (range_order (Response.Header resp)) ++ [BodyClose])
            (Panicked (invalid_WriteHeader_code (Response.StatusCode resp)))
            (with_wh s1 (copied (wh s1) (range_order (Response.Header resp)))).

(** *** The process: the monitor goroutine and the handlers side by side *)

Variable wolfSocketPath : string.
Variable serverPort : Z.

(** The readiness flag ([var ready atomic.Bool]), whether the monitor
    goroutine is still in its loop, and whether the process is running. *)
Record process : Type := mkProcess {
  ready : bool;
  monitoring : bool;
  alive : bool
}.

(** [main] before the goroutine starts: the zero value of [atomic.Bool]. *)
Definition start : process := mkProcess false true true.

(** What can happen next: one iteration of the monitor, or one request
    served by a handler. *)
Inductive action : Type :=
| MonitorIter (p : Probe)
| Readyz (s : store)
| Livez (s : store)
| ApiV1 (fuel : nat) (w : ResponseWriter.t) (r : Request.t) (s : store).

(** The flag after the events [t]: each [ready.Store(v)] sets it. *)
Definition stores (t : list event) (flag : bool) : bool :=
  fold_left (fun b e => match e with ReadyStore v => v | _ => b end) t flag.

Definition step (ps : process) (a : action) : list event * process :=
  if negb (alive ps) then ([], ps)
  else
    match a with
    | MonitorIter p =>
        if monitoring ps then
          match monitor_iter wolfSocketPath serverPort p with
          | (t, v) =>
              (t, mkProcess (stores t (ready ps))
                            (match v with Continue => true | _ => false end)
                            (match v with Fatal | Panic _ => false | _ => true end))
          end
        else ([], ps)
    | Readyz s =>
        let t := events_of (run (readyz (ready ps)) s) in
        (t, mkProcess (stores t (ready ps)) (monitoring ps) (alive ps))
    | Livez s =>
        let t := events_of (run livez s) in
        (t, mkProcess (stores t (ready ps)) (monitoring ps) (alive ps))
    | ApiV1 fuel w r s =>
        let t := events_of (run (api_v1 (ready ps) fuel w r) s) in
        (t, mkProcess (stores t (ready ps)) (monitoring ps) (alive ps))
    end.

(** A schedule of actions, from the state [ps]. *)
Fixpoint exec (ps : process) (acts : list action) : list event * process :=
  match acts with
  | [] => ([], ps)
  | a :: acts' =>
      match step ps a with
      | (t, ps') =>
          match exec ps' acts' with
          | (t', ps'') => (t ++ t', ps'')
          end
      end
  end.

(** [main] (lines 22-196) once the certificates are loaded: the flag is
    declared, the monitor goroutine is started and the server serves the
    three handlers; [acts] is what happens then, in order. *)
Definition main (acts : list action) : list event * process :=
  exec start acts.

End Proxy.

(** [UnixHTTPClient] (lines 198-206): the transport dials the unix socket
    [sockAddr] whatever network and address it is asked for. *)
Definition UnixHTTPClient (sockAddr : string) (network addr : string) : string * string :=
  ("unix", sockAddr).

(** ** Reading a trace *)

(** How many events of [t] satisfy [f]. *)
Definition count (f : event -> bool) (t : list event) : nat :=
  length (List.filter f t).

Definition is_BodyClose (e : event) : bool :=
  match e with BodyClose => true | _ => false end.
Definition is_BodyRead (e : event) : bool :=
  match e with BodyRead _ _ _ => true | _ => false end.
Definition is_ReadyLoad (e : event) : bool :=
  match e with ReadyLoad _ => true | _ => false end.
Definition is_Stat (e : event) : bool :=
  match e with Stat _ => true | _ => false end.
Definition is_Sleep (e : event) : bool :=
  match e with Sleep _ => true | _ => false end.
Definition is_OsExit (e : event) : bool :=
  match e with OsExit _ => true | _ => false end.

(** A status line goes to the client: [w.WriteHeader] or [http.Error]. *)
Definition is_status (e : event) : bool :=
  match e with WriteHeader _ _ | HttpError _ _ => true | _ => false end.

(** [client.Do] returned a response. *)
Definition is_response (e : event) : bool :=
  match e with ClientDo _ (Some _) _ => true | _ => false end.

(** The events of a handler that neither answer the client nor touch the
    response of the backend. *)
Definition silent (e : event) : bool :=
  match e with
  | WriteHeader _ _ | HttpError _ _ | HeaderAdd _ _ | Write _ _ | Flush
  | BodyRead _ _ _ | BodyClose => false
  | _ => true
  end.

Definition is_running (x : exit) : bool :=
  match x with OutOfFuel => true | _ => false end.
Definition is_panic (x : exit) : bool :=
  match x with Panicked _ => true | _ => false end.

(** The answers of [Body.Read] in a trace, in order. *)
Fixpoint reads (t : list event) : list ReadResult :=
  match t with
  | [] => []
  | BodyRead _ data err :: t' => (data, err) :: reads t'
  | _ :: t' => reads t'
  end.

(** The bytes the reads of a trace returned, and the bytes its successful
    writes carried. *)
Fixpoint bytes_read (t : list event) : list byte :=
  match t with
  | [] => []
  | BodyRead _ data _ :: t' => data ++ bytes_read t'
  | _ :: t' => bytes_read t'
  end.

Fixpoint bytes_written (t : list event) : list byte :=
  match t with
  | [] => []
  | Write data None :: t' => data ++ bytes_written t'
  | _ :: t' => bytes_written t'
  end.

(** Every read of a chunk (bytes, no more than the buffer holds) is
    followed at once by the write of its bytes. *)
Fixpoint written (t : list event) : Prop :=
  match t with
  | [] => True
  | BodyRead _ data _ :: t' =>
      (0 < Z.of_nat (length data) <= bufSize ->
       exists werr t'', t' = Write data werr :: t'') /\ written t'
  | _ :: t' => written t'
  end.

Definition write_failed (e : event) : bool :=
  match e with Write _ (Some _) => true | _ => false end.

(** The inbound request [r] with the host [h] (the [Host] header of the
    request line). *)
Definition with_Host (h : string) (r : Request.t) : Request.t :=
  Request.mk (Request.Method r) (Request.URL r) (Request.Proto r) (Request.ProtoMajor r)
             (Request.ProtoMinor r) (Request.Header r) (Request.Body r)
             (Request.ContentLength r) (Request.TransferEncoding r) h (Request.Ctx r).

(** ** The answers of the world to the monitor *)

(** The path is a socket: [os.Stat] succeeds with the socket bit set. *)
Definition is_socket (p : Probe) : bool :=
  is_nil (stat_err p)
  && match stat_info p with
     | Some mode => negb (Z.land mode ModeSocket =? 0)
     | None => false
     end.

(** The backend accepts: the path is a socket and [net.Dial] succeeds. *)
Definition accepts (p : Probe) : bool := is_socket p && is_nil (dial_err p).

(** The backend is not there yet: [os.Stat] fails, or the path is a
    socket on which [net.Dial] fails. *)
Definition waits (p : Probe) : bool :=
  negb (is_nil (stat_err p)) || (is_socket p && negb (is_nil (dial_err p))).

(** ** The program (lines 22-196) *)

(** The command-line flags, after [flag.Parse]. *)
Record Flags : Type := mkFlags {
  tls_cert : string;
  tls_key : string;
  port : Z;
  socket : string
}.

(** The records of lines 33-37. *)
Definition banner (f : Flags) : list event :=
  [Log INFO [AStr "Starting wolf-agent"];
   Log INFO [AStr "TLS Cert:"; AStr (tls_cert f)];
   Log INFO [AStr "TLS Key:"; AStr (tls_key f)];
   Log INFO [AStr "Port:"; AInt (port f)];
   Log INFO [AStr "Wolf Socket:"; AStr (socket f)]].

(** [klog.Fatal(msg, err)]: the record, then [os.Exit(255)]. *)
Definition klog_Fatal (msg : string) (e : error) : list event :=
  [Log FATAL [AStr msg; AErr (Some e)]; OsExit 255].

Definition listening_record (f : Flags) : event :=
  Log INFO [AStr "Listening on port "; AInt (port f)].

(** [main], from its first line. The world gives: [certs], the error of
    [util.LoadCertificates]; [early], what the monitor goroutine sees in
    the iterations it makes before [main] reaches line 191; [acts], what
    happens while [ListenAndServeTLS] serves; [serve_err], the error
    [ListenAndServeTLS] returns with after that, [None] when it is
    still serving. *)
Definition wolf_agent {env : Env} (f : Flags) (certs : option error) (early : list Probe)
    (acts : list action) (serve_err : option error) : list event * process :=
  match certs with
  | Some e =>
      (banner f ++ klog_Fatal "Failed to load certificates:" e,
       mkProcess false false false)
  | None =>
      match exec (socket f) (port f) start (map MonitorIter early) with
      | (t1, ps1) =>
          if negb (alive ps1) then (banner f ++ t1, ps1)
          else
            match exec (socket f) (port f) ps1 acts with
            | (t2, ps2) =>
                let t := banner f ++ t1 ++ listening_record f :: t2 in
                if negb (alive ps2) then (t, ps2)
                else
                  match serve_err with
                  | Some e =>
                      (t ++ klog_Fatal "Failed to start server:" e,
                       mkProcess (ready ps2) (monitoring ps2) false)
                  | None => (t, ps2)
                  end
            end
      end
  end.

(** [os.Exit] ends a trace: either the trace holds no exit, or the process
    is not alive and the exit, with code 255, is its last event. *)
Definition exits_last (t : list event) (live : bool) : Prop :=
  Forall (fun e => is_OsExit e = false) t \/
  (live = false /\
   exists pre, t = pre ++ [OsExit 255] /\ Forall (fun e => is_OsExit e = false) pre).

(** ** A model of the Go library functions

    [path.Clean], [path.Join], the path escaping of [net/url],
    [URL.JoinPath], [url.JoinPath] and
    [textproto.CanonicalMIMEHeaderKey] follow the Go sources. [Parse]
    covers URLs of the shape [scheme://host/path?query] with a plain host
    (no user information, port, IP literal, escape or fragment); on any
    other input it answers [outside_model], which is not Go's answer, and
    no statement below evaluates it there. *)
Module GoStd.

Definition outside_model : error := Err "outside the modelled part of net/url".

Definition code (a : ascii) : Z := Z.of_N (N_of_ascii a).

Definition isAlnum (a : ascii) : bool :=
  let n := code a in
  ((48 <=? n) && (n <=? 57)) || ((65 <=? n) && (n <=? 90)) || ((97 <=? n) && (n <=? 122)).

(** [strings.Contains(s, c)] for a one-byte [c] *)
Definition ContainsByte (s : string) (c : ascii) : bool :=
  existsb (Ascii.eqb c) (list_ascii_of_string s).

(** [strings.Split(s, c)] for a one-byte [c] *)
Fixpoint Split (c : ascii) (s : string) : list string :=
  match s with
  | EmptyString => [EmptyString]
  | String a s' =>
      if Ascii.eqb a c then EmptyString :: Split c s'
      else match Split c s' with
           | seg :: rest => String a seg :: rest
           | [] => [String a EmptyString]
           end
  end.

(** [strings.Join(l, "/")] *)
Fixpoint JoinSlash (l : list string) : string :=
  match l with
  | [] => ""
  | [x] => x
  | x :: l' => x +:+ "/" +:+ JoinSlash l'
  end.

(** One element of the path in [path.Clean]; [out] holds the elements
    kept so far, last first. *)
Definition clean_elem (rooted : bool) (out : list string) (seg : string) : list string :=
  if bool_decide (seg = "") || bool_decide (seg = ".") then out
  else if bool_decide (seg = "..") then
    match out with
    | top :: rest => if bool_decide (top = "..") then seg :: out else rest
    | [] => if rooted then [] else [seg]
    end
  else seg :: out.

(** [path.Clean] *)
Definition Clean (p : string) : string :=
  if bool_decide (p = "") then "."
  else
    let rooted := String.prefix "/" p in
    let out := rev (fold_left (clean_elem rooted) (Split "/" p) []) in
    if rooted then "/" +:+ JoinSlash out
    else if bool_decide (out = []) then "." else JoinSlash out.

Fixpoint join_buf (buf : string) (elem : list string) : string :=
  match elem with
  | [] => buf
  | e :: rest =>
      if bool_decide (buf <> "") then join_buf (buf +:+ "/" +:+ e) rest
      else if bool_decide (e <> "") then join_buf e rest
      else join_buf buf rest
  end.

(** [path.Join] *)
Definition Join (elem : list string) : string :=
  if forallb (fun e => bool_decide (e = "")) elem then ""
  else Clean (join_buf "" elem).

(** [shouldEscape(c, encodePath)]: the bytes - _ . ~ $ & + , / : ; = @
    and the letters and digits are kept. *)
Definition shouldEscape_path (a : ascii) : bool :=
  negb (isAlnum a ||
        bool_decide (code a ∈ [45; 95; 46; 126; 36; 38; 43; 44; 47; 58; 59; 61; 64])).

Definition upperhex (n : Z) : ascii :=
  ascii_of_N (Z.to_N (if n <? 10 then 48 + n else 55 + n)).

(** [escape(s, encodePath)] *)
Fixpoint escape_path (s : string) : string :=
  match s with
  | EmptyString => EmptyString
  | String a s' =>
      if shouldEscape_path a
      then String "%" (String (upperhex (code a / 16)) (String (upperhex (code a mod 16)) (escape_path s')))
      else String a (escape_path s')
  end.

Definition unhex (a : ascii) : option Z :=
  let n := code a in
  if (48 <=? n) && (n <=? 57) then Some (n - 48)
  else if (97 <=? n) && (n <=? 102) then Some (n - 97 + 10)
  else if (65 <=? n) && (n <=? 70) then Some (n - 65 + 10)
  else None.

(** [unescape(s, encodePath)]; [fuel] bounds the recursion by the length. *)
Fixpoint unescape_path_go (fuel : nat) (s : string) : option string :=
  match fuel with
  | O => Some EmptyString
  | S fuel' =>
      match s with
      | EmptyString => Some EmptyString
      | String a s' =>
          if Ascii.eqb a "%" then
            match s' with
            | String h1 (String h2 s'') =>
                match unhex h1, unhex h2 with
                | Some x, Some y =>
                    option_map (String (ascii_of_N (Z.to_N (16 * x + y))))
                               (unescape_path_go fuel' s'')
                | _, _ => None
                end
            | _ => None
            end
          else option_map (String a) (unescape_path_go fuel' s')
      end
  end.

Definition unescape_path (s : string) : option string :=
  unescape_path_go (String.length s) s.

(** [validEncoded(s, encodePath)] *)
Fixpoint validEncoded_path (s : string) : bool :=
  match s with
  | EmptyString => true
  | String a s' =>
      (bool_decide (code a ∈ [33; 36; 38; 39; 40; 41; 42; 43; 44; 59; 61; 58; 64; 91; 93; 37])
       || negb (shouldEscape_path a))
      && validEncoded_path s'
  end.

(** [url.URL], without the fields (Opaque, User, Fragment) that stay
    empty on the covered inputs. *)
Record URL : Type := mkURL {
  Scheme : string;
  Host : string;
  Path : string;
  RawPath : string;
  OmitHost : bool;
  ForceQuery : bool;
  RawQuery : string
}.

(** [u.setPath(p)] *)
Definition setPath (u : URL) (p : string) : URL * option error :=
  match unescape_path p with
  | None => (u, Some (Err "invalid URL escape"))
  | Some path =>
      (mkURL (Scheme u) (Host u) path
             (if bool_decide (escape_path path = p) then "" else p)
             (OmitHost u) (ForceQuery u) (RawQuery u),
       None)
  end.

(** [u.EscapedPath()] *)
Definition EscapedPath (u : URL) : string :=
  if bool_decide (RawPath u <> "") && validEncoded_path (RawPath u)
     && bool_decide (unescape_path (RawPath u) = Some (Path u))
  then RawPath u
  else if bool_decide (Path u = "*") then "*"
  else escape_path (Path u).

(** [shouldEscape(c, encodeHost)]: the letters, the digits and the bytes
    ! $ & ' ( ) * + , ; = : [ ] < > and the double quote, - _ . ~ are kept. *)
Definition shouldEscape_host (a : ascii) : bool :=
  negb (isAlnum a ||
        bool_decide (code a ∈ [33; 36; 38; 39; 40; 41; 42; 43; 44; 59; 61; 58; 91; 93;
                               60; 62; 34; 45; 95; 46; 126])).

(** [unescape(s, encodeHost)]: an escape is refused unless it stands for
    a byte from 0x80 on or is [%25]; a byte that a host cannot hold is
    refused. *)
Fixpoint unescape_host_go (fuel : nat) (s : string) : string + error :=
  match fuel with
  | O => inl EmptyString
  | S fuel' =>
      match s with
      | EmptyString => inl EmptyString
      | String a s' =>
          if Ascii.eqb a "%" then
            match s' with
            | String h1 (String h2 s'') =>
                match unhex h1, unhex h2 with
                | Some x, Some y =>
                    if (x <? 8) && negb ((x =? 2) && (y =? 5))
                    then inr (Err "invalid URL escape")
                    else
                      match unescape_host_go fuel' s'' with
                      | inl r => inl (String (ascii_of_N (Z.to_N (16 * x + y))) r)
                      | inr e => inr e
                      end
                | _, _ => inr (Err "invalid URL escape")
                end
            | _ => inr (Err "invalid URL escape")
            end
          else if (code a <? 128) && shouldEscape_host a
          then inr (Err "invalid character in host name")
          else
            match unescape_host_go fuel' s' with
            | inl r => inl (String a r)
            | inr e => inr e
            end
      end
  end.

Definition unescape_host (s : string) : string + error :=
  unescape_host_go (String.length s) s.

(** [parseAuthority] for an authority without user information, port or
    IP literal. *)
Definition parseAuthority (authority : string) : string + error :=
  if ContainsByte authority "@" || ContainsByte authority ":"
     || ContainsByte authority "[" || ContainsByte authority "]"
  then inr outside_model
  else unescape_host authority.

(** [escape(s, encodeHost)] *)
Fixpoint escape_host (s : string) : string :=
  match s with
  | EmptyString => EmptyString
  | String a s' =>
      if shouldEscape_host a
      then String "%" (String (upperhex (code a / 16))
                              (String (upperhex (code a mod 16)) (escape_host s')))
      else String a (escape_host s')
  end.

(** [u.String()] *)
Definition URL_String (u : URL) : string :=
  let path := EscapedPath u in
  let scheme := if bool_decide (Scheme u <> "") then Scheme u +:+ ":" else "" in
  let authority :=
    if bool_decide (Scheme u <> "") || bool_decide (Host u <> "") then
      if OmitHost u && bool_decide (Host u = "") then ""
      else (if bool_decide (Host u <> "") || bool_decide (Path u <> "") then "//" else "")
           +:+ escape_host (Host u)
    else "" in
  let slash :=
    if bool_decide (path <> "") && negb (String.prefix "/" path) && bool_decide (Host u <> "")
    then "/" else "" in
  let buf := scheme +:+ authority +:+ slash in
  let dot :=
    if bool_decide (buf = "") && ContainsByte (hd "" (Split "/" path)) ":"
    then "./" else "" in
  buf +:+ dot +:+ path +:+
  (if ForceQuery u || bool_decide (RawQuery u <> "") then "?" +:+ RawQuery u else "").

(** [getScheme]: the scheme and the rest, or an error. *)
Fixpoint getScheme_go (rawURL : string) (s : string) (i : nat) : option (string * string) :=
  match s with
  | EmptyString => Some ("", rawURL)
  | String a s' =>
      let n := code a in
      if ((65 <=? n) && (n <=? 90)) || ((97 <=? n) && (n <=? 122)) then getScheme_go rawURL s' (S i)
      else if ((48 <=? n) && (n <=? 57)) || bool_decide (n ∈ [43; 45; 46]) then
        if bool_decide (i = O) then Some ("", rawURL) else getScheme_go rawURL s' (S i)
      else if n =? 58 then
        if bool_decide (i = O) then None else Some (String.substring 0 i rawURL, s')
      else Some ("", rawURL)
  end.

Definition getScheme (rawURL : string) : option (string * string) :=
  getScheme_go rawURL rawURL O.

Fixpoint toLower (s : string) : string :=
  match s with
  | EmptyString => EmptyString
  | String a s' =>
      let n := code a in
      String (if (65 <=? n) && (n <=? 90) then ascii_of_N (Z.to_N (n + 32)) else a)
             (toLower s')
  end.

(** [strings.Cut(s, c)] for a one-byte [c]: before, after, found. *)
Fixpoint Cut (c : ascii) (s : string) : string * string * bool :=
  match s with
  | EmptyString => (EmptyString, EmptyString, false)
  | String a s' =>
      if Ascii.eqb a c then (EmptyString, s', true)
      else match Cut c s' with
           | (b, r, f) => (String a b, r, f)
           end
  end.

Definition hasCTLByte (s : string) : bool :=
  existsb (fun a => (code a <? 32) || (code a =? 127)) (list_ascii_of_string s).

(** [strings.HasSuffix(s, c)] for a one-byte [c] *)
Fixpoint HasSuffixByte (s : string) (c : ascii) : bool :=
  match s with
  | EmptyString => false
  | String a EmptyString => Ascii.eqb a c
  | String _ s' => HasSuffixByte s' c
  end.

(** [strings.Count(s, c)] for a one-byte [c] *)
Definition CountByte (s : string) (c : ascii) : nat :=
  length (List.filter (Ascii.eqb c) (list_ascii_of_string s)).

(** [s[1:]] *)
Definition from1 (s : string) : string :=
  match s with
  | EmptyString => EmptyString
  | String _ s' => s'
  end.

(** [url.Parse] on the covered inputs. *)
Definition Parse (rawURL : string) : URL + error :=
  if hasCTLByte rawURL then inr (Err "net/url: invalid control character in URL")
  else if ContainsByte rawURL "#" then inr outside_model
  else if bool_decide (rawURL = "*") then inl (mkURL "" "" "*" "" false false "")
  else
    match getScheme rawURL with
    | None => inr (Err "missing protocol scheme")
    | Some (scheme, rest) =>
        let scheme := toLower scheme in
        let '(rest, force, query) :=
          if HasSuffixByte rest "?" && bool_decide (CountByte rest "?" = 1%nat)
          then (TrimSuffix rest "?", true, "")
          else let '(before, after, _) := Cut "?" rest in (before, false, after) in
        if negb (String.prefix "/" rest) && bool_decide (scheme <> "") then
          if bool_decide (rest = "") then inl (mkURL scheme "" "" "" false force query)
          else inr outside_model
        else if negb (String.prefix "/" rest)
                && ContainsByte (hd "" (Split "/" rest)) ":" then
          inr (Err "first path segment in URL cannot contain colon")
        else
          let '(host, omit, rest) :=
            if String.prefix "//" rest
               && (bool_decide (scheme <> "") || negb (String.prefix "///" rest)) then
              let '(a, r, found) := Cut "/" (from1 (from1 rest)) in
              (parseAuthority a, false, if found then "/" +:+ r else "")
            else (inl "", bool_decide (scheme <> "") && String.prefix "/" rest, rest) in
          match host with
          | inr e => inr e
          | inl host =>
              match setPath (mkURL scheme host "" "" omit force query) rest with
              | (u, None) => inl u
              | (_, Some e) => inr e
              end
          end
    end.

(** [u.JoinPath(elem...)] *)
Definition URL_JoinPath (u : URL) (elem : list string) : URL :=
  let elem0 := EscapedPath u in
  let relative := negb (String.prefix "/" elem0) in
  let elem := (if relative then "/" +:+ elem0 else elem0) :: elem in
  let p := if relative then from1 (Join elem) else Join elem in
  let p :=
    if HasSuffixByte (List.last elem "") "/" && negb (HasSuffixByte p "/")
    then p +:+ "/" else p in
  fst (setPath u p).

(** [url.JoinPath(base, elem...)] *)
Definition JoinPath (base : string) (elem : list string) : string + error :=
  match Parse base with
  | inl u => inl (URL_String (URL_JoinPath u elem))
  | inr err => inr err
  end.

(** [url.Parse] with the result in the handler's [URL.t]. *)
Definition url_Parse (rawURL : string) : URL.t + error :=
  match Parse rawURL with
  | inl u => inl (URL.mk (Scheme u) (Host u) (Path u) (RawQuery u))
  | inr err => inr err
  end.

(** The bytes the path escaping keeps, and those of them a path element
    can hold. *)
Definition plainByte (a : ascii) : bool := negb (shouldEscape_path a).
Definition elemByte (a : ascii) : bool := plainByte a && negb (Ascii.eqb a "/").

Fixpoint allBytes (f : ascii -> bool) (s : string) : bool :=
  match s with
  | EmptyString => true
  | String a s' => f a && allBytes f s'
  end.

(** A path element that [path.Clean] and the escaping leave as it is: it
    is made of kept bytes and is not empty, [.] or [..]. *)
Definition normalElem (e : string) : bool :=
  allBytes elemByte e && negb (bool_decide (e = "")) && negb (bool_decide (e = "."))
  && negb (bool_decide (e = "..")).

(** The path [/e1/.../en], with a slash at the end when [trailing]. *)
Fixpoint path_of (elems : list string) (trailing : bool) : string :=
  match elems with
  | [] => if trailing then "/" else ""
  | e :: rest => "/" +:+ e +:+ path_of rest trailing
  end.

(** The clean paths: the paths [path_of elems trailing] of normal
    elements, the empty path apart. *)
Definition cleanPath (elems : list string) (trailing : bool) : bool :=
  forallb normalElem elems && (negb (bool_decide (elems = [])) || trailing).

(** The byte test of [textproto]: letters, digits and the token
    punctuation. *)
Definition validHeaderFieldByte (a : ascii) : bool := isTokenByte a.

Fixpoint canon_go (upper : bool) (s : string) : string :=
  match s with
  | EmptyString => EmptyString
  | String a s' =>
      let n := code a in
      let c :=
        if upper && (97 <=? n) && (n <=? 122) then ascii_of_N (Z.to_N (n - 32))
        else if negb upper && (65 <=? n) && (n <=? 90) then ascii_of_N (Z.to_N (n + 32))
        else a in
      String c (canon_go (Ascii.eqb c "-") s')
  end.

(** [textproto.CanonicalMIMEHeaderKey] *)
Definition CanonicalMIMEHeaderKey (s : string) : string :=
  let l := list_ascii_of_string s in
  if negb (forallb (fun a => validHeaderFieldByte a || Ascii.eqb a " ") l) then s
  else if existsb (fun a => Ascii.eqb a " ") l then s
  else canon_go true s.

End GoStd.

(** ** A sample deployment, for the examples *)
Module Sample.

Definition bytes (s : string) : list byte := list_byte_of_string s.

(** The inbound header map, at location 0 of the store. *)
Definition inbound_header : Header := {[ "X-Test" := ["a"; "b"] ]}.

Definition s0 : store := mkStore {[ 0%nat := inbound_header ]} ∅ 0 0.

(** [GET /api/v1/apps?limit=5] *)
Definition request : Request.t :=
  Request.mk "GET" (URL.mk "" "" "/api/v1/apps" "limit=5") "HTTP/1.1" 1 1
             (Some 0%nat) 1%nat 0 [] "agent:443" 7%nat.

(** The same request with a method that is not an HTTP token. *)
Definition bad_method : Request.t :=
  Request.mk "BAD METHOD" (URL.mk "" "" "/api/v1/apps" "") "HTTP/1.1" 1 1
             (Some 0%nat) 1%nat 0 [] "agent:443" 7%nat.

(** [CONNECT /api/v1/../../../a%20b]: the path of a CONNECT request is
    not cleaned by the ServeMux. *)
Definition connect : Request.t :=
  Request.mk "CONNECT" (URL.mk "" "" "/api/v1/../../../a b" "") "HTTP/1.1" 1 1
             (Some 0%nat) 1%nat 0 [] "agent:443" 7%nat.

(** An event stream of two chunks with an empty read in between. *)
Definition stream (k : nat) : ReadResult :=
  match k with
  | 0%nat => (bytes "data: 1", None)
  | 1%nat => ([], None)
  | 2%nat => (bytes "data: 2", None)
  | _ => ([], Some io_EOF)
  end.

Definition response : Response.t :=
  Response.mk 200 {[ "Content-Type" := ["text/event-stream"] ]} stream.

Definition backend (q : Request.t) (h : gmap loc Header) : Response.t + error :=
  inl response.

(** A backend stream that breaks after its first chunk. *)
Definition broken (k : nat) : ReadResult :=
  match k with
  | 0%nat => (bytes "data: 1", None)
  | _ => ([], Some (Err "unexpected EOF"))
  end.

Definition broken_backend (q : Request.t) (h : gmap loc Header) : Response.t + error :=
  inl (Response.mk 200 ∅ broken).

(** A client that takes every write, and one that is gone at the second. *)
Definition w : ResponseWriter.t := ResponseWriter.mk true (fun _ => None).
Definition w_gone : ResponseWriter.t :=
  ResponseWriter.mk true (fun k => match k with
                                   | 0%nat => None
                                   | _ => Some (Err "broken pipe")
                                   end).

(** The Go library model with the sample backend. *)
Definition env : Env :=
  mkEnv GoStd.JoinPath GoStd.url_Parse GoStd.CanonicalMIMEHeaderKey map_to_list backend.

(** The same with a backend stream that breaks. *)
Definition broken_env : Env :=
  mkEnv GoStd.JoinPath GoStd.url_Parse GoStd.CanonicalMIMEHeaderKey map_to_list broken_backend.

(** The handler on the Go library model and the sample backend. *)
Definition api : bool -> nat -> ResponseWriter.t -> Request.t -> M unit :=
  @api_v1 env.

(** The request the handler sends to the backend for [request]. *)
Definition outbound : Request.t :=
  Request.mk "GET" (URL.mk "http" "wolf.sock" "/api/v1/apps" "") "HTTP/1.1" 1 1
             (Some 2%nat) 1%nat 0 [] "wolf.sock" 7%nat.

(** One iteration of the monitor: the path is absent, is a regular file,
    is a socket nobody listens on, is a socket that accepts. *)
Definition absent : Probe := mkProbe None (Some (Err "no such file or directory")) None.
Definition regular_file : Probe := mkProbe (Some 420) None None.
Definition socket_mode : Z := Z.lor ModeSocket 493.
Definition not_listening : Probe := mkProbe (Some socket_mode) None (Some (Err "connection refused")).
Definition listening : Probe := mkProbe (Some socket_mode) None None.

(** The backend appears after two polls and accepts at the fourth. *)
Definition world (k : nat) : Probe :=
  match k with
  | 0%nat | 1%nat => absent
  | 2%nat => not_listening
  | _ => listening
  end.

(** A schedule: requests are served while the monitor polls. *)
Definition schedule : list action :=
  [ApiV1 3 w request s0; MonitorIter absent; Readyz s0; MonitorIter not_listening;
   MonitorIter listening; Readyz s0; ApiV1 9 w request s0; Livez s0].

(** A backend that refuses the connection. *)
Definition refusing_backend (q : Request.t) (h : gmap loc Header) : Response.t + error :=
  inr (Err "dial unix /var/run/wolf.sock: connect: connection refused").

Definition refusing_env : Env :=
  mkEnv GoStd.JoinPath GoStd.url_Parse GoStd.CanonicalMIMEHeaderKey map_to_list
        refusing_backend.

(** A backend that answers with the status line [HTTP/1.1 099]. *)
Definition unwritable : Response.t :=
  Response.mk 99 {[ "Content-Type" := ["text/event-stream"] ]} stream.

Definition unwritable_backend (q : Request.t) (h : gmap loc Header) : Response.t + error :=
  inl unwritable.

Definition unwritable_env : Env :=
  mkEnv GoStd.JoinPath GoStd.url_Parse GoStd.CanonicalMIMEHeaderKey map_to_list
        unwritable_backend.

(** A client whose ResponseWriter cannot flush. *)
Definition w_plain : ResponseWriter.t := ResponseWriter.mk false (fun _ => None).

(** The flags as they are without arguments. *)
Definition flags : Flags := mkFlags "server.crt" "server.key" 443 "/var/run/wolf.sock".

End Sample.


Section ProxyFacts.

Context {env : Env}.


Lemma delivery_some (data : list byte) :
  (0 <? Z.of_nat (length data)) = true -> delivery data = [Write data None; Flush].
Proof. intros H. unfold delivery. now rewrite H. Qed.

Lemma delivery_none (data : list byte) :
  (0 <? Z.of_nat (length data)) = false -> delivery data = [].
Proof. intros H. unfold delivery. now rewrite H. Qed.

Lemma relay_relays (w : ResponseWriter.t) (resp : Response.t) (fuel : nat) :
  forall s t r s', relay fuel w resp s = (t, r, s') -> relays w resp s t r s'.
Proof.
  induction fuel as [|fuel IH]; intros s t r s' H.
  - inversion H; subst. constructor.
  - simpl in H. unfold mbind, M_bind, bind, Body_Read in H.
    destruct (Response.Body resp (nreads s)) as [data err] eqn:Hb.
    destruct (0 <? Z.of_nat (length data)) eqn:Hn; simpl in H.
    + destruct (bufSize <? Z.of_nat (length data)) eqn:Hc; simpl in H.
      * inversion H; subst. apply relays_overflow; [done | lia].
      * unfold w_Write in H; simpl in H.
        assert (Hs : mkStore (hdrs s) (wh s) (S (nreads s)) (S (nwrites s))
                     = after_round s data)
          by (unfold after_round; now rewrite Hn).
        rewrite Hs in H.
        destruct (ResponseWriter.WriteErr w (nwrites s)) as [e|] eqn:Hw; simpl in H.
        -- inversion H; subst. eapply relays_client_gone; eauto. lia.
        -- assert (Hd : deliverable w s data) by (split; [lia | done]).
           destruct err as [[|msg]|]; simpl in H.
           ++ pose proof (relays_eof w resp s data Hb Hd) as X.
              rewrite (delivery_some data Hn) in X. inversion H; subst. exact X.
           ++ pose proof (relays_read_error w resp s data msg Hb Hd) as X.
              rewrite (delivery_some data Hn) in X. inversion H; subst. exact X.
           ++ destruct (relay fuel w resp (after_round s data)) as [[t2 r2] s2] eqn:Hr.
              pose proof (relays_next w resp s data t2 r2 s2 Hb Hd (IH _ _ _ _ Hr)) as X.
              rewrite (delivery_some data Hn) in X. inversion H; subst. exact X.
    + assert (Hd : deliverable w s data) by (split; [unfold bufSize | ]; lia).
      assert (Hs : mkStore (hdrs s) (wh s) (S (nreads s)) (nwrites s)
                   = after_round s data)
        by (unfold after_round; now rewrite Hn).
      rewrite Hs in H.
      destruct err as [[|msg]|]; simpl in H.
      * pose proof (relays_eof w resp s data Hb Hd) as X.
        rewrite (delivery_none data Hn) in X. inversion H; subst. exact X.
      * pose proof (relays_read_error w resp s data msg Hb Hd) as X.
        rewrite (delivery_none data Hn) in X. inversion H; subst. exact X.
      * destruct (relay fuel w resp (after_round s data)) as [[t2 r2] s2] eqn:Hr.
        pose proof (relays_next w resp s data t2 r2 s2 Hb Hd (IH _ _ _ _ Hr)) as X.
        rewrite (delivery_none data Hn) in X. inversion H; subst. exact X.
Qed.



Lemma for_each_values (key : string) (vs : list string) :
  forall s,
    for_each vs (fun value => w_Header_Add key value) s
    = (map (HeaderAdd key) vs, inl tt, with_wh s (copy_values (wh s) (key, vs))).
Proof.
  induction vs as [|v vs IH]; intros s.
  - destruct s; reflexivity.
  - simpl. unfold mbind, M_bind, bind. simpl. rewrite IH. reflexivity.
Qed.

Lemma for_each_copy (l : list (string * list string)) :
  forall s,
    for_each l (fun '(key, values) =>
      for_each values (fun value => w_Header_Add key value)) s
    = (adds l, inl tt, with_wh s (copied (wh s) l)).
Proof.
  induction l as [|[k vs] l IH]; intros s.
  - destruct s; reflexivity.
  - simpl. unfold mbind, M_bind, bind. rewrite for_each_values, IH. reflexivity.
Qed.

Lemma outbound_request_run (r : Request.t) (s : store) :
  outbound_request r s =
    match target r with
    | inr e =>
        ([JoinPath "http://" ["wolf.sock"; URL.Path (Request.URL r)];
          Log ERROR [AErr (Some e); AStr "Failed to join URL"];
          HttpError ("Failed to join URL: " +:+ error_msg e) StatusInternalServerError],
         inr Returned, s)
    | inl url =>
        match parsed (Request.Method r) url with
        | inr e =>
            ([JoinPath "http://" ["wolf.sock"; URL.Path (Request.URL r)];
              NewRequest (Request.Method r) url (Request.Body r)],
             inr (Panicked nil_dereference), s)
        | inl u =>
            ([JoinPath "http://" ["wolf.sock"; URL.Path (Request.URL r)];
              NewRequest (Request.Method r) url (Request.Body r)],
             inl (constructed r u s).1, (constructed r u s).2)
        end
    end.
Proof.
  unfold outbound_request, call_JoinPath, target, parsed, http_NewRequest.
  unfold mbind, M_bind, bind. simpl.
  destruct (url_JoinPath _ _) as [url|e]; simpl; [|reflexivity].
  destruct (validMethod _); simpl; [|reflexivity].
  destruct (url_Parse url) as [u|e]; simpl; [|reflexivity].
  unfold constructed, cloned, Header_Clone.
  destruct (Request.Header r) as [l|]; reflexivity.
Qed.

Lemma write_back_run (fuel : nat) (w : ResponseWriter.t) (resp : Response.t) (s : store) :
  write_back fuel w resp s =
    let l := range_order (Response.Header resp) in
    let s1 := with_wh s (copied (wh s) l) in
    if ResponseWriter.Flusher w then
      if invalid_code (Response.StatusCode resp) then
        (adds l ++ [BodyClose],
         inr (Panicked (invalid_WriteHeader_code (Response.StatusCode resp))), s1)
      else
        match relay fuel w resp s1 with
        | (t, x, s2) =>
            (adds l ++ WriteHeader (Response.StatusCode resp) (copied (wh s) l) ::
             t ++ closing resp x,
             match x with inl _ => inl tt | inr e => inr e end, s2)
        end
    else
      (adds l ++
       [WriteHeader (Response.StatusCode resp) (copied (wh s) l);
        Log ERROR [AStr "Flushing not supported! Aborting writing response"];
        BodyClose],
       inr Returned, s1).
Proof.
  unfold write_back, defer, w_WriteHeader. unfold mbind, M_bind, bind.
  rewrite for_each_copy. simpl.
  destruct (ResponseWriter.Flusher w); simpl.
  2:{ rewrite andb_false_r. simpl. now rewrite <- app_assoc. }
  rewrite andb_true_r.
  destruct (invalid_code (Response.StatusCode resp)); simpl.
  { now rewrite app_nil_r. }
  destruct (relay fuel w resp _) as [[t x] s2].
  destruct x as [[]|[| |]]; simpl; rewrite ?app_nil_r, <- ?app_assoc; simpl;
    rewrite <- ?app_assoc; reflexivity.
Qed.

Lemma api_handled (ready : bool) (fuel : nat) (w : ResponseWriter.t) (r : Request.t)
    (s : store) (t : list event) (x : exit) (s' : store) :
  run (api_v1 ready fuel w r) s = (t, x, s') -> handled w r s ready t x s'.
Proof.
  intros H. destruct ready.
  2:{ inversion H; subst. constructor. }
  unfold run, api_v1 in H.
  unfold mbind, M_bind, bind in H. simpl in H.
  rewrite outbound_request_run in H.
  destruct (target r) as [url|e] eqn:Ht.
  2:{ inversion H; subst. exact (handled_join_error w r _ e Ht). }
  destruct (parsed (Request.Method r) url) as [u|e] eqn:Hp.
  2:{ inversion H; subst. exact (handled_request_error w r _ url e Ht Hp). }
  destruct (constructed r u s) as [q s1] eqn:Hc.
  assert (Hb : built r u s = (Request.WithContext (Request.Ctx r) q, s1))
    by (unfold built; now rewrite Hc).
  simpl in H. unfold call_Do, go_pointer in H.
  destruct (client_Do (Request.WithContext (Request.Ctx r) q) (hdrs s1))
    as [resp|e] eqn:Hd; simpl in H.
  2:{ inversion H; subst.
      exact (handled_backend_error w r s url u _ _ e Ht Hp Hb Hd). }
  rewrite write_back_run in H. simpl in H.
  destruct (ResponseWriter.Flusher w) eqn:Hf.
  2:{ inversion H; subst.
      exact (handled_no_flusher w r s url u _ _ resp Ht Hp Hb Hd Hf). }
  destruct (invalid_code (Response.StatusCode resp)) eqn:Hv.
  { inversion H; subst.
    exact (handled_unwritable w r s url u _ _ resp Ht Hp Hb Hd Hf Hv). }
  destruct (relay fuel w resp _) as [[t2 x2] s2] eqn:Hr.
  apply relay_relays in Hr.
  pose proof (handled_relayed w r s url u _ s1 resp t2 x2 s2 Ht Hp Hb Hd Hf Hr Hv) as X.
  destruct x2 as [[]|x2]; inversion H; subst; exact X.
Qed.


(** *** Facts about traces *)

Lemma flushed_tail (e : event) (t : list event) : flushed (e :: t) -> flushed t.
Proof. destruct e as [| | | | | | | | | | | | | | | | |d [er|]|]; simpl; tauto. Qed.

Lemma flushed_spec (t : list event) :
  flushed t ->
  forall pre data post, t = pre ++ Write data None :: post -> exists post', post = Flush :: post'.
Proof.
  intros H pre. revert t H.
  induction pre as [|e pre IH]; intros t H data post ->.
  - simpl in H. tauto.
  - apply flushed_tail in H. eapply IH; eauto.
Qed.

Lemma quiet_flushed_app (a b : list event) :
  Forall (fun e => is_Write e = false) a -> flushed b -> flushed (a ++ b).
Proof.
  induction 1 as [|e a He _ IH]; intros Hb; [done|].
  destruct e; simpl in *; try discriminate; auto.
Qed.

Lemma chunked_spec (t : list event) :
  forall prev, chunked prev t ->
  forall pre data werr post, t = pre ++ Write data werr :: post ->
    0 < Z.of_nat (length data) <= bufSize /\
    ((pre = [] /\ exists rerr, prev = Some (BodyRead bufSize data rerr)) \/
     exists pre' rerr, pre = pre' ++ [BodyRead bufSize data rerr]).
Proof.
  intros prev H pre. revert t prev H.
  induction pre as [|e pre IH]; intros t prev H data werr post ->.
  - simpl in H. destruct H as [[Hp Hn] _]. split; [done|]. left. done.
  - simpl in H. destruct H as [_ H].
    destruct (IH _ _ H data werr post eq_refl) as [Hn [[-> [rerr Hr]]|[pre' [rerr ->]]]].
    + split; [done|]. right. exists [], rerr. inversion Hr; subst. done.
    + split; [done|]. right. exists (e :: pre'), rerr. done.
Qed.

Lemma quiet_chunked (t : list event) :
  Forall (fun e => is_Write e = false) t -> forall prev, chunked prev t.
Proof.
  induction 1 as [|e t He _ IH]; intros prev; simpl; [done|].
  split; [|apply IH]. destruct e; try done.
Qed.

Lemma quiet_chunked_app (a b : list event) :
  Forall (fun e => is_Write e = false) a ->
  (forall prev, chunked prev b) -> forall prev, chunked prev (a ++ b).
Proof.
  induction 1 as [|e a He _ IH]; intros Hb prev; simpl; [apply Hb|].
  split; [|apply IH, Hb]. destruct e; try done.
Qed.

(** *** Facts about the relay loop *)

Lemma relays_flushed (w : ResponseWriter.t) (resp : Response.t) s t x s' :
  relays w resp s t x s' -> forall rest, flushed rest -> flushed (t ++ rest).
Proof.
  induction 1 as [s|s data err Hb Hn|s data err e Hb Hn Hw|s data Hb Hd
                 |s data msg Hb Hd|s data t r s' Hb Hd Hr IH]; intros rest Hrest;
    simpl; auto; unfold delivery; destruct (0 <? Z.of_nat (length data));
    simpl; eauto.
Qed.

Lemma relays_chunked (w : ResponseWriter.t) (resp : Response.t) s t x s' :
  relays w resp s t x s' ->
  forall rest, (forall prev, chunked prev rest) -> forall prev, chunked prev (t ++ rest).
Proof.
  induction 1 as [s|s data err Hb Hn|s data err e Hb Hn Hw|s data Hb Hd
                 |s data msg Hb Hd|s data t r s' Hb Hd Hr IH]; intros rest Hrest prev;
    simpl; auto.
  - repeat split; eauto; lia.
  - destruct Hd as [Hd _]. unfold delivery.
    destruct (0 <? Z.of_nat (length data)) eqn:Hn; simpl; repeat split; eauto; lia.
  - destruct Hd as [Hd _]. unfold delivery.
    destruct (0 <? Z.of_nat (length data)) eqn:Hn; simpl; repeat split; eauto; lia.
  - destruct Hd as [Hd _]. unfold delivery.
    destruct (0 <? Z.of_nat (length data)) eqn:Hn; simpl; repeat split; eauto; lia.
Qed.

Lemma relays_events (w : ResponseWriter.t) (resp : Response.t) s t x s' :
  relays w resp s t x s' -> Forall relay_event t.
Proof.
  induction 1 as [s|s data err Hb Hn|s data err e Hb Hn Hw|s data Hb Hd
                 |s data msg Hb Hd|s data t r s' Hb Hd Hr IH];
    unfold delivery; try destruct (0 <? Z.of_nat (length data));
    simpl; repeat constructor; auto.
Qed.

Lemma relays_store (w : ResponseWriter.t) (resp : Response.t) s t x s' :
  relays w resp s t x s' -> hdrs s' = hdrs s /\ wh s' = wh s.
Proof.
  induction 1 as [s|s data err Hb Hn|s data err e Hb Hn Hw|s data Hb Hd
                 |s data msg Hb Hd|s data t r s' Hb Hd Hr IH]; simpl; auto.
Qed.

Lemma adds_events (P : event -> Prop) (l : list (string * list string)) :
  (forall k v, P (HeaderAdd k v)) -> Forall P (adds l).
Proof.
  intros HP. unfold adds. induction l as [|[k vs] l IH]; simpl; [constructor|].
  apply Forall_app. split; [|done].
  induction vs; simpl; constructor; auto.
Qed.

Lemma closing_quiet (resp : Response.t) (x : unit + exit) :
  Forall (fun e => is_Write e = false) (closing resp x).
Proof. destruct x as [|[| |]]; simpl; repeat constructor. Qed.

(** *** Facts about the handler *)

Lemma before_body_quiet (t : list event) :
  Forall before_body t -> Forall (fun e => is_Write e = false) t.
Proof. apply List.Forall_impl. intros e. destruct e; simpl; tauto. Qed.

Lemma sending_before_body (r : Request.t) (url : string) (out : Request.t) :
  Forall before_body (sending r url out).
Proof. repeat constructor. Qed.

(** A run of the handler is a head without body events, followed by
    nothing, or by the runs of the relay loop and what closes them. *)
Lemma handled_split w r s ready t x s' :
  handled w r s ready t x s' ->
  exists head tail,
    t = head ++ tail /\ Forall before_body head /\
    (tail = [] \/ tail = [BodyClose] \/
     exists resp s1 tr xr,
       relays w resp s1 tr xr s' /\ tail = tr ++ closing resp xr /\ x = exit_of xr).
Proof.
  intros H.
  destruct H as [|e Ht|url e Ht Hp|url u out s1 e Ht Hp Hb Hd
                |url u out s1 resp Ht Hp Hb Hd Hf
                |url u out s1 resp t x s2 Ht Hp Hb Hd Hf Hr Hv
                |url u out s1 resp Ht Hp Hb Hd Hf Hv].
  - eexists _, []. rewrite app_nil_r. split; [done|]. split; [repeat constructor | tauto].
  - eexists _, []. rewrite app_nil_r. split; [done|]. split; [repeat constructor | tauto].
  - eexists _, []. rewrite app_nil_r. split; [done|]. split; [repeat constructor | tauto].
  - eexists _, []. rewrite app_nil_r. split; [done|]. split; [|tauto].
    apply Forall_app. split; [apply sending_before_body | repeat constructor].
  - exists (sending r url out ++ ClientDo out (Some resp) None ::
            adds (range_order (Response.Header resp)) ++
            [WriteHeader (Response.StatusCode resp)
               (copied (wh s1) (range_order (Response.Header resp)));
             Log ERROR [AStr "Flushing not supported! Aborting writing response"]]),
           [BodyClose].
    split.
    { rewrite <- !app_assoc. simpl. rewrite <- !app_assoc. reflexivity. }
    split; [|tauto].
    apply Forall_app. split; [apply sending_before_body|].
    constructor; [done|]. apply Forall_app. split; [|repeat constructor].
    apply adds_events. done.
  - exists (sending r url out ++ ClientDo out (Some resp) None ::
            adds (range_order (Response.Header resp)) ++
            [WriteHeader (Response.StatusCode resp)
               (copied (wh s1) (range_order (Response.Header resp)))]),
           (t ++ closing resp x).
    split.
    { rewrite <- !app_assoc. simpl. rewrite <- !app_assoc. reflexivity. }
    split.
    { apply Forall_app. split; [apply sending_before_body|].
      constructor; [done|]. apply Forall_app. split; [|repeat constructor].
      apply adds_events. done. }
    right. right. eauto 10.
  - exists (sending r url out ++ ClientDo out (Some resp) None ::
            adds (range_order (Response.Header resp))),
           [BodyClose].
    split.
    { rewrite <- !app_assoc. reflexivity. }
    split; [|tauto].
    apply Forall_app. split; [apply sending_before_body|].
    constructor; [done|]. apply adds_events. done.
Qed.

Lemma no_Do_In (t : list event) q resp err :
  Forall (fun e => is_ClientDo e = false) t -> ~ In (ClientDo q resp err) t.
Proof.
  intros H Hin. rewrite List.Forall_forall in H. apply H in Hin. discriminate.
Qed.

Lemma sent_app (a b : list event) :
  Forall (fun e => is_ClientDo e = false) a -> sent (a ++ b) = sent b.
Proof.
  induction 1 as [|e a He _ IH]; simpl; [done|].
  destruct e; try discriminate; exact IH.
Qed.

Lemma before_body_no_Do (t : list event) :
  Forall relay_event t -> Forall (fun e => is_ClientDo e = false) t.
Proof. apply List.Forall_impl. intros []; simpl; tauto. Qed.

Lemma sending_no_Do (r : Request.t) (url : string) (out : Request.t) :
  Forall (fun e => is_ClientDo e = false) (sending r url out).
Proof. repeat constructor. Qed.

Lemma closing_no_Do (resp : Response.t) (x : unit + exit) :
  Forall (fun e => is_ClientDo e = false) (closing resp x).
Proof. destruct x as [|[| |]]; simpl; repeat constructor. Qed.

Lemma parsed_inl (method url : string) (u : URL.t) :
  parsed method url = inl u ->
  validMethod (method_or_GET method) = true /\ url_Parse url = inl u.
Proof.
  unfold parsed. destruct (validMethod _); simpl; [tauto | discriminate].
Qed.

Lemma fresh_loc_allocated (s : store) (h : Header) (l : loc) :
  is_Some (hdrs s !! l) -> l <> fresh_loc s /\ hdrs (allocated s h) !! l = hdrs s !! l.
Proof.
  intros Hl.
  assert (Hne : l <> fresh_loc s).
  { intros ->. apply elem_of_dom in Hl. exact (is_fresh (dom (hdrs s)) Hl). }
  split; [exact Hne|]. unfold allocated; simpl. now rewrite lookup_insert_ne.
Qed.

(** What [built] says about the outbound request. *)
Lemma built_fields (r : Request.t) (u : URL.t) (s : store) (out : Request.t) (s1 : store) :
  built r u s = (out, s1) ->
  Request.Method out = method_or_GET (Request.Method r) /\
  Request.URL out = URL.mk (URL.Scheme u) (removeEmptyPort (URL.Host u)) (URL.Path u)
                           (URL.RawQuery u) /\
  Request.Proto out = Request.Proto r /\
  Request.ProtoMajor out = Request.ProtoMajor r /\
  Request.ProtoMinor out = Request.ProtoMinor r /\
  Request.TransferEncoding out = Request.TransferEncoding r /\
  Request.ContentLength out = Request.ContentLength r /\
  Request.Body out = Request.Body r /\
  Request.Ctx out = Request.Ctx r /\
  wh s1 = wh s.
Proof.
  unfold built, constructed, cloned.
  destruct (Request.Header r); intros H; inversion H; subst; simpl; tauto.
Qed.

(** The header map of the outbound request is a copy at a new location. *)
Lemma built_header (r : Request.t) (u : URL.t) (s : store) (out : Request.t) (s1 : store) :
  built r u s = (out, s1) ->
  match Request.Header r with
  | None => Request.Header out = None
  | Some l =>
      is_Some (hdrs s !! l) ->
      exists l', Request.Header out = Some l' /\ l' <> l /\
                 hdrs s1 !! l' = hdrs s !! l /\
                 hdrs s1 !! l = hdrs s !! l
  end.
Proof.
  unfold built, constructed, cloned.
  destruct (Request.Header r) as [l|]; intros H; inversion H; subst; simpl; [|done].
  intros Hl.
  destruct (fresh_loc_allocated s ∅ l Hl) as [Hne0 Hl0].
  assert (Hl1 : is_Some (hdrs (allocated s ∅) !! l)) by now rewrite Hl0.
  destruct (fresh_loc_allocated (allocated s ∅) (default ∅ (hdrs (allocated s ∅) !! l)) l Hl1)
    as [Hne1 Hl2].
  exists (fresh_loc (allocated s ∅)). split; [done|]. split; [done|].
  split.
  - rewrite lookup_insert_eq, lookup_insert_ne by congruence.
    destruct Hl as [h Hh]. now rewrite Hh.
  - now rewrite !lookup_insert_ne by congruence.
Qed.

(** The request of [client.Do] in a run, and the store the run ends in. *)
Lemma handled_sent w r s ready t x s' :
  handled w r s ready t x s' ->
  match sent t with
  | None => Forall (fun e => is_ClientDo e = false) t
  | Some out =>
      exists url u s1,
        ready = true /\ target r = inl url /\ parsed (Request.Method r) url = inl u /\
        built r u s = (out, s1) /\ hdrs s' = hdrs s1
  end.
Proof.
  intros H.
  destruct H as [|e Ht|url e Ht Hp|url u out s1 e Ht Hp Hb Hd
                |url u out s1 resp Ht Hp Hb Hd Hf
                |url u out s1 resp t x s2 Ht Hp Hb Hd Hf Hr Hv
                |url u out s1 resp Ht Hp Hb Hd Hf Hv].
  - simpl. repeat constructor.
  - simpl. repeat constructor.
  - simpl. repeat constructor.
  - rewrite sent_app by apply sending_no_Do. simpl. eauto 10.
  - rewrite sent_app by apply sending_no_Do. simpl. eauto 10.
  - rewrite sent_app by apply sending_no_Do. simpl.
    apply relays_store in Hr. destruct Hr as [Hr _]. eauto 10.
  - rewrite sent_app by apply sending_no_Do. simpl. eauto 10.
Qed.

(** A run that got a response from the backend. *)
Lemma handled_responded w r s ready t x s' out resp :
  handled w r s ready t x s' ->
  In (ClientDo out (Some resp) None) t ->
  invalid_code (Response.StatusCode resp) && ResponseWriter.Flusher w = false ->
  exists url tail,
    t = sending r url out ++ ClientDo out (Some resp) None ::
        adds (range_order (Response.Header resp)) ++
        WriteHeader (Response.StatusCode resp)
                    (copied (wh s) (range_order (Response.Header resp))) :: tail /\
    (exists u s1, target r = inl url /\ parsed (Request.Method r) url = inl u /\
                  built r u s = (out, s1) /\ client_Do out (hdrs s1) = inl resp) /\
    (ResponseWriter.Flusher w = false /\ x = Returned /\
     tail = [Log ERROR [AStr "Flushing not supported! Aborting writing response"];
             BodyClose]
     \/
     ResponseWriter.Flusher w = true /\
     exists s1 tr xr, relays w resp s1 tr xr s' /\ tail = tr ++ closing resp xr /\
                      x = exit_of xr).
Proof.
  intros H Hin Hvalid.
  destruct H as [|e Ht|url e Ht Hp|url u out' s1 e Ht Hp Hb Hd
                |url u out' s1 resp' Ht Hp Hb Hd Hf
                |url u out' s1 resp' t x s2 Ht Hp Hb Hd Hf Hr Hv
                |url u out' s1 resp' Ht Hp Hb Hd Hf Hv].
  - simpl in Hin. intuition discriminate.
  - simpl in Hin. intuition discriminate.
  - simpl in Hin. intuition discriminate.
  - apply in_app_or in Hin. destruct Hin as [Hin|Hin].
    + now apply no_Do_In in Hin; [|apply sending_no_Do].
    + simpl in Hin. intuition discriminate.
  - destruct (built_fields _ _ _ _ _ Hb) as (_ & _ & _ & _ & _ & _ & _ & _ & _ & Hwh).
    rewrite Hwh.
    apply in_app_or in Hin. destruct Hin as [Hin|[Hin|Hin]].
    + now apply no_Do_In in Hin; [|apply sending_no_Do].
    + inversion Hin; subst. exists url. eexists. split; [reflexivity|].
      split; [eauto 10|]. left. done.
    + exfalso. apply in_app_or in Hin. destruct Hin as [Hin|Hin].
      * revert Hin. apply no_Do_In, adds_events. done.
      * simpl in Hin. intuition discriminate.
  - destruct (built_fields _ _ _ _ _ Hb) as (_ & _ & _ & _ & _ & _ & _ & _ & _ & Hwh).
    rewrite Hwh.
    apply in_app_or in Hin. destruct Hin as [Hin|[Hin|Hin]].
    + now apply no_Do_In in Hin; [|apply sending_no_Do].
    + inversion Hin; subst. exists url. eexists. split; [reflexivity|].
      split; [eauto 10|]. right. split; [done|]. eauto 10.
    + exfalso. apply in_app_or in Hin. destruct Hin as [Hin|[Hin|Hin]].
      * revert Hin. apply no_Do_In, adds_events. done.
      * discriminate.
      * apply in_app_or in Hin. destruct Hin as [Hin|Hin].
        -- revert Hin. apply no_Do_In, before_body_no_Do. eapply relays_events; eauto.
        -- revert Hin. apply no_Do_In, closing_no_Do.
  - exfalso. apply in_app_or in Hin. destruct Hin as [Hin|[Hin|Hin]].
    + now apply no_Do_In in Hin; [|apply sending_no_Do].
    + inversion Hin; subst. rewrite Hv, Hf in Hvalid. discriminate.
    + apply in_app_or in Hin. destruct Hin as [Hin|Hin].
      * revert Hin. apply no_Do_In, adds_events. done.
      * simpl in Hin. intuition discriminate.
Qed.

(** The run in which [WriteHeader] refuses the status of the response. *)
Lemma handled_refused w r s ready t x s' out resp :
  handled w r s ready t x s' ->
  In (ClientDo out (Some resp) None) t ->
  invalid_code (Response.StatusCode resp) && ResponseWriter.Flusher w = true ->
  exists url,
    t = sending r url out ++ ClientDo out (Some resp) None ::
        adds (range_order (Response.Header resp)) ++ [BodyClose] /\
    x = Panicked (invalid_WriteHeader_code (Response.StatusCode resp)) /\
    (exists u s1, target r = inl url /\ parsed (Request.Method r) url = inl u /\
                  built r u s = (out, s1) /\ client_Do out (hdrs s1) = inl resp).
Proof.
  intros H Hin Hrefused. apply andb_true_iff in Hrefused. destruct Hrefused as [Hi Hfl].
  destruct H as [|e Ht|url e Ht Hp|url u out' s1 e Ht Hp Hb Hd
                |url u out' s1 resp' Ht Hp Hb Hd Hf
                |url u out' s1 resp' t x s2 Ht Hp Hb Hd Hf Hr Hv
                |url u out' s1 resp' Ht Hp Hb Hd Hf Hv].
  - simpl in Hin. intuition discriminate.
  - simpl in Hin. intuition discriminate.
  - simpl in Hin. intuition discriminate.
  - apply in_app_or in Hin. destruct Hin as [Hin|Hin].
    + now apply no_Do_In in Hin; [|apply sending_no_Do].
    + simpl in Hin. intuition discriminate.
  - congruence.
  - exfalso. apply in_app_or in Hin. destruct Hin as [Hin|[Hin|Hin]].
    + now apply no_Do_In in Hin; [|apply sending_no_Do].
    + inversion Hin; subst. congruence.
    + apply in_app_or in Hin. destruct Hin as [Hin|[Hin|Hin]].
      * revert Hin. apply no_Do_In, adds_events. done.
      * discriminate.
      * apply in_app_or in Hin. destruct Hin as [Hin|Hin].
        -- revert Hin. apply no_Do_In, before_body_no_Do. eapply relays_events; eauto.
        -- revert Hin. apply no_Do_In, closing_no_Do.
  - apply in_app_or in Hin. destruct Hin as [Hin|[Hin|Hin]].
    + now apply no_Do_In in Hin; [|apply sending_no_Do].
    + inversion Hin; subst. exists url. split; [reflexivity|]. split; [reflexivity|].
      eauto 10.
    + exfalso. apply in_app_or in Hin. destruct Hin as [Hin|Hin].
      * revert Hin. apply no_Do_In, adds_events. done.
      * simpl in Hin. intuition discriminate.
Qed.

(** *** Facts about the copied headers *)

Lemma values_Add (h : Header) (key v k : string) :
  values k (Header_Add h key v) =
    if decide (k = CanonicalMIMEHeaderKey key) then values k h ++ [v] else values k h.
Proof.
  unfold Header_Add, values. destruct (decide (k = CanonicalMIMEHeaderKey key)) as [->|Hne].
  - now rewrite lookup_insert_eq.
  - now rewrite lookup_insert_ne by congruence.
Qed.

Lemma values_copy_values (key : string) (vs : list string) (k : string) :
  forall h,
    values k (copy_values h (key, vs)) =
      if decide (k = CanonicalMIMEHeaderKey key) then values k h ++ vs else values k h.
Proof.
  unfold copy_values; simpl.
  induction vs as [|v vs IH]; intros h; simpl.
  - destruct (decide _); [now rewrite app_nil_r | done].
  - rewrite IH, values_Add. destruct (decide _); [now rewrite <- app_assoc | done].
Qed.

Lemma values_insert (m : Header) (key : string) (vs : list string) (k : string) :
  values k (<[key := vs]> m) = if decide (k = key) then vs else values k m.
Proof.
  unfold values. destruct (decide (k = key)) as [->|Hne].
  - now rewrite lookup_insert_eq.
  - now rewrite lookup_insert_ne by congruence.
Qed.

Lemma values_copied (l : list (string * list string)) :
  NoDup (l.*1) ->
  (forall key vs, (key, vs) ∈ l -> CanonicalMIMEHeaderKey key = key) ->
  forall h k, values k (copied h l) = values k h ++ values k (list_to_map l).
Proof.
  induction l as [|[key vs] l IH]; intros Hnd Hc h k.
  - simpl. unfold values at 3. rewrite lookup_empty. simpl. now rewrite app_nil_r.
  - simpl in Hnd. apply NoDup_cons in Hnd. destruct Hnd as [Hnotin Hnd].
    change (copied h ((key, vs) :: l)) with (copied (copy_values h (key, vs)) l).
    change (list_to_map ((key, vs) :: l) : Header)
      with (<[key := vs]> (list_to_map l : Header)).
    rewrite IH; [|done|intros; eapply Hc; right; eauto].
    rewrite values_copy_values, values_insert.
    rewrite (Hc key vs) by left.
    destruct (decide (k = key)) as [->|Hne]; [|done].
    assert (Hnone : values key (list_to_map l : Header) = []).
    { unfold values. now rewrite not_elem_of_list_to_map_1 by done. }
    rewrite Hnone. now rewrite app_nil_r.
Qed.

(** When the [range] visits every entry once and the keys are in
    canonical form, copying the map [m] into [h] appends the values of
    every key. *)
Lemma values_copied_map (m h : Header) (k : string) :
  range_order m ≡ₚ map_to_list m ->
  (forall key, is_Some (m !! key) -> CanonicalMIMEHeaderKey key = key) ->
  values k (copied h (range_order m)) = values k h ++ values k m.
Proof.
  intros Hperm Hc.
  assert (Hnd : NoDup ((range_order m).*1)).
  { rewrite Hperm. apply NoDup_fst_map_to_list. }
  rewrite values_copied; [|done|].
  - rewrite (list_to_map_proper _ _ Hnd Hperm), list_to_map_to_list. done.
  - intros key vs Hin. apply Hc. exists vs.
    rewrite Hperm in Hin. now apply elem_of_map_to_list in Hin.
Qed.

(** *** The runs that end before the backend is contacted *)

Lemma api_v1_join_error (fuel : nat) (w : ResponseWriter.t) (r : Request.t) (s : store)
    (e : error) :
  target r = inr e ->
  run (api_v1 true fuel w r) s =
    (joining r ++
     [Log ERROR [AErr (Some e); AStr "Failed to join URL"];
      HttpError ("Failed to join URL: " +:+ error_msg e) StatusInternalServerError],
     Returned, s).
Proof.
  intros Ht. unfold run, api_v1. unfold mbind, M_bind, bind. simpl.
  rewrite outbound_request_run, Ht. reflexivity.
Qed.

Lemma api_v1_request_error (fuel : nat) (w : ResponseWriter.t) (r : Request.t) (s : store)
    (url : string) (e : error) :
  target r = inl url ->
  parsed (Request.Method r) url = inr e ->
  run (api_v1 true fuel w r) s =
    (joining r ++ [NewRequest (Request.Method r) url (Request.Body r)],
     Panicked nil_dereference, s).
Proof.
  intros Ht Hp. unfold run, api_v1. unfold mbind, M_bind, bind. simpl.
  rewrite outbound_request_run, Ht, Hp. reflexivity.
Qed.

(** *** The chunks: every one is read, written and flushed *)

Lemma reads_app (a b : list event) : reads (a ++ b) = reads a ++ reads b.
Proof.
  induction a as [|e a IH]; [reflexivity|].
  destruct e; simpl; rewrite IH; reflexivity.
Qed.

Lemma reads_quiet (t : list event) :
  Forall (fun e => is_BodyRead e = false) t -> reads t = [].
Proof.
  induction 1 as [|e t He _ IH]; [reflexivity|].
  destruct e; simpl in *; try discriminate; exact IH.
Qed.

Lemma written_tail (e : event) (t : list event) : written (e :: t) -> written t.
Proof. destruct e; simpl; tauto. Qed.

Lemma written_spec (t : list event) :
  written t ->
  forall pre size data rerr post,
    t = pre ++ BodyRead size data rerr :: post ->
    0 < Z.of_nat (length data) <= bufSize ->
    exists werr post', post = Write data werr :: post'.
Proof.
  intros H pre. revert t H.
  induction pre as [|e pre IH]; intros t H size data rerr post -> Hn.
  - simpl in H. destruct H as [H _]. exact (H Hn).
  - apply written_tail in H. eapply IH; eauto.
Qed.

Lemma quiet_written_app (a b : list event) :
  Forall (fun e => is_BodyRead e = false) a -> written b -> written (a ++ b).
Proof.
  induction 1 as [|e a He _ IH]; intros Hb; [done|].
  destruct e; simpl in *; try discriminate; auto.
Qed.

Lemma quiet_written (t : list event) :
  Forall (fun e => is_BodyRead e = false) t -> written t.
Proof. intros H. rewrite <- (app_nil_r t). now apply quiet_written_app. Qed.

Lemma written_delivery (data : list byte) (rest : list event) :
  written rest ->
  (0 < Z.of_nat (length data) <= bufSize ->
   exists werr t'', delivery data ++ rest = Write data werr :: t'') /\
  written (delivery data ++ rest).
Proof.
  intros Hrest. unfold delivery.
  destruct (0 <? Z.of_nat (length data)) eqn:Hn; simpl.
  - split; [eauto | exact Hrest].
  - split; [intros []; lia | exact Hrest].
Qed.

Lemma relays_written (w : ResponseWriter.t) (resp : Response.t) s t x s' :
  relays w resp s t x s' -> forall rest, written rest -> written (t ++ rest).
Proof.
  induction 1 as [s|s data err Hb Hn|s data err e Hb Hn Hw|s data Hb Hd
                 |s data msg Hb Hd|s data t r s' Hb Hd Hr IH]; intros rest Hrest.
  - exact Hrest.
  - simpl. split; [intros []; lia | exact Hrest].
  - simpl. split; [eauto | exact Hrest].
  - simpl. exact (written_delivery data rest Hrest).
  - simpl. rewrite <- app_assoc.
    apply (written_delivery data). simpl. exact Hrest.
  - simpl. rewrite <- app_assoc. apply (written_delivery data). now apply IH.
Qed.

(** The loop reads as long as the stream goes on: when the client takes
    every write, and the first [k] reads return no error and no more
    than the buffer holds, the loop makes the read after them, if the
    fuel reaches that far. *)
Lemma relay_progress (w : ResponseWriter.t) (resp : Response.t) :
  (forall j, ResponseWriter.WriteErr w j = None) ->
  forall fuel s k t x s',
    relay fuel w resp s = (t, x, s') ->
    (k < fuel)%nat ->
    (forall j, (j < k)%nat ->
       snd (Response.Body resp (nreads s + j)) = None /\
       Z.of_nat (length (fst (Response.Body resp (nreads s + j)))) <= bufSize) ->
    nth_error (reads t) k = Some (Response.Body resp (nreads s + k)).
Proof.
  intros Hw. induction fuel as [|fuel IH]; intros s k t x s' H Hk Hok; [lia|].
  simpl in H. unfold mbind, M_bind, bind, Body_Read in H.
  destruct (Response.Body resp (nreads s)) as [data err] eqn:Hb.
  destruct k as [|k].
  { rewrite Nat.add_0_r, Hb.
    destruct (0 <? Z.of_nat (length data)); simpl in H.
    - destruct (bufSize <? Z.of_nat (length data)); simpl in H;
        [inversion H; reflexivity|].
      unfold w_Write in H; simpl in H.
      destruct (ResponseWriter.WriteErr w (nwrites s)); simpl in H;
        [inversion H; reflexivity|].
      destruct err as [[|msg]|]; simpl in H; try (inversion H; reflexivity).
      destruct (relay fuel w resp _) as [[t2 r2] s2]. inversion H; reflexivity.
    - destruct err as [[|msg]|]; simpl in H; try (inversion H; reflexivity).
      destruct (relay fuel w resp _) as [[t2 r2] s2]. inversion H; reflexivity. }
  destruct (Hok 0%nat ltac:(lia)) as [Herr Hlen].
  rewrite Nat.add_0_r, Hb in Herr, Hlen. simpl in Herr, Hlen. subst err.
  assert (Hnext : forall s1 t2 r2 s2,
             nreads s1 = S (nreads s) ->
             relay fuel w resp s1 = (t2, r2, s2) ->
             nth_error (reads t2) k = Some (Response.Body resp (nreads s + S k))).
  { intros s1 t2 r2 s2 Hs1 Hr.
    replace (nreads s + S k)%nat with (nreads s1 + k)%nat by lia.
    apply (IH s1 k t2 r2 s2 Hr); [lia|].
    intros j Hj. replace (nreads s1 + j)%nat with (nreads s + S j)%nat by lia.
    apply Hok. lia. }
  destruct (0 <? Z.of_nat (length data)); simpl in H.
  - assert (Hfit : (bufSize <? Z.of_nat (length data)) = false) by (apply Z.ltb_ge; lia).
    rewrite Hfit in H. simpl in H.
    unfold w_Write in H; simpl in H. rewrite Hw in H. simpl in H.
    destruct (relay fuel w resp _) as [[t2 r2] s2] eqn:Hr.
    inversion H; subst. simpl. eapply Hnext; [|exact Hr]. reflexivity.
  - destruct (relay fuel w resp _) as [[t2 r2] s2] eqn:Hr.
    inversion H; subst. simpl. eapply Hnext; [|exact Hr]. reflexivity.
Qed.

(** The events of the handler when the backend answers with a status
    that can be written and the writer can flush. *)
Lemma api_v1_relayed_events (fuel : nat) (w : ResponseWriter.t) (r : Request.t) (s : store)
    (url : string) (u : URL.t) (out : Request.t) (s1 : store) (resp : Response.t) :
  target r = inl url ->
  parsed (Request.Method r) url = inl u ->
  built r u s = (out, s1) ->
  client_Do out (hdrs s1) = inl resp ->
  ResponseWriter.Flusher w = true ->
  invalid_code (Response.StatusCode resp) = false ->
  reads (events_of (run (api_v1 true fuel w r) s)) =
    reads (relay fuel w resp
             (with_wh s1 (copied (wh s1) (range_order (Response.Header resp))))).1.1.
Proof.
  intros Ht Hp Hb Hd Hf Hv.
  unfold run, api_v1. unfold mbind, M_bind, bind. simpl.
  rewrite outbound_request_run, Ht, Hp.
  unfold built in Hb. destruct (constructed r u s) as [q s1'] eqn:Hc.
  inversion Hb; subst out s1'; clear Hb. simpl.
  unfold call_Do. rewrite Hd. simpl.
  rewrite write_back_run, Hf, Hv. simpl.
  assert (Hadds : reads (adds (range_order (Response.Header resp))) = []).
  { apply reads_quiet, adds_events. done. }
  destruct (relay fuel w resp _) as [[t2 [[]|[| |]]] s2]; unfold events_of; simpl;
    rewrite reads_app, Hadds; simpl; rewrite ?reads_app; simpl;
    rewrite ?app_nil_r; reflexivity.
Qed.

(** ** The claims *)

(** C1. The relay loop reads the backend body in chunks of 4096 bytes;
    every successful write to the client is followed at once by a flush,
    before the next read; every write carries the bytes of the one read
    just before it; every read of a chunk is followed at once by the
    write of its bytes; and the loop goes on reading while the stream
    goes on: when the client takes every write and the first [k] reads
    return no error, the loop makes the next read, the fuel permitting.
    So every chunk is read, written and flushed before the chunk after
    it is asked for, and no chunk waits for a later one. *)
Theorem flush_per_chunk (ready : bool) (fuel : nat) (w : ResponseWriter.t)
    (r : Request.t) (s : store) :
  let t := events_of (run (api_v1 ready fuel w r) s) in
  (forall size data err, In (BodyRead size data err) t -> size = 4096) /\
  (forall pre data post,
      t = pre ++ Write data None :: post -> exists post', post = Flush :: post') /\
  (forall pre data werr post,
      t = pre ++ Write data werr :: post ->
      0 < Z.of_nat (length data) <= 4096 /\
      exists pre' rerr, pre = pre' ++ [BodyRead 4096 data rerr]) /\
  (forall pre size data rerr post,
      t = pre ++ BodyRead size data rerr :: post ->
      0 < Z.of_nat (length data) <= 4096 ->
      exists werr post', post = Write data werr :: post') /\
  (forall out resp k,
      In (ClientDo out (Some resp) None) t ->
      ResponseWriter.Flusher w = true ->
      invalid_code (Response.StatusCode resp) = false ->
      (forall j, ResponseWriter.WriteErr w j = None) ->
      (k < fuel)%nat ->
      (forall j, (j < k)%nat ->
         snd (Response.Body resp (nreads s + j)) = None /\
         Z.of_nat (length (fst (Response.Body resp (nreads s + j)))) <= 4096) ->
      nth_error (reads t) k = Some (Response.Body resp (nreads s + k))).
Proof.
  intros t. subst t.
  assert (Hprogress :
            forall out resp k,
              In (ClientDo out (Some resp) None)
                 (events_of (run (api_v1 ready fuel w r) s)) ->
              ResponseWriter.Flusher w = true ->
              invalid_code (Response.StatusCode resp) = false ->
              (forall j, ResponseWriter.WriteErr w j = None) ->
              (k < fuel)%nat ->
              (forall j, (j < k)%nat ->
                 snd (Response.Body resp (nreads s + j)) = None /\
                 Z.of_nat (length (fst (Response.Body resp (nreads s + j)))) <= 4096) ->
              nth_error (reads (events_of (run (api_v1 ready fuel w r) s))) k
              = Some (Response.Body resp (nreads s + k))).
  { intros out resp k Hin Hf Hv Hw Hk Hok.
    destruct ready; [|exfalso; simpl in Hin; intuition discriminate].
    destruct (run (api_v1 true fuel w r) s) as [[t x] s'] eqn:Hrun.
    pose proof Hrun as Hh. apply api_handled in Hh.
    assert (Hcode : invalid_code (Response.StatusCode resp) && ResponseWriter.Flusher w
                    = false) by now rewrite Hv.
    destruct (handled_responded _ _ _ _ _ _ _ _ _ Hh Hin Hcode)
      as (url & tail & _ & (u & s1 & Ht & Hp & Hb & Hd) & _).
    rewrite <- Hrun.
    rewrite (api_v1_relayed_events fuel w r s url u out s1 resp Ht Hp Hb Hd Hf Hv).
    assert (Hn : nreads (with_wh s1 (copied (wh s1) (range_order (Response.Header resp))))
                 = nreads s).
    { unfold built, constructed, cloned in Hb.
      destruct (Request.Header r); inversion Hb; subst; reflexivity. }
    rewrite <- Hn.
    destruct (relay fuel w resp _) as [[t2 x2] s2] eqn:Hr.
    apply (relay_progress w resp Hw fuel _ k t2 x2 s2 Hr Hk).
    rewrite Hn. exact Hok. }
  destruct (run (api_v1 ready fuel w r) s) as [[t x] s'] eqn:H.
  apply api_handled, handled_split in H.
  destruct H as (head & tail & -> & Hh & Ht). unfold events_of in *; simpl in *.
  assert (Hq : Forall (fun e => is_Write e = false) head) by now apply before_body_quiet.
  assert (Hqr : Forall (fun e => is_BodyRead e = false) head).
  { eapply List.Forall_impl; [|exact Hh]. intros []; simpl; tauto. }
  assert (Hev : Forall (fun e => match e with
                                 | BodyRead size _ _ => size = bufSize
                                 | _ => True
                                 end) (head ++ tail)).
  { apply Forall_app. split.
    { eapply List.Forall_impl; [|exact Hh]. intros []; simpl; tauto. }
    destruct Ht as [->|[->|(resp & s1 & tr & xr & Hr & -> & _)]].
    - constructor.
    - repeat constructor.
    - apply Forall_app. split.
      + eapply List.Forall_impl; [|exact (relays_events _ _ _ _ _ _ Hr)].
        intros []; simpl; tauto.
      + destruct xr as [|[| |]]; simpl; repeat constructor. }
  assert (Hfl : flushed (head ++ tail) /\ (forall prev, chunked prev (head ++ tail)) /\
                written (head ++ tail)).
  { destruct Ht as [->|[->|(resp & s1 & tr & xr & Hr & -> & _)]].
    - split; [apply quiet_flushed_app; simpl; auto|]. split.
      + apply quiet_chunked_app; [done|]. intros; exact I.
      + apply quiet_written_app; simpl; auto.
    - split; [apply quiet_flushed_app; simpl; auto|]. split.
      + apply quiet_chunked_app; [done|]. intros; simpl; tauto.
      + apply quiet_written_app; simpl; auto.
    - split; [|split].
      + apply quiet_flushed_app; [done|].
        eapply relays_flushed; [exact Hr|].
        destruct xr as [|[| |]]; simpl; auto.
      + apply quiet_chunked_app; [done|].
        eapply relays_chunked; [exact Hr|].
        apply quiet_chunked, closing_quiet.
      + apply quiet_written_app; [done|].
        eapply relays_written; [exact Hr|].
        destruct xr as [|[| |]]; simpl; auto. }
  destruct Hfl as (Hfl & Hch & Hwr). split; [|split; [|split; [|split]]].
  - intros size data err Hin.
    rewrite List.Forall_forall in Hev. exact (Hev _ Hin).
  - exact (flushed_spec _ Hfl).
  - intros pre data werr post Heq.
    destruct (chunked_spec _ None (Hch None) pre data werr post Heq)
      as [Hn [[_ [rerr Hr]]|Hp]]; [discriminate|]. split; [exact Hn | exact Hp].
  - exact (written_spec _ Hwr).
  - exact Hprogress.
Qed.

(** C2. While the readiness flag is false the handler answers 503 Service
    Unavailable and returns: it calls neither [url.JoinPath] nor
    [http.NewRequest], and the backend transport is not contacted. *)
Theorem not_ready_503 (fuel : nat) (w : ResponseWriter.t) (r : Request.t) (s : store) :
  run (api_v1 false fuel w r) s =
    (received r false ++ [WriteHeader StatusServiceUnavailable (wh s)], Returned, s) /\
  client_status (events_of (run (api_v1 false fuel w r) s)) = Some 503 /\
  Forall (fun e => is_JoinPath e = false /\ is_NewRequest e = false /\ is_ClientDo e = false)
         (events_of (run (api_v1 false fuel w r) s)).
Proof.
  split; [reflexivity|]. split; [reflexivity|]. repeat constructor.
Qed.

(** C3, on the code. When the construction of the outbound request
    fails, the backend transport is not contacted, as the claim says. But
    when it is [http.NewRequest] that fails (and on the base [http://]
    [url.JoinPath] does not fail, see [GoStdFacts.JoinPath_base]), the
    client receives no response at all, neither 502 nor the 500 of the
    error branch of line 130: the handler panics at line 123, before it
    reaches that branch. *)
Theorem construction_failure (fuel : nat) (w : ResponseWriter.t) (r : Request.t) (s : store) :
  construction_error r <> None ->
  Forall (fun e => is_ClientDo e = false) (events_of (run (api_v1 true fuel w r) s)) /\
  (forall url e,
      target r = inl url -> parsed (Request.Method r) url = inr e ->
      client_status (events_of (run (api_v1 true fuel w r) s)) = None /\
      Forall (fun e => match e with WriteHeader _ _ | HttpError _ _ => False | _ => True end)
             (events_of (run (api_v1 true fuel w r) s)) /\
      exit_of_run (run (api_v1 true fuel w r) s) = Panicked nil_dereference).
Proof.
  intros Hc. split.
  - destruct (run (api_v1 true fuel w r) s) as [[t x] s'] eqn:Hrun.
    apply api_handled, handled_sent in Hrun. unfold events_of; simpl.
    destruct (sent t) as [out|]; [|exact Hrun].
    destruct Hrun as (url & u & s1 & _ & Ht & Hp & _).
    exfalso. apply Hc. unfold construction_error. now rewrite Ht, Hp.
  - intros url e Ht Hp. rewrite (api_v1_request_error fuel w r s url e Ht Hp).
    unfold events_of, exit_of_run; simpl. repeat split; repeat constructor.
Qed.


(** C5, on the code. When [http.NewRequest] returns an error, and with it
    a nil request, the assignment to [request.Proto] panics: the handler
    writes no response and does not return. *)
Theorem nil_request_dereferenced (fuel : nat) (w : ResponseWriter.t) (r : Request.t)
    (s : store) (url : string) (e : error) :
  target r = inl url ->
  parsed (Request.Method r) url = inr e ->
  exit_of_run (run (api_v1 true fuel w r) s) = Panicked nil_dereference /\
  client_status (events_of (run (api_v1 true fuel w r) s)) = None /\
  Forall (fun e => match e with HttpError _ _ => False | _ => True end)
         (events_of (run (api_v1 true fuel w r) s)).
Proof.
  intros Ht Hp. rewrite (api_v1_request_error fuel w r s url e Ht Hp).
  unfold exit_of_run, events_of; simpl. repeat split; repeat constructor.
Qed.

(** C6. The request handed to [client.Do] has the method of the inbound
    request, its protocol version, transfer encodings, content length and
    body; its header map holds what the inbound header map holds but is
    another map, so that a later change of the inbound map does not reach
    it. *)
Theorem outbound_fidelity (fuel : nat) (w : ResponseWriter.t) (r : Request.t) (s : store)
    (out : Request.t) :
  sent (events_of (run (api_v1 true fuel w r) s)) = Some out ->
  Request.Method r <> "" ->
  (forall l, Request.Header r = Some l -> is_Some (hdrs s !! l)) ->
  Request.Method out = Request.Method r /\
  Request.Proto out = Request.Proto r /\
  Request.ProtoMajor out = Request.ProtoMajor r /\
  Request.ProtoMinor out = Request.ProtoMinor r /\
  Request.TransferEncoding out = Request.TransferEncoding r /\
  Request.ContentLength out = Request.ContentLength r /\
  Request.Body out = Request.Body r /\
  match Request.Header r with
  | None => Request.Header out = None
  | Some l =>
      exists l',
        Request.Header out = Some l' /\ l' <> l /\
        hdrs (store_of (run (api_v1 true fuel w r) s)) !! l' = hdrs s !! l /\
        forall h : Header,
          <[l := h]> (hdrs (store_of (run (api_v1 true fuel w r) s))) !! l'
          = hdrs s !! l
  end.
Proof.
  intros Hs Hm Hl.
  destruct (run (api_v1 true fuel w r) s) as [[t x] s'] eqn:Hrun.
  apply api_handled, handled_sent in Hrun. unfold events_of in Hs; simpl in Hs.
  rewrite Hs in Hrun. destruct Hrun as (url & u & s1 & _ & Ht & Hp & Hb & Hh).
  destruct (built_fields _ _ _ _ _ Hb) as (H1 & _ & H3 & H4 & H5 & H6 & H7 & H8 & _).
  unfold method_or_GET in H1. destruct (decide (Request.Method r = "")); [done|].
  repeat (split; [assumption|]).
  pose proof (built_header _ _ _ _ _ Hb) as Hhd.
  destruct (Request.Header r) as [l|]; [|exact Hhd].
  destruct (Hhd (Hl l eq_refl)) as (l' & Ho & Hne & Hc & _).
  exists l'. unfold store_of; simpl. rewrite Hh.
  repeat (split; [assumption|]).
  intros h. now rewrite lookup_insert_ne by congruence.
Qed.

(** C7. When the backend answers with a status that [WriteHeader]
    accepts, the handler passes every key and value of the response
    header to [w.Header().Add], then writes the header with the status
    code of the response, and writes no body byte before that; when the
    keys are in canonical form the header map the client receives holds,
    for every key, the values of the response after the values it held
    before. When the status is one that [WriteHeader] refuses (a code
    outside 100..999, on a writer of net/http) the response is not
    relayed: the handler passes the header to [w.Header().Add] and
    panics in [WriteHeader]; no status and no body byte reach the
    client, and the body is closed. *)
Theorem response_head_first (fuel : nat) (w : ResponseWriter.t) (r : Request.t) (s : store)
    (out : Request.t) (resp : Response.t) :
  In (ClientDo out (Some resp) None) (events_of (run (api_v1 true fuel w r) s)) ->
  (invalid_code (Response.StatusCode resp) && ResponseWriter.Flusher w = false ->
   exists pre snap post,
     events_of (run (api_v1 true fuel w r) s) =
       pre ++ adds (range_order (Response.Header resp)) ++
       WriteHeader (Response.StatusCode resp) snap :: post /\
     Forall (fun e => is_Write e = false)
            (pre ++ adds (range_order (Response.Header resp))) /\
     Forall (fun e => match e with WriteHeader _ _ | HttpError _ _ => False | _ => True end)
            (pre ++ adds (range_order (Response.Header resp)) ++ post) /\
     snap = copied (wh s) (range_order (Response.Header resp)) /\
     (range_order (Response.Header resp) ≡ₚ map_to_list (Response.Header resp) ->
      (forall key, is_Some (Response.Header resp !! key) ->
                   CanonicalMIMEHeaderKey key = key) ->
      forall k, values k snap = values k (wh s) ++ values k (Response.Header resp))) /\
  (invalid_code (Response.StatusCode resp) && ResponseWriter.Flusher w = true ->
   exists pre,
     events_of (run (api_v1 true fuel w r) s) =
       pre ++ adds (range_order (Response.Header resp)) ++ [BodyClose] /\
     Forall (fun e => match e with
                      | WriteHeader _ _ | HttpError _ _ | Write _ _ => False
                      | _ => True
                      end)
            (events_of (run (api_v1 true fuel w r) s)) /\
     exit_of_run (run (api_v1 true fuel w r) s)
     = Panicked (invalid_WriteHeader_code (Response.StatusCode resp))).
Proof.
  intros Hin.
  destruct (run (api_v1 true fuel w r) s) as [[t x] s'] eqn:Hrun.
  apply api_handled in Hrun. unfold events_of, exit_of_run in *; simpl in *.
  split; intros Hcode.
  - destruct (handled_responded _ _ _ _ _ _ _ _ _ Hrun Hin Hcode)
      as (url & tail & -> & _ & Htail).
    exists (sending r url out ++ [ClientDo out (Some resp) None]),
           (copied (wh s) (range_order (Response.Header resp))), tail.
    split; [now rewrite <- app_assoc|]. split; [|split; [|split; [reflexivity|]]].
    + apply Forall_app. split; [repeat constructor|]. apply adds_events. done.
    + apply Forall_app. split; [repeat constructor|].
      apply Forall_app. split; [apply adds_events; done|].
      destruct Htail as [(_ & _ & ->)|(_ & s1 & tr & xr & Hr & -> & _)].
      * repeat constructor.
      * apply Forall_app. split.
        -- eapply List.Forall_impl; [|exact (relays_events _ _ _ _ _ _ Hr)].
           intros []; simpl; tauto.
        -- destruct xr as [|[| |]]; simpl; repeat constructor.
    + intros Hperm Hc k. now apply values_copied_map.
  - destruct (handled_refused _ _ _ _ _ _ _ _ _ Hrun Hin Hcode) as (url & -> & -> & _).
    exists (sending r url out ++ [ClientDo out (Some resp) None]).
    split; [now rewrite <- app_assoc|]. split; [|reflexivity].
    apply Forall_app. split; [repeat constructor|]. constructor; [exact I|].
    apply Forall_app. split; [apply adds_events; done | repeat constructor].
Qed.

Lemma steady_delivery (data : list byte) : Forall steady (delivery data).
Proof. unfold delivery. destruct (0 <? _); repeat constructor. Qed.

Lemma relays_ending (w : ResponseWriter.t) (resp : Response.t) s t xr s' :
  relays w resp s t xr s' ->
  exists pre last,
    t ++ closing resp xr = pre ++ last /\ Forall steady pre /\
    ending (Response.StatusCode resp) last (exit_of xr).
Proof.
  induction 1 as [s|s data err Hb Hn|s data err e Hb Hn Hw|s data Hb Hd
                 |s data msg Hb Hd|s data t r s' Hb Hd Hr IH].
  - exists [], []. repeat split; constructor.
  - exists [], [BodyRead bufSize data err; BodyClose]. repeat split; now constructor.
  - exists [], [BodyRead bufSize data err; Write data (Some e); client_gone; BodyClose].
    repeat split; constructor.
  - exists [], (BodyRead bufSize data (Some io_EOF) :: delivery data ++
                [completion (Response.StatusCode resp); BodyClose]).
    split; [simpl; reflexivity|]. split; constructor.
  - exists [], (BodyRead bufSize data (Some (Err msg)) :: delivery data ++
                [read_failure (Err msg); BodyClose]).
    split; [simpl; now rewrite <- app_assoc|]. split; constructor.
  - destruct IH as (pre & last & Heq & Hpre & Hend).
    exists (BodyRead bufSize data None :: delivery data ++ pre), last.
    split; [simpl; rewrite <- !app_assoc; now rewrite Heq|]. split; [|exact Hend].
    constructor; [exact I|]. apply Forall_app. split; [apply steady_delivery | exact Hpre].
Qed.

(** The loop stops at the latest with the first read that returns an
    error, when the fuel reaches that far. *)
Lemma relay_terminates (w : ResponseWriter.t) (resp : Response.t) (k : nat) :
  snd (Response.Body resp k) <> None ->
  forall fuel s t xr s',
    (nreads s <= k < nreads s + fuel)%nat ->
    relay fuel w resp s = (t, xr, s') -> xr <> inr OutOfFuel.
Proof.
  intros Hk. induction fuel as [|fuel IH]; intros s t xr s' Hrange H; [lia|].
  simpl in H. unfold mbind, M_bind, bind, Body_Read in H.
  destruct (Response.Body resp (nreads s)) as [data err] eqn:Hb.
  assert (Hnext : err = None ->
                  forall s1 t2 r2 s2, nreads s1 = S (nreads s) ->
                    relay fuel w resp s1 = (t2, r2, s2) -> r2 <> inr OutOfFuel).
  { intros -> s1 t2 r2 s2 Hs1 Hr. apply (IH s1 t2 r2 s2); [|exact Hr].
    assert (k <> nreads s) by (intros ->; rewrite Hb in Hk; simpl in Hk; congruence).
    lia. }
  destruct (0 <? Z.of_nat (length data)); simpl in H.
  - destruct (bufSize <? Z.of_nat (length data)); simpl in H; [inversion H; discriminate|].
    unfold w_Write in H; simpl in H.
    destruct (ResponseWriter.WriteErr w (nwrites s)); simpl in H; [inversion H; discriminate|].
    destruct err as [[|msg]|]; simpl in H; try (inversion H; discriminate).
    destruct (relay fuel w resp _) as [[t2 r2] s2] eqn:Hr.
    inversion H; subst. eapply (Hnext eq_refl); [|exact Hr]. reflexivity.
  - destruct err as [[|msg]|]; simpl in H; try (inversion H; discriminate).
    destruct (relay fuel w resp _) as [[t2 r2] s2] eqn:Hr.
    inversion H; subst. eapply (Hnext eq_refl); [|exact Hr]. reflexivity.
Qed.

(** The run of the handler when the backend answers and the writer can
    flush. *)
Lemma api_v1_relayed (fuel : nat) (w : ResponseWriter.t) (r : Request.t) (s : store)
    (url : string) (u : URL.t) (out : Request.t) (s1 : store) (resp : Response.t) :
  target r = inl url ->
  parsed (Request.Method r) url = inl u ->
  built r u s = (out, s1) ->
  client_Do out (hdrs s1) = inl resp ->
  ResponseWriter.Flusher w = true ->
  invalid_code (Response.StatusCode resp) = false ->
  exit_of_run (run (api_v1 true fuel w r) s) =
    exit_of (relay fuel w resp
               (with_wh s1 (copied (wh s1) (range_order (Response.Header resp))))).1.2.
Proof.
  intros Ht Hp Hb Hd Hf Hv.
  unfold run, api_v1. unfold mbind, M_bind, bind. simpl.
  rewrite outbound_request_run, Ht, Hp.
  unfold built in Hb. destruct (constructed r u s) as [q s1'] eqn:Hc.
  inversion Hb; subst out s1'; clear Hb. simpl.
  unfold call_Do. rewrite Hd. simpl.
  rewrite write_back_run, Hf, Hv. simpl.
  destruct (relay fuel w resp _) as [[t2 [[]|x2]] s2]; reflexivity.
Qed.

Lemma In_delivery (e : event) (data : list byte) :
  In e (delivery data) -> e = Write data None \/ e = Flush.
Proof.
  unfold delivery. destruct (0 <? _); simpl; intuition congruence.
Qed.

Lemma steady_In (pre : list event) (e : event) :
  Forall steady pre -> In e pre -> steady e.
Proof. rewrite List.Forall_forall. auto. Qed.

(** Membership in the last events of a run, case by case. *)
Ltac in_cases H :=
  repeat match type of H with
         | In _ (_ :: _) => destruct H as [H|H]; [try discriminate|]
         | In _ (_ ++ _) => apply in_app_or in H; destruct H as [H|H]
         | In _ (delivery _) =>
             apply In_delivery in H; destruct H as [H|H]; try discriminate
         | In _ [] => destruct H
         end.

(** What the shape of a run says about each of the three endings. *)
Lemma ending_facts (code : Z) (pre last : list event) (x : exit) :
  Forall steady pre -> ending code last x ->
  (forall data e,
      In (Write data (Some e)) (pre ++ last) ->
      x = Returned /\
      (exists rerr,
          last = [BodyRead bufSize data rerr; Write data (Some e); client_gone; BodyClose]) /\
      (forall args, ~ In (Log ERROR args) (pre ++ last)) /\
      ~ In (completion code) (pre ++ last)) /\
  (forall size data err,
      In (BodyRead size data (Some err)) (pre ++ last) ->
      (x = Returned /\
       last = BodyRead bufSize data (Some err) :: delivery data ++
              [if is_EOF err then completion code else read_failure err; BodyClose]) \/
      (exists e, In (Write data (Some e)) (pre ++ last)) \/
      bufSize < Z.of_nat (length data)) /\
  (forall args,
      In (Log INFO (AStr "Request completed" :: args)) (pre ++ last) ->
      args = [AStr "statusCode"; AInt code] /\
      exists data,
        last = BodyRead bufSize data (Some io_EOF) :: delivery data ++
               [completion code; BodyClose]) /\
  (forall args,
      In (Log ERROR args) (pre ++ last) ->
      exists data msg,
        args = [AErr (Some (Err msg)); AStr "Error reading from backend"] /\
        last = BodyRead bufSize data (Some (Err msg)) :: delivery data ++
               [read_failure (Err msg); BodyClose]) /\
  (x = Returned ->
   exists size data err,
     In (Write data (Some err)) last \/ In (BodyRead size data (Some err)) last).
Proof.
  intros Hpre Hend.
  assert (Hnw : forall data e, ~ In (Write data (Some e)) pre).
  { intros data e Hin. exact (steady_In _ _ Hpre Hin). }
  assert (Hnr : forall size data err, ~ In (BodyRead size data (Some err)) pre).
  { intros size data err Hin. exact (steady_In _ _ Hpre Hin). }
  assert (Hne : forall args, ~ In (Log ERROR args) pre).
  { intros args Hin. exact (steady_In _ _ Hpre Hin). }
  assert (Hnc : forall args, ~ In (Log INFO (AStr "Request completed" :: args)) pre).
  { intros args Hin. apply (steady_In _ _ Hpre) in Hin. simpl in Hin. congruence. }
  split; [|split; [|split; [|split]]].
  - (* a write failed *)
    intros data e H.
    apply in_app_or in H. destruct H as [H|H]; [now apply Hnw in H|].
    destruct Hend as [Hiv| |d0 e0 Hov|d0 r0 e0|d0 m0|d0]; in_cases H.
    inversion H; subst d0 e0; clear H.
    split; [reflexivity|]. split; [eexists; reflexivity|]. split.
    + intros args Hin. apply in_app_or in Hin.
      destruct Hin as [Hin|Hin]; [now apply Hne in Hin|]. in_cases Hin.
    + intros Hin. apply in_app_or in Hin.
      destruct Hin as [Hin|Hin]; [now apply Hnc in Hin|]. in_cases Hin.
  - (* a read returned an error *)
    intros size data err H.
    apply in_app_or in H. destruct H as [H|H]; [now apply Hnr in H|].
    destruct Hend as [Hiv| |d0 e0 Hov|d0 r0 e0|d0 m0|d0]; in_cases H.
    + inversion H; subst. right. right. assumption.
    + inversion H; subst. right. left. exists e0. apply in_or_app. right. simpl. tauto.
    + inversion H; subst. left. split; reflexivity.
    + inversion H; subst. left. split; reflexivity.
  - (* the completion was reported *)
    intros args H.
    apply in_app_or in H. destruct H as [H|H]; [now apply Hnc in H|].
    destruct Hend as [Hiv| |d0 e0 Hov|d0 r0 e0|d0 m0|d0]; in_cases H.
    inversion H; subst. split; [reflexivity|]. eexists; reflexivity.
  - (* an error was reported *)
    intros args H.
    apply in_app_or in H. destruct H as [H|H]; [now apply Hne in H|].
    destruct Hend as [Hiv| |d0 e0 Hov|d0 r0 e0|d0 m0|d0]; in_cases H.
    inversion H; subst. exists d0, m0. split; reflexivity.
  - (* the handler returned *)
    intros Hx. destruct Hend as [Hiv| |d0 e0 Hov|d0 r0 e0|d0 m0|d0]; try discriminate.
    + exists bufSize, d0, e0. left. simpl. tauto.
    + exists bufSize, d0, (Err m0). right. simpl. tauto.
    + exists bufSize, d0, io_EOF. right. simpl. tauto.
Qed.

(** C10. Once the backend has answered and the relay has started, the
    run is a steady relay (reads without error, writes that succeed)
    followed by one ending. (When [WriteHeader] refuses the status of the
    response the relay does not start: the run ends there, in a panic,
    with the body closed.) A failed write ends it with the INFO record
    of the closed connection only: no error and no completion is
    reported, and the handler returns. A read that returns an error is
    the last read: unless the write of its bytes fails (or they overflow
    the buffer) the bytes are delivered, then for EOF the completion is
    reported with the status code of the response, and for every other
    error the error is reported, and the handler returns. The completion
    is reported after EOF only, an error after a failed read only, and
    the handler returns for no other reason than these three. With fuel
    up to the first read that returns an error, the run does end. *)
Theorem relay_endings (fuel : nat) (w : ResponseWriter.t) (r : Request.t) (s : store)
    (out : Request.t) (resp : Response.t) :
  let t := events_of (run (api_v1 true fuel w r) s) in
  let x := exit_of_run (run (api_v1 true fuel w r) s) in
  let code := Response.StatusCode resp in
  In (ClientDo out (Some resp) None) t ->
  ResponseWriter.Flusher w = true ->
  exists pre last,
    t = pre ++ last /\ Forall steady pre /\ ending code last x /\
    (forall data e,
        In (Write data (Some e)) t ->
        x = Returned /\
        (exists rerr,
            last = [BodyRead bufSize data rerr; Write data (Some e); client_gone;
                    BodyClose]) /\
        (forall args, ~ In (Log ERROR args) t) /\
        ~ In (completion code) t) /\
    (forall size data err,
        In (BodyRead size data (Some err)) t ->
        (x = Returned /\
         last = BodyRead bufSize data (Some err) :: delivery data ++
                [if is_EOF err then completion code else read_failure err; BodyClose]) \/
        (exists e, In (Write data (Some e)) t) \/
        bufSize < Z.of_nat (length data)) /\
    (forall args,
        In (Log INFO (AStr "Request completed" :: args)) t ->
        args = [AStr "statusCode"; AInt code] /\
        exists data,
          last = BodyRead bufSize data (Some io_EOF) :: delivery data ++
                 [completion code; BodyClose]) /\
    (forall args,
        In (Log ERROR args) t ->
        exists data msg,
          args = [AErr (Some (Err msg)); AStr "Error reading from backend"] /\
          last = BodyRead bufSize data (Some (Err msg)) :: delivery data ++
                 [read_failure (Err msg); BodyClose]) /\
    (x = Returned ->
     exists size data err,
       In (Write data (Some err)) last \/ In (BodyRead size data (Some err)) last) /\
    (forall k,
        snd (Response.Body resp k) <> None ->
        (nreads s <= k < nreads s + fuel)%nat ->
        x <> OutOfFuel).
Proof.
  intros t x code Hin Hf. subst t x code.
  destruct (run (api_v1 true fuel w r) s) as [[t x] s'] eqn:Hrun.
  pose proof Hrun as Hh. apply api_handled in Hh.
  unfold events_of, exit_of_run in *; simpl in *.
  destruct (invalid_code (Response.StatusCode resp)) eqn:Hv.
  { assert (Hcode : invalid_code (Response.StatusCode resp) && ResponseWriter.Flusher w = true)
      by now rewrite Hv, Hf.
    destruct (handled_refused _ _ _ _ _ _ _ _ _ Hh Hin Hcode) as (url & -> & -> & _).
    assert (Hhead : Forall steady (sending r url out ++ ClientDo out (Some resp) None ::
                                   adds (range_order (Response.Header resp)))).
    { apply Forall_app. split.
      { repeat constructor; simpl; discriminate. }
      constructor; [exact I|]. apply adds_events. intros; exact I. }
    pose proof (ending_unwritable (Response.StatusCode resp) Hv) as Hend.
    exists (sending r url out ++ ClientDo out (Some resp) None ::
            adds (range_order (Response.Header resp))), [BodyClose].
    assert (Hsplit : sending r url out ++ ClientDo out (Some resp) None ::
                     adds (range_order (Response.Header resp)) ++ [BodyClose]
                     = (sending r url out ++ ClientDo out (Some resp) None ::
                        adds (range_order (Response.Header resp))) ++ [BodyClose]).
    { rewrite <- !app_assoc. reflexivity. }
    rewrite Hsplit.
    split; [reflexivity|]. split; [exact Hhead|]. split; [exact Hend|].
    destruct (ending_facts _ _ _ _ Hhead Hend) as (F1 & F2 & F3 & F4 & F5).
    split; [exact F1|]. split; [exact F2|]. split; [exact F3|]. split; [exact F4|].
    split; [exact F5|]. intros; discriminate. }
  assert (Hcode : invalid_code (Response.StatusCode resp) && ResponseWriter.Flusher w = false)
    by now rewrite Hv.
  destruct (handled_responded _ _ _ _ _ _ _ _ _ Hh Hin Hcode)
    as (url & tail & -> & (u & s1 & Ht & Hp & Hb & Hd) & Htail).
  destruct Htail as [(Hf' & _)|(_ & s2 & tr & xr & Hr & -> & ->)]; [congruence|].
  destruct (relays_ending _ _ _ _ _ _ Hr) as (pre & last & Heq & Hpre & Hend).
  set (head := sending r url out ++ ClientDo out (Some resp) None ::
               adds (range_order (Response.Header resp)) ++
               WriteHeader (Response.StatusCode resp)
                 (copied (wh s) (range_order (Response.Header resp))) :: pre).
  assert (Hsplit : sending r url out ++ ClientDo out (Some resp) None ::
                   adds (range_order (Response.Header resp)) ++
                   WriteHeader (Response.StatusCode resp)
                     (copied (wh s) (range_order (Response.Header resp))) ::
                   tr ++ closing resp xr = head ++ last).
  { subst head. rewrite Heq. rewrite <- !app_assoc. simpl. rewrite <- !app_assoc.
    reflexivity. }
  assert (Hhead : Forall steady head).
  { subst head. apply Forall_app. split.
    { repeat constructor; simpl; discriminate. }
    constructor; [exact I|]. apply Forall_app. split.
    { apply adds_events. intros; exact I. }
    constructor; [exact I | exact Hpre]. }
  exists head, last. rewrite Hsplit.
  split; [reflexivity|]. split; [exact Hhead|]. split; [exact Hend|].
  destruct (ending_facts _ _ _ _ Hhead Hend) as (F1 & F2 & F3 & F4 & F5).
  split; [exact F1|]. split; [exact F2|]. split; [exact F3|]. split; [exact F4|].
  split; [exact F5|].
  intros k Hk Hrange.
  pose proof (api_v1_relayed fuel w r s url u out s1 resp Ht Hp Hb Hd Hf Hv) as Hx.
  rewrite Hrun in Hx. unfold exit_of_run in Hx; simpl in Hx.
  destruct (relay fuel w resp _) as [[t2 x2] s3] eqn:Hrel. simpl in Hx.
  assert (Hx2 : x2 <> inr OutOfFuel).
  { eapply (relay_terminates w resp k Hk); [|exact Hrel].
    unfold built, constructed, cloned in Hb.
    destruct (Request.Header r); inversion Hb; subst; simpl; exact Hrange. }
  rewrite Hx. destruct x2 as [[]|[| |]]; simpl; congruence.
Qed.

End ProxyFacts.

(** ** The monitor *)

Section MonitorFacts.

Variable wolfSocketPath : string.
Variable serverPort : Z.

Lemma monitor_continue (fuel : nat) (world : nat -> Probe) (i : nat) (t : list event) :
  monitor_iter wolfSocketPath serverPort (world i) = (t, Continue) ->
  monitor wolfSocketPath serverPort (S fuel) world i =
    (t ++ (monitor wolfSocketPath serverPort fuel world (S i)).1, (monitor wolfSocketPath serverPort fuel world (S i)).2).
Proof.
  intros Hi. simpl. rewrite Hi. now destruct (monitor wolfSocketPath serverPort fuel world (S i)).
Qed.

Lemma monitor_stop (fuel : nat) (world : nat -> Probe) (i : nat) (t : list event)
    (v : verdict) :
  monitor_iter wolfSocketPath serverPort (world i) = (t, v) -> v <> Continue ->
  monitor wolfSocketPath serverPort (S fuel) world i = (t, v).
Proof.
  intros Hi Hv. simpl. rewrite Hi. now destruct v.
Qed.

(** C9. In an iteration of the monitor loop: when [os.Stat] fails (the
    path is absent) the monitor logs, sleeps 200 ms and goes on with the
    next iteration; when the path exists and is not a socket the process
    ends with [klog.Fatal] and nothing follows, whatever the fuel and the
    later answers of the world; when the path is a socket and [net.Dial]
    fails the monitor logs, sleeps 200 ms and goes on with the next
    iteration. *)
Theorem monitor_policy (fuel : nat) (world : nat -> Probe) (i : nat) :
  (stat_err (world i) <> None ->
   monitor wolfSocketPath serverPort (S fuel) world i =
     ([Stat wolfSocketPath;
       Log INFO [AStr "Waiting for wolf.sock to appear..."; AErr (stat_err (world i))];
       Sleep 200] ++ (monitor wolfSocketPath serverPort fuel world (S i)).1,
      (monitor wolfSocketPath serverPort fuel world (S i)).2)) /\
  (forall mode,
      stat_err (world i) = None -> stat_info (world i) = Some mode ->
      Z.land mode ModeSocket = 0 ->
      monitor wolfSocketPath serverPort (S fuel) world i =
        ([Stat wolfSocketPath;
          Log FATAL [AStr "wolf.sock is not a socket"; AInt mode];
          OsExit 255],
         Fatal)) /\
  (forall mode e,
      stat_err (world i) = None -> stat_info (world i) = Some mode ->
      Z.land mode ModeSocket <> 0 -> dial_err (world i) = Some e ->
      monitor wolfSocketPath serverPort (S fuel) world i =
        ([Stat wolfSocketPath; Dial "unix" wolfSocketPath;
          Log WARNING [AStr "Waiting for wolf.sock to accept connections: ";
                       AErr (Some e)];
          Sleep 200] ++ (monitor wolfSocketPath serverPort fuel world (S i)).1,
         (monitor wolfSocketPath serverPort fuel world (S i)).2)).
Proof.
  split; [|split].
  - intros He. apply monitor_continue. unfold monitor_iter.
    destruct (stat_err (world i)); [reflexivity | congruence].
  - intros mode He Hi Hm. apply monitor_stop; [|discriminate]. unfold monitor_iter.
    rewrite He, Hi. simpl. apply Z.eqb_eq in Hm. rewrite Hm. reflexivity.
  - intros mode e He Hi Hm Hd. apply monitor_continue. unfold monitor_iter.
    rewrite He, Hi, Hd. simpl. apply Z.eqb_neq in Hm. rewrite Hm. reflexivity.
Qed.

End MonitorFacts.

(** ** The readiness flag *)

Section ProcessFacts.

Context {env : Env}.
Variable wolfSocketPath : string.
Variable serverPort : Z.

Lemma store_count_app (t1 t2 : list event) :
  store_count (t1 ++ t2) = (store_count t1 + store_count t2)%nat.
Proof. unfold store_count. now rewrite List.filter_app, length_app. Qed.

Lemma quiet_stores (t : list event) (b : bool) :
  Forall (fun e => is_ReadyStore e = false) t ->
  stores t b = b /\ store_count t = 0%nat /\
  Forall (fun e => forall v, e = ReadyStore v -> v = true) t.
Proof.
  induction 1 as [|e t He _ IH]; [repeat split; constructor|].
  destruct IH as (IH1 & IH2 & IH3).
  destruct e; try discriminate; unfold stores, store_count in *; simpl;
    (split; [exact IH1|]; split; [exact IH2|]; constructor; [discriminate | exact IH3]).
Qed.

(** The handlers do not store to the flag. *)
Lemma handled_no_store w r s ready t x s' :
  handled w r s ready t x s' -> Forall (fun e => is_ReadyStore e = false) t.
Proof.
  intros H.
  destruct H as [|e Ht|url e Ht Hp|url u out s1 e Ht Hp Hb Hd
                |url u out s1 resp Ht Hp Hb Hd Hf
                |url u out s1 resp t x s2 Ht Hp Hb Hd Hf Hr Hv
                |url u out s1 resp Ht Hp Hb Hd Hf Hv];
    try (repeat constructor; fail).
  - apply Forall_app. split; [repeat constructor|]. constructor; [done|].
    apply Forall_app. split; [apply adds_events; done | repeat constructor].
  - apply Forall_app. split; [repeat constructor|]. constructor; [done|].
    apply Forall_app. split; [apply adds_events; done|]. constructor; [done|].
    apply Forall_app. split.
    + eapply List.Forall_impl; [|exact (relays_events _ _ _ _ _ _ Hr)].
      intros []; simpl; tauto.
    + destruct x as [|[| |]]; simpl; repeat constructor.
  - apply Forall_app. split; [repeat constructor|]. constructor; [done|].
    apply Forall_app. split; [apply adds_events; done | repeat constructor].
Qed.

(** An iteration of the monitor stores [true] once when it ends the
    goroutine, and does not store otherwise. *)
Lemma monitor_iter_stores (p : Probe) (t : list event) (v : verdict) (b : bool) :
  monitor_iter wolfSocketPath serverPort p = (t, v) ->
  Forall (fun e => forall v', e = ReadyStore v' -> v' = true) t /\
  match v with
  | Done => stores t b = true /\ store_count t = 1%nat
  | _ => stores t b = b /\ store_count t = 0%nat
  end.
Proof.
  unfold monitor_iter. destruct p as [[mode|] [e|] [d|]]; simpl;
    try destruct (Z.land mode ModeSocket =? 0); simpl;
    intros [= <- <-]; (split; [repeat constructor; congruence|]); split; reflexivity.
Qed.

Lemma step_spec (ps : process) (a : action) (t : list event) (ps' : process) :
  step wolfSocketPath serverPort ps a = (t, ps') ->
  (ready ps = true -> monitoring ps = false) ->
  Forall (fun e => forall v, e = ReadyStore v -> v = true) t /\
  (ready ps' = true -> monitoring ps' = false) /\
  (ready ps = true -> ready ps' = true /\ store_count t = 0%nat) /\
  (ready ps = false -> store_count t = if ready ps' then 1%nat else 0%nat) /\
  ((forall p, a <> MonitorIter p) -> store_count t = 0%nat).
Proof.
  intros Hstep Hinv. unfold step in Hstep.
  destruct (alive ps); simpl in Hstep.
  2:{ inversion Hstep; subst. repeat split; auto; try constructor.
      intros ->. reflexivity. }
  assert (Hq : forall t0,
             Forall (fun e => is_ReadyStore e = false) t0 ->
             (t0, mkProcess (stores t0 (ready ps)) (monitoring ps) true) = (t, ps') ->
             Forall (fun e => forall v, e = ReadyStore v -> v = true) t /\
             (ready ps' = true -> monitoring ps' = false) /\
             (ready ps = true -> ready ps' = true /\ store_count t = 0%nat) /\
             (ready ps = false -> store_count t = if ready ps' then 1%nat else 0%nat) /\
             ((forall p, a <> MonitorIter p) -> store_count t = 0%nat)).
  { intros t0 Hq0 [= <- <-]. destruct (quiet_stores t0 (ready ps) Hq0) as (H1 & H2 & H3).
    simpl. rewrite H1. repeat split; auto. intros ->. exact H2. }
  destruct a as [p|s|s|fuel w r s].
  - destruct (monitoring ps) eqn:Hm.
    + destruct (monitor_iter wolfSocketPath serverPort p) as [t0 v] eqn:Hi.
      inversion Hstep; subst; clear Hstep.
      destruct (monitor_iter_stores p t v (ready ps) Hi) as [Hall Hv].
      assert (Hr : ready ps = false).
      { destruct (ready ps); [|done]. now specialize (Hinv eq_refl). }
      split; [exact Hall|]. simpl.
      destruct v; destruct Hv as [Hv1 Hv2]; rewrite Hv1, Hv2, Hr; repeat split; auto;
        try congruence; try (intros Hp; now specialize (Hp p)).
    + inversion Hstep; subst. repeat split; auto; try constructor.
      intros ->. reflexivity.
  - apply Hq in Hstep; [exact Hstep|].
    unfold readyz, ready_Load. destruct (ready ps); repeat constructor.
  - apply Hq in Hstep; [exact Hstep|]. repeat constructor.
  - apply Hq in Hstep; [exact Hstep|].
    destruct (run (api_v1 (ready ps) fuel w r) s) as [[t0 x] s'] eqn:Hrun.
    apply api_handled, handled_no_store in Hrun. exact Hrun.
Qed.

(** A request served by a handler does not store to the flag. *)
Lemma step_handler (ps : process) (a : action) :
  (forall p, a <> MonitorIter p) ->
  store_count (step wolfSocketPath serverPort ps a).1 = 0%nat.
Proof.
  intros Ha. unfold step. destruct (alive ps); simpl; [|reflexivity].
  destruct a as [p|s|s|fuel w r s]; simpl.
  - now specialize (Ha p).
  - unfold readyz, ready_Load. now destruct (ready ps).
  - reflexivity.
  - destruct (run (api_v1 (ready ps) fuel w r) s) as [[t0 x] s'] eqn:Hrun.
    apply api_handled, handled_no_store in Hrun.
    now destruct (quiet_stores t0 (ready ps) Hrun) as (_ & H2 & _).
Qed.

Lemma exec_app (ps : process) (acts1 acts2 : list action) :
  exec wolfSocketPath serverPort ps (acts1 ++ acts2) =
    ((exec wolfSocketPath serverPort ps acts1).1 ++
     (exec wolfSocketPath serverPort (exec wolfSocketPath serverPort ps acts1).2 acts2).1,
     (exec wolfSocketPath serverPort (exec wolfSocketPath serverPort ps acts1).2 acts2).2).
Proof.
  revert ps. induction acts1 as [|a acts1 IH]; intros ps; simpl.
  - now destruct (exec wolfSocketPath serverPort ps acts2).
  - destruct (step wolfSocketPath serverPort ps a) as [t ps'].
    rewrite IH. destruct (exec wolfSocketPath serverPort ps' acts1) as [t1 ps1]. simpl.
    destruct (exec wolfSocketPath serverPort ps1 acts2) as [t2 ps2]. simpl.
    now rewrite app_assoc.
Qed.

Lemma exec_spec (acts : list action) :
  forall ps,
    (ready ps = true -> monitoring ps = false) ->
    Forall (fun e => forall v, e = ReadyStore v -> v = true)
           (exec wolfSocketPath serverPort ps acts).1 /\
    (ready (exec wolfSocketPath serverPort ps acts).2 = true ->
     monitoring (exec wolfSocketPath serverPort ps acts).2 = false) /\
    (ready ps = true ->
     ready (exec wolfSocketPath serverPort ps acts).2 = true /\
     store_count (exec wolfSocketPath serverPort ps acts).1 = 0%nat) /\
    (ready ps = false ->
     store_count (exec wolfSocketPath serverPort ps acts).1
     = if ready (exec wolfSocketPath serverPort ps acts).2 then 1%nat else 0%nat).
Proof.
  induction acts as [|a acts IH]; intros ps Hinv; simpl.
  - repeat split; auto. intros ->. reflexivity.
  - destruct (step wolfSocketPath serverPort ps a) as [t ps'] eqn:Hstep.
    destruct (step_spec ps a t ps' Hstep Hinv) as (H1 & H2 & H3 & H4 & _).
    specialize (IH ps' H2). destruct (exec wolfSocketPath serverPort ps' acts) as [t' ps''].
    simpl in *. destruct IH as (I1 & I2 & I3 & I4).
    split; [apply Forall_app; split; assumption|]. split; [exact I2|]. split.
    + intros Hr. destruct (H3 Hr) as [Hr' Hc]. destruct (I3 Hr') as [Hr'' Hc'].
      split; [exact Hr''|]. rewrite store_count_app. lia.
    + intros Hr. rewrite store_count_app, (H4 Hr).
      destruct (ready ps') eqn:Hr'.
      * destruct (I3 eq_refl) as [-> ->]. reflexivity.
      * now rewrite (I4 eq_refl).
Qed.

(** C8. The readiness flag starts false; every store to it stores true;
    a run of the process stores to it once when the flag is true at the
    end and never otherwise; only an iteration of the monitor stores to
    it; once it is true it is true after every further action; and once
    it is true the monitor has returned: a further iteration does
    nothing. *)
Theorem ready_monotonic (acts : list action) :
  ready start = false /\
  Forall (fun e => forall v, e = ReadyStore v -> v = true)
         (main wolfSocketPath serverPort acts).1 /\
  store_count (main wolfSocketPath serverPort acts).1
    = (if ready (main wolfSocketPath serverPort acts).2 then 1%nat else 0%nat) /\
  (forall ps a, (forall p, a <> MonitorIter p) ->
                store_count (step wolfSocketPath serverPort ps a).1 = 0%nat) /\
  (forall more,
      ready (main wolfSocketPath serverPort acts).2 = true ->
      ready (main wolfSocketPath serverPort (acts ++ more)).2 = true /\
      store_count (main wolfSocketPath serverPort (acts ++ more)).1 = 1%nat) /\
  (forall p,
      ready (main wolfSocketPath serverPort acts).2 = true ->
      step wolfSocketPath serverPort (main wolfSocketPath serverPort acts).2
           (MonitorIter p)
      = ([], (main wolfSocketPath serverPort acts).2)).
Proof.
  unfold main.
  assert (Hstart : ready start = true -> monitoring start = false) by discriminate.
  destruct (exec_spec acts start Hstart) as (H1 & H2 & _ & H4).
  split; [reflexivity|]. split; [exact H1|]. split; [exact (H4 eq_refl)|].
  split; [|split].
  - intros ps a Ha. now apply step_handler.
  - intros more Hr. rewrite exec_app. simpl.
    destruct (exec_spec more _ H2) as (_ & _ & H3' & _).
    destruct (H3' Hr) as [Hr' Hc]. split; [exact Hr'|].
    rewrite store_count_app, Hc, (H4 eq_refl), Hr. reflexivity.
  - intros p Hr. unfold step. rewrite (H2 Hr).
    now destruct (alive _).
Qed.

(** The goroutine is the schedule of its iterations: on its own, the
    process performs the events of [monitor]. *)
Lemma monitor_schedule (world : nat -> Probe) (fuel : nat) :
  forall i ps,
    alive ps = true -> monitoring ps = true ->
    (exec wolfSocketPath serverPort ps
          (map (fun k => MonitorIter (world k)) (seq i fuel))).1
    = (monitor wolfSocketPath serverPort fuel world i).1.
Proof.
  assert (Hidle : forall acts ps,
             alive ps && monitoring ps = false ->
             Forall (fun a => exists p, a = MonitorIter p) acts ->
             (exec wolfSocketPath serverPort ps acts).1 = []).
  { induction acts as [|a acts IH]; intros ps Hps Hall; [reflexivity|].
    inversion Hall as [|? ? [p ->] Hall']; subst. simpl.
    assert (Hstep : step wolfSocketPath serverPort ps (MonitorIter p) = ([], ps)).
    { unfold step. destruct (alive ps), (monitoring ps); try discriminate; reflexivity. }
    rewrite Hstep. specialize (IH ps Hps Hall').
    destruct (exec wolfSocketPath serverPort ps acts). exact IH. }
  induction fuel as [|fuel IH]; intros i ps Ha Hm; [reflexivity|].
  simpl. unfold step. rewrite Ha, Hm. simpl.
  destruct (monitor_iter wolfSocketPath serverPort (world i)) as [t v] eqn:Hi.
  destruct v.
  - specialize (IH (S i) (mkProcess (stores t (ready ps)) true true) eq_refl eq_refl).
    destruct (exec _ _ _ _) as [t1 ps1]. simpl in *.
    destruct (monitor wolfSocketPath serverPort fuel world (S i)) as [t2 v2].
    simpl in *. now rewrite IH.
  - rewrite (surjective_pairing (exec _ _ _ _)), Hidle; simpl; [now rewrite app_nil_r|done|].
    apply Forall_forall. intros a Hin. apply list_elem_of_In, in_map_iff in Hin.
    destruct Hin as (k & <- & _). eauto.
  - rewrite (surjective_pairing (exec _ _ _ _)), Hidle; simpl; [now rewrite app_nil_r|done|].
    apply Forall_forall. intros a Hin. apply list_elem_of_In, in_map_iff in Hin.
    destruct Hin as (k & <- & _). eauto.
  - rewrite (surjective_pairing (exec _ _ _ _)), Hidle; simpl; [now rewrite app_nil_r|done|].
    apply Forall_forall. intros a Hin. apply list_elem_of_In, in_map_iff in Hin.
    destruct Hin as (k & <- & _). eauto.
Qed.

End ProcessFacts.

(** ** The claims on the sample deployment *)

(** C1 on the sample stream: each chunk is read, written and flushed in
    turn; the empty read is passed over; the end of the stream is
    reported. *)
Example stream_relayed :
  skipn 8 (events_of (run (Sample.api true 9 Sample.w Sample.request) Sample.s0))
  = [BodyRead 4096 (Sample.bytes "data: 1") None;
     Write (Sample.bytes "data: 1") None; Flush;
     BodyRead 4096 [] None;
     BodyRead 4096 (Sample.bytes "data: 2") None;
     Write (Sample.bytes "data: 2") None; Flush;
     BodyRead 4096 [] (Some io_EOF);
     Log INFO [AStr "Request completed"; AStr "statusCode"; AInt 200];
     BodyClose].
Proof. vm_compute. reflexivity. Qed.

(** C3 on the CONNECT request whose joined URL does not parse: the
    backend is not contacted and the client receives no status. *)
Lemma construction_failure_witness :
  @construction_error Sample.env Sample.connect <> None /\
  Forall (fun e => is_ClientDo e = false)
         (events_of (run (Sample.api true 0 Sample.w Sample.connect) Sample.s0)) /\
  client_status (events_of (run (Sample.api true 0 Sample.w Sample.connect) Sample.s0))
  = None /\
  exit_of_run (run (Sample.api true 0 Sample.w Sample.connect) Sample.s0)
  = Panicked nil_dereference.
Proof.
  assert (Hc : @construction_error Sample.env Sample.connect <> None)
    by (vm_compute; discriminate).
  destruct (@construction_failure Sample.env 0 Sample.w Sample.connect Sample.s0 Hc)
    as [Hno Hfail].
  split; [exact Hc|]. split; [exact Hno|].
  destruct (Hfail "http://a%20b" (Err "invalid URL escape")) as (H1 & _ & H3);
    [vm_compute; reflexivity | vm_compute; reflexivity |].
  split; [exact H1 | exact H3].
Defined.



(** C5 on a request whose method [http.NewRequest] refuses. *)
Lemma nil_request_dereferenced_witness :
  @target Sample.env Sample.bad_method = inl "http://wolf.sock/api/v1/apps" /\
  @parsed Sample.env "BAD METHOD" "http://wolf.sock/api/v1/apps"
    = inr (invalid_method "BAD METHOD") /\
  exit_of_run (run (Sample.api true 0 Sample.w Sample.bad_method) Sample.s0)
    = Panicked nil_dereference /\
  client_status (events_of (run (Sample.api true 0 Sample.w Sample.bad_method) Sample.s0))
    = None.
Proof.
  split; [vm_compute; reflexivity|]. split; [vm_compute; reflexivity|].
  destruct (@nil_request_dereferenced Sample.env 0 Sample.w Sample.bad_method Sample.s0
              "http://wolf.sock/api/v1/apps" (invalid_method "BAD METHOD"))
    as (H1 & H2 & _).
  - vm_compute; reflexivity.
  - vm_compute; reflexivity.
  - split; assumption.
Defined.

(** The same on a CONNECT request whose joined URL does not parse. *)
Example connect_request_panics :
  @target Sample.env Sample.connect = inl "http://a%20b" /\
  run (Sample.api true 0 Sample.w Sample.connect) Sample.s0
  = ([Log INFO [AStr "Received request:"; AStr "CONNECT"; AStr "/api/v1/../../../a b"];
      ReadyLoad true;
      JoinPath "http://" ["wolf.sock"; "/api/v1/../../../a b"];
      NewRequest "CONNECT" "http://a%20b" 1],
     Panicked nil_dereference, Sample.s0).
Proof.
  split; vm_compute; reflexivity.
Qed.

Lemma outbound_fidelity_witness :
  sent (events_of (run (Sample.api true 0 Sample.w Sample.request) Sample.s0))
    = Some Sample.outbound /\
  Request.Method Sample.request <> "" /\
  Request.Method Sample.outbound = Request.Method Sample.request /\
  Request.Proto Sample.outbound = Request.Proto Sample.request.
Proof.
  split; [vm_compute; reflexivity|]. split; [discriminate|].
  destruct (@outbound_fidelity Sample.env 0 Sample.w Sample.request Sample.s0 Sample.outbound)
    as (H1 & H2 & _).
  - vm_compute; reflexivity.
  - discriminate.
  - intros l [= <-]. vm_compute. eauto.
  - split; assumption.
Defined.

Lemma response_head_first_witness :
  In (ClientDo Sample.outbound (Some Sample.response) None)
     (events_of (run (Sample.api true 9 Sample.w Sample.request) Sample.s0)) /\
  exists pre snap post,
    events_of (run (Sample.api true 9 Sample.w Sample.request) Sample.s0) =
      pre ++ [HeaderAdd "Content-Type" "text/event-stream"] ++
      WriteHeader 200 snap :: post /\
    values "Content-Type" snap = ["text/event-stream"].
Proof.
  assert (Hin : In (ClientDo Sample.outbound (Some Sample.response) None)
                   (events_of (run (Sample.api true 9 Sample.w Sample.request) Sample.s0))).
  { vm_compute. do 5 right. left. reflexivity. }
  split; [exact Hin|].
  destruct (proj1 (@response_head_first Sample.env 9 Sample.w Sample.request Sample.s0
                     Sample.outbound Sample.response Hin) eq_refl)
    as (pre & snap & post & Heq & _ & _ & _ & Hv).
  exists pre, snap, post. split; [exact Heq|].
  rewrite Hv; [reflexivity|reflexivity|].
  intros key [vs Hk]. unfold Sample.response in Hk; simpl in Hk.
  apply lookup_singleton_Some in Hk. destruct Hk as [<- _].
  reflexivity.
Defined.

(** C7 on a response with the status 99: the header is passed on, then
    [WriteHeader] panics; no status and no body byte reach the client. *)
Example status_99_refused :
  run (@api_v1 Sample.unwritable_env true 9 Sample.w Sample.request) Sample.s0
  = ([Log INFO [AStr "Received request:"; AStr "GET"; AStr "/api/v1/apps"];
      ReadyLoad true;
      JoinPath "http://" ["wolf.sock"; "/api/v1/apps"];
      NewRequest "GET" "http://wolf.sock/api/v1/apps" 1;
      Log INFO [AStr "Sending request to wolf.sock:"; AStr "GET"; AStr "/api/v1/apps"];
      ClientDo Sample.outbound (Some Sample.unwritable) None;
      HeaderAdd "Content-Type" "text/event-stream";
      BodyClose],
     Panicked "invalid WriteHeader code 99",
     store_of (run (@api_v1 Sample.unwritable_env true 9 Sample.w Sample.request)
                   Sample.s0)).
Proof. vm_compute. reflexivity. Qed.

Lemma relay_endings_witness :
  In (ClientDo Sample.outbound (Some Sample.response) None)
     (events_of (run (Sample.api true 9 Sample.w Sample.request) Sample.s0)) /\
  ResponseWriter.Flusher Sample.w = true /\
  exit_of_run (run (Sample.api true 9 Sample.w Sample.request) Sample.s0) <> OutOfFuel.
Proof.
  assert (Hin : In (ClientDo Sample.outbound (Some Sample.response) None)
                   (events_of (run (Sample.api true 9 Sample.w Sample.request) Sample.s0))).
  { vm_compute. do 5 right. left. reflexivity. }
  split; [exact Hin|]. split; [reflexivity|].
  destruct (@relay_endings Sample.env 9 Sample.w Sample.request Sample.s0
              Sample.outbound Sample.response Hin eq_refl)
    as (pre & last & _ & _ & _ & _ & _ & _ & _ & _ & Hterm).
  apply (Hterm 3%nat); [discriminate | vm_compute; lia].
Defined.

(** ** The target of the outbound request, on the model of [net/url] *)

Module GoStdFacts.
Import GoStd.

#[local] Arguments String.append !s1 s2 : simpl nomatch.

Lemma append_nil_r (s : string) : s +:+ "" = s.
Proof. induction s as [|a s IH]; simpl; [reflexivity | now rewrite IH]. Qed.

Lemma append_assoc (a b c : string) : (a +:+ b) +:+ c = a +:+ (b +:+ c).
Proof. induction a as [|x a IH]; simpl; [reflexivity | now rewrite IH]. Qed.

(** What a kept byte is not. *)
Lemma plainByte_facts (a : ascii) :
  plainByte a = true ->
  Ascii.eqb a "%" = false /\ Ascii.eqb a "?" = false /\ Ascii.eqb "?" a = false /\
  Ascii.eqb "#" a = false /\ (code a <? 32) = false /\ (code a =? 127) = false.
Proof.
  destruct a as [[] [] [] [] [] [] [] []]; vm_compute; intros H;
    try discriminate; repeat split; reflexivity.
Qed.

Lemma allBytes_app (f : ascii -> bool) (a b : string) :
  allBytes f (a +:+ b) = allBytes f a && allBytes f b.
Proof.
  induction a as [|x a IH]; simpl; [reflexivity|]. now rewrite IH, andb_assoc.
Qed.

Lemma allBytes_impl (f g : ascii -> bool) (s : string) :
  (forall a, f a = true -> g a = true) -> allBytes f s = true -> allBytes g s = true.
Proof.
  intros Hfg. induction s as [|a s IH]; simpl; [done|].
  intros H. apply andb_true_iff in H. destruct H as [Ha Hs].
  now rewrite (Hfg a Ha), IH.
Qed.

Lemma normalElem_spec (e : string) :
  normalElem e = true ->
  allBytes elemByte e = true /\ e <> "" /\ e <> "." /\ e <> "..".
Proof.
  unfold normalElem. rewrite !andb_true_iff, !negb_true_iff, !bool_decide_eq_false. tauto.
Qed.

Lemma elemByte_spec (a : ascii) :
  elemByte a = true -> plainByte a = true /\ Ascii.eqb a "/" = false.
Proof. unfold elemByte. rewrite andb_true_iff, negb_true_iff. tauto. Qed.

(** [strings.Split] on a string without a slash, and on an element
    followed by a slash. *)
Lemma Split_free (e : string) : allBytes elemByte e = true -> Split "/" e = [e].
Proof.
  induction e as [|a e IH]; simpl; [reflexivity|].
  intros H. apply andb_true_iff in H. destruct H as [Ha He].
  apply elemByte_spec in Ha. destruct Ha as [_ Ha]. now rewrite Ha, IH.
Qed.

Lemma Split_elem (e t : string) :
  allBytes elemByte e = true -> Split "/" (e +:+ String "/" t) = e :: Split "/" t.
Proof.
  induction e as [|a e IH]; simpl; [reflexivity|].
  intros H. apply andb_true_iff in H. destruct H as [Ha He].
  apply elemByte_spec in Ha. destruct Ha as [_ Ha]. now rewrite Ha, IH.
Qed.

Lemma path_of_slash (elems : list string) (tr : bool) :
  elems <> [] \/ tr = true -> path_of elems tr = String "/" (from1 (path_of elems tr)).
Proof.
  destruct elems as [|e rest]; simpl; [|reflexivity].
  intros [H | ->]; [done | reflexivity].
Qed.

Lemma path_of_nil (elems : list string) (tr : bool) :
  ~ (elems <> [] \/ tr = true) -> path_of elems tr = "".
Proof.
  destruct elems as [|e rest]; destruct tr; simpl; intros H; try reflexivity;
    exfalso; apply H; auto.
Qed.

Lemma Split_path_of (elems : list string) (tr : bool) :
  forallb normalElem elems = true ->
  elems <> [] \/ tr = true ->
  Split "/" (from1 (path_of elems tr)) = elems ++ (if tr then [""] else []).
Proof.
  induction elems as [|e rest IH]; intros Hn Hne.
  - destruct Hne as [Hne| ->]; [done | reflexivity].
  - simpl in Hn. apply andb_true_iff in Hn. destruct Hn as [He Hrest].
    apply normalElem_spec in He. destruct He as [He _].
    change (from1 (path_of (e :: rest) tr)) with (e +:+ path_of rest tr).
    destruct (decide (rest <> [] \/ tr = true)) as [Hr|Hr].
    + rewrite (path_of_slash rest tr Hr), (Split_elem e _ He), (IH Hrest Hr). reflexivity.
    + rewrite (path_of_nil rest tr Hr), append_nil_r, (Split_free e He).
      destruct rest; [|exfalso; apply Hr; left; done].
      destruct tr; [exfalso; apply Hr; right; done | reflexivity].
Qed.

(** [path.Clean] on normal elements. *)
Lemma clean_elem_normal (r : bool) (out : list string) (e : string) :
  normalElem e = true -> clean_elem r out e = e :: out.
Proof.
  intros H. apply normalElem_spec in H. destruct H as (_ & H1 & H2 & H3).
  unfold clean_elem. now rewrite !bool_decide_false by done.
Qed.

Lemma fold_clean (elems : list string) :
  forallb normalElem elems = true ->
  forall out, fold_left (clean_elem true) elems out = rev elems ++ out.
Proof.
  induction elems as [|e rest IH]; intros Hn out; [reflexivity|].
  simpl in Hn. apply andb_true_iff in Hn. destruct Hn as [He Hrest].
  simpl. rewrite (clean_elem_normal _ _ _ He), (IH Hrest), <- app_assoc. reflexivity.
Qed.

Lemma fold_clean_trailing (elems : list string) (tr : bool) :
  forallb normalElem elems = true ->
  forall out,
    fold_left (clean_elem true) (elems ++ (if tr then [""] else [])) out
    = rev elems ++ out.
Proof.
  intros Hn out. rewrite fold_left_app, (fold_clean elems Hn).
  destruct tr; reflexivity.
Qed.

Lemma JoinSlash_cons (elems : list string) :
  forall x, JoinSlash (x :: elems) = x +:+ path_of elems false.
Proof.
  induction elems as [|y rest IH]; intros x.
  - simpl. now rewrite append_nil_r.
  - change (JoinSlash (x :: y :: rest)) with (x +:+ "/" +:+ JoinSlash (y :: rest)).
    rewrite IH. reflexivity.
Qed.

(** The path that [URL.JoinPath] computes for the handler's elements. *)
Lemma Join_target (elems : list string) (tr : bool) :
  cleanPath elems tr = true ->
  Join ["/"; "wolf.sock"; path_of elems tr] = "/wolf.sock" +:+ path_of elems false.
Proof.
  unfold cleanPath. rewrite andb_true_iff. intros [Hn Hne].
  assert (Hne' : elems <> [] \/ tr = true).
  { apply orb_true_iff in Hne. destruct Hne as [Hne|Hne]; [left|right; done].
    now apply negb_true_iff, bool_decide_eq_false in Hne. }
  unfold Join. rewrite (path_of_slash elems tr Hne'). 
  change (forallb _ _) with false. cbv iota.
  change (join_buf "" ["/"; "wolf.sock"; String "/" (from1 (path_of elems tr))])
    with ("//wolf.sock//" +:+ from1 (path_of elems tr)).
  unfold Clean.
  change (bool_decide ("//wolf.sock//" +:+ from1 (path_of elems tr) = "")) with false.
  cbv iota.
  change (String.prefix "/" ("//wolf.sock//" +:+ from1 (path_of elems tr))) with true.
  cbv iota zeta.
  change (Split "/" ("//wolf.sock//" +:+ from1 (path_of elems tr)))
    with ("" :: "" :: "wolf.sock" :: "" :: Split "/" (from1 (path_of elems tr))).
  rewrite (Split_path_of elems tr Hn Hne').
  change (fold_left (clean_elem true)
            ("" :: "" :: "wolf.sock" :: "" :: elems ++ (if tr then [""] else [])) [])
    with (fold_left (clean_elem true) (elems ++ (if tr then [""] else [])) ["wolf.sock"]).
  rewrite (fold_clean_trailing elems tr Hn), rev_app_distr, rev_involutive.
  simpl rev. simpl app. rewrite JoinSlash_cons. reflexivity.
Qed.

(** Strings of kept bytes: the escaping and the unescaping leave them as
    they are, and [url.Parse] finds no control byte, fragment or query
    in them. *)
Lemma escape_plain (s : string) : allBytes plainByte s = true -> escape_path s = s.
Proof.
  induction s as [|a s IH]; simpl; [reflexivity|].
  intros H. apply andb_true_iff in H. destruct H as [Ha Hs].
  unfold plainByte in Ha. apply negb_true_iff in Ha. now rewrite Ha, IH.
Qed.

Lemma unescape_plain_go (s : string) :
  allBytes plainByte s = true ->
  forall fuel, (String.length s <= fuel)%nat -> unescape_path_go fuel s = Some s.
Proof.
  induction s as [|a s IH]; intros H fuel Hf.
  - destruct fuel; reflexivity.
  - simpl in H. apply andb_true_iff in H. destruct H as [Ha Hs].
    destruct fuel as [|fuel]; [simpl in Hf; lia|].
    destruct (plainByte_facts a Ha) as (Hp & _).
    simpl. rewrite Hp, (IH Hs fuel) by (simpl in Hf; lia). reflexivity.
Qed.

Lemma unescape_plain (s : string) : allBytes plainByte s = true -> unescape_path s = Some s.
Proof. intros H. apply (unescape_plain_go s H). lia. Qed.

Lemma hasCTLByte_plain (s : string) : allBytes plainByte s = true -> hasCTLByte s = false.
Proof.
  unfold hasCTLByte. induction s as [|a s IH]; simpl; [reflexivity|].
  intros H. apply andb_true_iff in H. destruct H as [Ha Hs].
  destruct (plainByte_facts a Ha) as (_ & _ & _ & _ & H1 & H2).
  now rewrite H1, H2, IH.
Qed.

Lemma ContainsByte_plain (s : string) :
  allBytes plainByte s = true -> ContainsByte s "#" = false.
Proof.
  unfold ContainsByte. induction s as [|a s IH]; [reflexivity|].
  intros H. cbn [allBytes] in H. apply andb_true_iff in H. destruct H as [Ha Hs].
  destruct (plainByte_facts a Ha) as (_ & _ & _ & H1 & _).
  cbn [list_ascii_of_string existsb]. now rewrite H1, IH.
Qed.

Lemma HasSuffix_plain (s : string) :
  allBytes plainByte s = true -> HasSuffixByte s "?" = false.
Proof.
  induction s as [|a s IH]; simpl; [reflexivity|].
  intros H. apply andb_true_iff in H. destruct H as [Ha Hs].
  destruct (plainByte_facts a Ha) as (_ & H1 & _).
  destruct s; [exact H1 | now apply IH].
Qed.

Lemma Cut_plain (s : string) :
  allBytes plainByte s = true -> Cut "?" s = (s, "", false).
Proof.
  induction s as [|a s IH]; simpl; [reflexivity|].
  intros H. apply andb_true_iff in H. destruct H as [Ha Hs].
  destruct (plainByte_facts a Ha) as (_ & H1 & _).
  now rewrite H1, IH.
Qed.

(** The slash at the end of a path. *)
Lemma HasSuffix_app (a b : string) (c : ascii) :
  HasSuffixByte (a +:+ b) c
  = match b with EmptyString => HasSuffixByte a c | _ => HasSuffixByte b c end.
Proof.
  induction a as [|x a IH].
  - destruct b; reflexivity.
  - change (String x a +:+ b) with (String x (a +:+ b)).
    destruct a as [|y a].
    + destruct b; reflexivity.
    + change (HasSuffixByte (String x (String y a +:+ b)) c)
        with (HasSuffixByte (String y a +:+ b) c).
      rewrite IH. reflexivity.
Qed.

Lemma HasSuffix_elem (e : string) :
  allBytes elemByte e = true -> HasSuffixByte e "/" = false.
Proof.
  induction e as [|a e IH]; simpl; [reflexivity|].
  intros H. apply andb_true_iff in H. destruct H as [Ha He].
  apply elemByte_spec in Ha. destruct Ha as [_ Ha].
  destruct e; [exact Ha | now apply IH].
Qed.

Lemma HasSuffix_path_of (elems : list string) (tr : bool) :
  forallb normalElem elems = true -> HasSuffixByte (path_of elems tr) "/" = tr.
Proof.
  induction elems as [|e rest IH]; intros Hn; [destruct tr; reflexivity|].
  simpl in Hn. apply andb_true_iff in Hn. destruct Hn as [He Hrest].
  apply normalElem_spec in He. destruct He as (He & Hne & _).
  change (path_of (e :: rest) tr) with ("/" +:+ e +:+ path_of rest tr).
  rewrite HasSuffix_app.
  destruct (e +:+ path_of rest tr) as [|x y] eqn:Heq.
  { destruct e; [done | discriminate]. }
  rewrite <- Heq, HasSuffix_app.
  destruct (path_of rest tr) as [|x' y'] eqn:Hp.
  - rewrite (HasSuffix_elem e He).
    destruct rest; [destruct tr; [discriminate | reflexivity] | discriminate].
  - exact (IH Hrest).
Qed.

Lemma path_of_trailing (elems : list string) (tr : bool) :
  path_of elems false +:+ (if tr then "/" else "") = path_of elems tr.
Proof.
  induction elems as [|e rest IH]; [destruct tr; reflexivity|].
  change (path_of (e :: rest) false) with ("/" +:+ e +:+ path_of rest false).
  change (path_of (e :: rest) tr) with ("/" +:+ e +:+ path_of rest tr).
  rewrite !append_assoc, IH. reflexivity.
Qed.

Lemma allBytes_elem (e : string) :
  allBytes elemByte e = true -> allBytes plainByte e = true.
Proof. apply allBytes_impl. intros a Ha. now apply elemByte_spec in Ha. Qed.

Lemma allBytes_path_of (elems : list string) (tr : bool) :
  forallb normalElem elems = true -> allBytes plainByte (path_of elems tr) = true.
Proof.
  induction elems as [|e rest IH]; intros Hn; [destruct tr; reflexivity|].
  simpl in Hn. apply andb_true_iff in Hn. destruct Hn as [He Hrest].
  apply normalElem_spec in He. destruct He as (He & _).
  change (path_of (e :: rest) tr) with ("/" +:+ e +:+ path_of rest tr).
  rewrite !allBytes_app, (allBytes_elem e He), (IH Hrest). reflexivity.
Qed.

(** [u.setPath] on a string of kept bytes. *)
Lemma setPath_plain (u : URL) (p : string) :
  allBytes plainByte p = true ->
  setPath u p = (mkURL (Scheme u) (Host u) p "" (OmitHost u) (ForceQuery u) (RawQuery u), None).
Proof.
  intros H. unfold setPath.
  now rewrite (unescape_plain p H), (escape_plain p H), bool_decide_true.
Qed.

(** [url.JoinPath] on the base of the handler does not fail. *)
Lemma JoinPath_base (elem : list string) :
  exists url, JoinPath "http://" elem = inl url.
Proof. eexists. reflexivity. Qed.

(** [url.JoinPath] on the handler's arguments, for a clean path. *)
Lemma JoinPath_clean (elems : list string) (tr : bool) :
  cleanPath elems tr = true ->
  JoinPath "http://" ["wolf.sock"; path_of elems tr]
  = inl ("http://wolf.sock" +:+ path_of elems tr).
Proof.
  intros Hc. pose proof (Join_target elems tr Hc) as Hj.
  unfold cleanPath in Hc. apply andb_true_iff in Hc. destruct Hc as [Hn _].
  unfold JoinPath.
  change (Parse "http://") with (inl (mkURL "http" "" "" "" false false "") : URL + error).
  cbv iota beta. f_equal. unfold URL_JoinPath.
  change (EscapedPath (mkURL "http" "" "" "" false false "")) with "".
  change (negb (String.prefix "/" "")) with true. cbv iota zeta.
  change ("/" +:+ "") with "/". rewrite Hj.
  change (List.last ["/"; "wolf.sock"; path_of elems tr] "") with (path_of elems tr).
  change (from1 ("/wolf.sock" +:+ path_of elems false))
    with ("wolf.sock" +:+ path_of elems false).
  rewrite (HasSuffix_path_of elems tr Hn), HasSuffix_app.
  assert (Hs : match path_of elems false with
               | EmptyString => HasSuffixByte "wolf.sock" "/"
               | String _ _ => HasSuffixByte (path_of elems false) "/"
               end = false).
  { destruct (path_of elems false) eqn:Hp; [reflexivity|].
    rewrite <- Hp. exact (HasSuffix_path_of elems false Hn). }
  rewrite Hs.
  assert (Hp : (if tr && negb false
                then ("wolf.sock" +:+ path_of elems false) +:+ "/"
                else "wolf.sock" +:+ path_of elems false)
               = "wolf.sock" +:+ path_of elems tr).
  { rewrite <- (path_of_trailing elems tr).
    destruct tr; simpl andb; cbv iota.
    - now rewrite append_assoc.
    - now rewrite append_nil_r. }
  rewrite Hp.
  assert (Hall : allBytes plainByte ("wolf.sock" +:+ path_of elems tr) = true).
  { rewrite allBytes_app, (allBytes_path_of elems tr Hn). reflexivity. }
  rewrite (setPath_plain _ _ Hall). unfold fst.
  unfold URL_String, EscapedPath. cbn [RawPath Path Scheme Host OmitHost ForceQuery RawQuery].
  rewrite (escape_plain _ Hall).
  change (bool_decide ("" <> "")) with false.
  change (bool_decide ("http" <> "")) with true.
  change (bool_decide ("wolf.sock" +:+ path_of elems tr = "*")) with false.
  change (bool_decide ("wolf.sock" +:+ path_of elems tr <> "")) with true.
  transitivity ("http://wolf.sock" +:+ path_of elems tr +:+ ""); [reflexivity|].
  now rewrite append_nil_r.
Qed.

(** [url.Parse] on the string [url.JoinPath] has made. *)
Lemma url_Parse_clean (elems : list string) (tr : bool) :
  cleanPath elems tr = true ->
  url_Parse ("http://wolf.sock" +:+ path_of elems tr)
  = inl (URL.mk "http" "wolf.sock" (path_of elems tr) "").
Proof.
  unfold cleanPath. rewrite andb_true_iff. intros [Hn Hne].
  assert (Hne' : elems <> [] \/ tr = true).
  { apply orb_true_iff in Hne. destruct Hne as [Hne|Hne]; [left|right; done].
    now apply negb_true_iff, bool_decide_eq_false in Hne. }
  pose proof (allBytes_path_of elems tr Hn) as Hp.
  assert (Hall : allBytes plainByte ("http://wolf.sock" +:+ path_of elems tr) = true).
  { rewrite allBytes_app, Hp. reflexivity. }
  assert (Hrest : allBytes plainByte ("//wolf.sock" +:+ path_of elems tr) = true).
  { rewrite allBytes_app, Hp. reflexivity. }
  unfold url_Parse, Parse.
  rewrite (hasCTLByte_plain _ Hall), (ContainsByte_plain _ Hall).
  change (bool_decide ("http://wolf.sock" +:+ path_of elems tr = "*")) with false.
  change (getScheme ("http://wolf.sock" +:+ path_of elems tr))
    with (Some ("http", "//wolf.sock" +:+ path_of elems tr)).
  cbv iota beta zeta.
  change (toLower "http") with "http".
  rewrite (HasSuffix_plain _ Hrest), (Cut_plain _ Hrest).
  simpl andb. cbv iota beta zeta.
  change (String.prefix "/" ("//wolf.sock" +:+ path_of elems tr)) with true.
  change (String.prefix "//" ("//wolf.sock" +:+ path_of elems tr)) with true.
  change (bool_decide ("http" <> "")) with true.
  simpl negb. simpl andb. simpl orb. cbv iota beta zeta.
  change (from1 (from1 ("//wolf.sock" +:+ path_of elems tr)))
    with ("wolf.sock" +:+ path_of elems tr).
  rewrite (path_of_slash elems tr Hne') at 1.
  change (Cut "/" ("wolf.sock" +:+ String "/" (from1 (path_of elems tr))))
    with ("wolf.sock", from1 (path_of elems tr), true).
  cbv iota beta zeta.
  change (parseAuthority "wolf.sock") with (inl "wolf.sock" : string + error).
  change ("/" +:+ from1 (path_of elems tr)) with (String "/" (from1 (path_of elems tr))).
  rewrite <- (path_of_slash elems tr Hne').
  rewrite (setPath_plain _ _ Hp). reflexivity.
Qed.

End GoStdFacts.

(** X17. On the model of [net/url], the outbound request of a request with a
    clean path goes to the host [wolf.sock] with the inbound path and an
    empty query string. *)
Lemma clean_path_forwarded (canon : string -> string)
    (order : Header -> list (string * list string))
    (backend : Request.t -> gmap loc Header -> Response.t + error)
    (fuel : nat) (w : ResponseWriter.t) (r : Request.t) (s : store)
    (elems : list string) (tr : bool) :
  let env := mkEnv GoStd.JoinPath GoStd.url_Parse canon order backend in
  GoStd.cleanPath elems tr = true ->
  URL.Path (Request.URL r) = GoStd.path_of elems tr ->
  validMethod (method_or_GET (Request.Method r)) = true ->
  exists out,
    sent (events_of (run (@api_v1 env true fuel w r) s)) = Some out /\
    Request.URL out = URL.mk "http" "wolf.sock" (URL.Path (Request.URL r)) "".
Proof.
  intros env Hc Hpath Hm.
  assert (Ht : @target env r = inl ("http://wolf.sock" +:+ GoStd.path_of elems tr)).
  { unfold target; simpl. rewrite Hpath. now apply GoStdFacts.JoinPath_clean. }
  assert (Hp : @parsed env (Request.Method r) ("http://wolf.sock" +:+ GoStd.path_of elems tr)
               = inl (URL.mk "http" "wolf.sock" (GoStd.path_of elems tr) "")).
  { unfold parsed. rewrite Hm; simpl. now apply GoStdFacts.url_Parse_clean. }
  destruct (run (@api_v1 env true fuel w r) s) as [[t x] s'] eqn:Hrun.
  apply api_handled in Hrun. unfold events_of; simpl.
  inversion Hrun as [|e Ht'|url e Ht' Hp'|url u out s1 e Ht' Hp' Hb Hd
                    |url u out s1 resp Ht' Hp' Hb Hd Hf
                    |url u out s1 resp t' x' s2 Ht' Hp' Hb Hd Hf Hr Hv
                    |url u out s1 resp Ht' Hp' Hb Hd Hf Hv]; subst;
    rewrite Ht in Ht'; inversion Ht'; subst;
    rewrite Hp in Hp'; inversion Hp'; subst;
    rewrite sent_app by apply sending_no_Do; simpl;
    exists out; (split; [reflexivity|]);
    destruct (built_fields _ _ _ _ _ Hb) as (_ & Hu & _);
    rewrite Hu, Hpath; reflexivity.
Qed.

(** A percent sign in the inbound path is read as the start of an escape:
    the inbound path [/api/v1/a%41] becomes [/api/v1/aA]. *)
Example escape_decoded_again :
  option_map (fun q => URL.Path (Request.URL q))
    (sent (events_of
             (run (Sample.api true 0 Sample.w
                     (Request.mk "GET" (URL.mk "" "" "/api/v1/a%41" "") "HTTP/1.1" 1 1
                                 (Some 0%nat) 1%nat 0 [] "agent:443" 7%nat))
                  Sample.s0)))
  = Some "/api/v1/aA".
Proof. vm_compute. reflexivity. Qed.

(** ** Further properties of the [/api/v1/] handler *)

Section HandlerFacts.

Context {env : Env}.

Lemma count_app (f : event -> bool) (a b : list event) :
  count f (a ++ b) = (count f a + count f b)%nat.
Proof. unfold count. now rewrite List.filter_app, length_app. Qed.

Lemma count_cons (f : event -> bool) (e : event) (t : list event) :
  count f (e :: t) = ((if f e then 1 else 0) + count f t)%nat.
Proof. unfold count. simpl. now destruct (f e). Qed.

Lemma count_nil (f : event -> bool) : count f [] = 0%nat.
Proof. reflexivity. Qed.

#[local] Arguments count : simpl never.

(** Counting in a trace made of appended parts. *)
Ltac counting :=
  unfold sending, joining, received;
  repeat (rewrite ?count_app, ?count_cons, ?count_nil); simpl.

Lemma count_none (f : event -> bool) (P : event -> Prop) (t : list event) :
  (forall e, P e -> f e = false) -> Forall P t -> count f t = 0%nat.
Proof.
  intros HP. induction 1 as [|e t He _ IH]; [reflexivity|].
  unfold count in *. simpl. now rewrite (HP e He).
Qed.

Lemma count_adds (f : event -> bool) (l : list (string * list string)) :
  (forall k v, f (HeaderAdd k v) = false) -> count f (adds l) = 0%nat.
Proof.
  intros Hf. apply (count_none f (fun e => f e = false)); [done|].
  now apply adds_events.
Qed.

Lemma count_relays (f : event -> bool) w resp s t x s' :
  relays w resp s t x s' -> (forall e, relay_event e -> f e = false) ->
  count f t = 0%nat.
Proof.
  intros Hr Hf. apply (count_none f relay_event); [exact Hf|].
  exact (relays_events _ _ _ _ _ _ Hr).
Qed.

(** An event that occurs once, at the end. *)
Lemma last_occurrence (f : event -> bool) (a : list event) (x : event) :
  Forall (fun e => f e = false) a ->
  forall pre y post, a ++ [x] = pre ++ y :: post -> f y = true -> post = [].
Proof.
  induction 1 as [|e a He _ IH]; intros pre y post Heq Hy.
  - destruct pre as [|z pre]; simpl in Heq.
    + now inversion Heq.
    + inversion Heq as [[Hz Hnil]]. now destruct pre.
  - destruct pre as [|z pre]; simpl in Heq.
    + inversion Heq; subst. congruence.
    + inversion Heq; subst. eapply IH; eauto.
Qed.

Lemma no_occurrence (f : event -> bool) (t : list event) :
  Forall (fun e => f e = false) t ->
  forall pre y post, t = pre ++ y :: post -> f y = true -> False.
Proof.
  intros H pre y post -> Hy. apply Forall_app in H. destruct H as [_ H].
  inversion H; subst. congruence.
Qed.

Lemma client_status_app (a b : list event) :
  Forall (fun e => is_status e = false /\ is_Write e = false) a ->
  client_status (a ++ b) = client_status b.
Proof.
  induction 1 as [|e a [H1 H2] _ IH]; [reflexivity|].
  destruct e; simpl in *; try discriminate; exact IH.
Qed.

Lemma relay_not_Do (t : list event) :
  Forall relay_event t -> Forall (fun e => is_ClientDo e = false) t.
Proof. apply List.Forall_impl. intros []; simpl; tauto. Qed.

(** What follows [client.Do] holds no further [client.Do]. *)
Lemma written_back_no_Do w resp s t x s' (h : Header) :
  relays w resp s t x s' ->
  Forall (fun e => is_ClientDo e = false)
         (adds (range_order (Response.Header resp)) ++
          WriteHeader (Response.StatusCode resp) h :: t ++ closing resp x).
Proof.
  intros Hr. apply Forall_app. split; [now apply adds_events|].
  constructor; [done|]. apply Forall_app. split; [|apply closing_no_Do].
  apply relay_not_Do. exact (relays_events _ _ _ _ _ _ Hr).
Qed.

(** X1. When [client.Do] fails the handler reports the failure with the
    status 500 and the text of the error, and returns: nothing was sent
    to the client before, no header of a response is copied, and no
    response body is read or closed. *)
Theorem backend_failure (ready : bool) (fuel : nat) (w : ResponseWriter.t) (r : Request.t)
    (s : store) (out : Request.t) (e : error) :
  In (ClientDo out None (Some e)) (events_of (run (api_v1 ready fuel w r) s)) ->
  (exists pre,
      events_of (run (api_v1 ready fuel w r) s)
      = pre ++ [ClientDo out None (Some e);
                Log ERROR [AErr (Some e); AStr "Failed to send request to wolf.sock"];
                HttpError (error_msg e) StatusInternalServerError] /\
      Forall (fun e' => silent e' = true) pre) /\
  client_status (events_of (run (api_v1 ready fuel w r) s)) = Some StatusInternalServerError /\
  exit_of_run (run (api_v1 ready fuel w r) s) = Returned.
Proof.
  destruct (run (api_v1 ready fuel w r) s) as [[t x] s'] eqn:Hrun.
  apply api_handled in Hrun. unfold events_of, exit_of_run; simpl. intros Hin.
  destruct Hrun as [|e0 Ht|url e0 Ht Hp|url u out0 s1 e0 Ht Hp Hb Hd
                   |url u out0 s1 resp Ht Hp Hb Hd Hf
                   |url u out0 s1 resp t x s2 Ht Hp Hb Hd Hf Hr Hv
                   |url u out0 s1 resp Ht Hp Hb Hd Hf Hv].
  - simpl in Hin. intuition discriminate.
  - simpl in Hin. intuition discriminate.
  - simpl in Hin. intuition discriminate.
  - apply in_app_or in Hin. destruct Hin as [Hin|Hin].
    { exfalso. exact (no_Do_In _ _ _ _ (sending_no_Do r url out0) Hin). }
    simpl in Hin. destruct Hin as [Heq|[Heq|[Heq|[]]]]; try discriminate.
    inversion Heq; subst. split; [|split; [|reflexivity]].
    + eexists. split; [reflexivity|]. repeat constructor.
    + rewrite client_status_app by (repeat constructor). reflexivity.
  - exfalso. apply in_app_or in Hin. destruct Hin as [Hin|Hin].
    { exact (no_Do_In _ _ _ _ (sending_no_Do r url out0) Hin). }
    destruct Hin as [Heq|Hin]; [discriminate|].
    refine (no_Do_In _ _ _ _ _ Hin).
    apply Forall_app. split; [now apply adds_events | repeat constructor].
  - exfalso. apply in_app_or in Hin. destruct Hin as [Hin|Hin].
    { exact (no_Do_In _ _ _ _ (sending_no_Do r url out0) Hin). }
    destruct Hin as [Heq|Hin]; [discriminate|].
    exact (no_Do_In _ _ _ _ (written_back_no_Do _ _ _ _ _ _ _ Hr) Hin).
  - exfalso. apply in_app_or in Hin. destruct Hin as [Hin|Hin].
    { exact (no_Do_In _ _ _ _ (sending_no_Do r url out0) Hin). }
    destruct Hin as [Heq|Hin]; [discriminate|].
    refine (no_Do_In _ _ _ _ _ Hin).
    apply Forall_app. split; [now apply adds_events | repeat constructor].
Qed.


Lemma existsb_none (f : event -> bool) (t : list event) :
  Forall (fun e => f e = false) t -> existsb f t = false.
Proof. induction 1 as [|e t He _ IH]; simpl; [reflexivity | now rewrite He, IH]. Qed.

Lemma relays_no_close w resp s t x s' :
  relays w resp s t x s' -> count is_BodyClose t = 0%nat.
Proof. intros Hr. apply (count_relays _ _ _ _ _ _ _ Hr). intros []; simpl; tauto. Qed.

(** X3. The body of a response is closed once, as the last thing the handler
    does, whenever [client.Do] returned a response and the handler has
    come to its end (by a return or by a panic); it is never closed
    otherwise. *)
Theorem body_closed_once (ready : bool) (fuel : nat) (w : ResponseWriter.t) (r : Request.t)
    (s : store) :
  count is_BodyClose (events_of (run (api_v1 ready fuel w r) s))
  = (if existsb is_response (events_of (run (api_v1 ready fuel w r) s))
        && negb (is_running (exit_of_run (run (api_v1 ready fuel w r) s)))
     then 1%nat else 0%nat) /\
  (count is_BodyClose (events_of (run (api_v1 ready fuel w r) s)) = 1%nat ->
   exists pre, events_of (run (api_v1 ready fuel w r) s) = pre ++ [BodyClose]).
Proof.
  destruct (run (api_v1 ready fuel w r) s) as [[t x] s'] eqn:Hrun.
  apply api_handled in Hrun. unfold events_of, exit_of_run; simpl.
  destruct Hrun as [|e0 Ht|url e0 Ht Hp|url u out0 s1 e0 Ht Hp Hb Hd
                   |url u out0 s1 resp0 Ht Hp Hb Hd Hf
                   |url u out0 s1 resp0 t x s2 Ht Hp Hb Hd Hf Hr Hv
                   |url u out0 s1 resp0 Ht Hp Hb Hd Hf Hv].
  - split; [reflexivity | discriminate].
  - split; [reflexivity | discriminate].
  - split; [reflexivity | discriminate].
  - split; [reflexivity | discriminate].
  - split.
    + counting. now rewrite count_adds.
    + intros _.
      exists (sending r url out0 ++ ClientDo out0 (Some resp0) None ::
              adds (range_order (Response.Header resp0)) ++
              [WriteHeader (Response.StatusCode resp0)
                 (copied (wh s1) (range_order (Response.Header resp0)));
               Log ERROR [AStr "Flushing not supported! Aborting writing response"]]).
      rewrite <- !app_assoc. simpl. rewrite <- !app_assoc. reflexivity.
  - assert (Hc : count is_BodyClose
                   (sending r url out0 ++ ClientDo out0 (Some resp0) None ::
                    adds (range_order (Response.Header resp0)) ++
                    WriteHeader (Response.StatusCode resp0)
                      (copied (wh s1) (range_order (Response.Header resp0))) ::
                    t ++ closing resp0 x)
                 = count is_BodyClose (closing resp0 x)).
    { counting. now rewrite count_adds, (relays_no_close _ _ _ _ _ _ Hr). }
    rewrite Hc. unfold sending, joining, received. simpl.
    destruct x as [[]|[| |]]; simpl; (split; [reflexivity|]); try discriminate; intros _.
    + exists (sending r url out0 ++ ClientDo out0 (Some resp0) None ::
              adds (range_order (Response.Header resp0)) ++
              WriteHeader (Response.StatusCode resp0)
                (copied (wh s1) (range_order (Response.Header resp0))) ::
              t ++ [Log INFO [AStr "Request completed"; AStr "statusCode";
                              AInt (Response.StatusCode resp0)]]).
      rewrite <- !app_assoc. simpl. rewrite <- !app_assoc. simpl.
      rewrite <- !app_assoc. reflexivity.
    + exists (sending r url out0 ++ ClientDo out0 (Some resp0) None ::
              adds (range_order (Response.Header resp0)) ++
              WriteHeader (Response.StatusCode resp0)
                (copied (wh s1) (range_order (Response.Header resp0))) :: t).
      rewrite <- !app_assoc. simpl. rewrite <- !app_assoc. reflexivity.
    + exists (sending r url out0 ++ ClientDo out0 (Some resp0) None ::
              adds (range_order (Response.Header resp0)) ++
              WriteHeader (Response.StatusCode resp0)
                (copied (wh s1) (range_order (Response.Header resp0))) :: t).
      rewrite <- !app_assoc. simpl. rewrite <- !app_assoc. reflexivity.
  - split.
    + counting. now rewrite count_adds.
    + intros _.
      exists (sending r url out0 ++ ClientDo out0 (Some resp0) None ::
              adds (range_order (Response.Header resp0))).
      rewrite <- !app_assoc. reflexivity.
Qed.

(** The relay loop panics in one way only: on a read that returned more
    bytes than the buffer holds. *)
Lemma relays_panic w resp s t x s' :
  relays w resp s t x s' ->
  forall m, x = inr (Panicked m) ->
    m = slice_out_of_range /\
    exists data err, In (BodyRead bufSize data err) t /\ bufSize < Z.of_nat (length data).
Proof.
  induction 1 as [s|s data err Hb Hn|s data err e Hb Hn Hw|s data Hb Hd
                 |s data msg Hb Hd|s data t r s' Hb Hd Hr IH]; intros m Hm;
    try discriminate.
  - inversion Hm; subst. split; [reflexivity|]. exists data, err. simpl. auto.
  - destruct (IH m Hm) as (-> & data' & err' & Hin & Hlen).
    split; [reflexivity|]. exists data', err'. split; [|exact Hlen].
    right. apply in_or_app. now right.
Qed.

(** X4. The handler sends one status to the client, never two, and it
    sends none in two cases only: when it panics on the nil request, and
    when it panics in [WriteHeader], which refuses the status of the
    backend's response. *)
Theorem answered_once (ready : bool) (fuel : nat) (w : ResponseWriter.t) (r : Request.t)
    (s : store) :
  (count is_status (events_of (run (api_v1 ready fuel w r) s)) <= 1)%nat /\
  (count is_status (events_of (run (api_v1 ready fuel w r) s)) = 0%nat <->
   exit_of_run (run (api_v1 ready fuel w r) s) = Panicked nil_dereference \/
   exists out resp,
     In (ClientDo out (Some resp) None) (events_of (run (api_v1 ready fuel w r) s)) /\
     invalid_code (Response.StatusCode resp) = true /\
     ResponseWriter.Flusher w = true /\
     exit_of_run (run (api_v1 ready fuel w r) s)
     = Panicked (invalid_WriteHeader_code (Response.StatusCode resp))).
Proof.
  assert (Hne : forall code, Panicked slice_out_of_range
                             <> Panicked (invalid_WriteHeader_code code))
    by (intros code; unfold slice_out_of_range, invalid_WriteHeader_code; discriminate).
  destruct (run (api_v1 ready fuel w r) s) as [[t x] s'] eqn:Hrun.
  apply api_handled in Hrun. unfold events_of, exit_of_run; simpl.
  destruct Hrun as [|e0 Ht|url e0 Ht Hp|url u out0 s1 e0 Ht Hp Hb Hd
                   |url u out0 s1 resp0 Ht Hp Hb Hd Hf
                   |url u out0 s1 resp0 t x s2 Ht Hp Hb Hd Hf Hr Hv
                   |url u out0 s1 resp0 Ht Hp Hb Hd Hf Hv].
  - counting. split; [lia|]. split; [discriminate|].
    intros [H|(out & resp & _ & _ & _ & H)]; discriminate.
  - counting. split; [lia|]. split; [discriminate|].
    intros [H|(out & resp & _ & _ & _ & H)]; discriminate.
  - counting. split; [lia|]. split; [now left|reflexivity].
  - counting. split; [lia|]. split; [discriminate|].
    intros [H|(out & resp & _ & _ & _ & H)]; discriminate.
  - counting. rewrite count_adds by done. simpl. split; [lia|]. split; [discriminate|].
    intros [H|(out & resp & _ & _ & _ & H)]; discriminate.
  - counting. rewrite count_adds by done.
    rewrite (count_relays is_status _ _ _ _ _ _ Hr) by (intros []; simpl; tauto).
    assert (Hc : count is_status (closing resp0 x) = 0%nat)
      by (destruct x as [[]|[| |]]; reflexivity).
    rewrite Hc. simpl. split; [lia|]. split; [discriminate|].
    intros [Hx|(out & resp & _ & _ & _ & Hx)]; destruct x as [[]|[|m|]]; try discriminate;
      destruct (relays_panic _ _ _ _ _ _ Hr m eq_refl) as [-> _]; simpl in Hx.
    + discriminate.
    + now apply Hne in Hx.
  - assert (Hin : In (ClientDo out0 (Some resp0) None)
                     (sending r url out0 ++ ClientDo out0 (Some resp0) None ::
                      adds (range_order (Response.Header resp0)) ++ [BodyClose]))
      by (apply in_or_app; right; now left).
    revert Hin. counting. rewrite count_adds by done. simpl. intros Hin.
    split; [lia|]. split; [|reflexivity].
    intros _. right. exists out0, resp0. auto.
Qed.

(** X5. For one inbound request the handler loads the readiness flag once,
    joins the URL at most once and only when the flag is true, builds at
    most one request and calls the backend at most once, each only when
    the step before it was made: there is no retry. *)
Theorem single_attempt (ready : bool) (fuel : nat) (w : ResponseWriter.t) (r : Request.t)
    (s : store) :
  count is_ReadyLoad (events_of (run (api_v1 ready fuel w r) s)) = 1%nat /\
  count is_JoinPath (events_of (run (api_v1 ready fuel w r) s))
    = (if ready then 1%nat else 0%nat) /\
  (count is_NewRequest (events_of (run (api_v1 ready fuel w r) s))
   <= count is_JoinPath (events_of (run (api_v1 ready fuel w r) s)))%nat /\
  (count is_ClientDo (events_of (run (api_v1 ready fuel w r) s))
   <= count is_NewRequest (events_of (run (api_v1 ready fuel w r) s)))%nat.
Proof.
  destruct (run (api_v1 ready fuel w r) s) as [[t x] s'] eqn:Hrun.
  apply api_handled in Hrun. unfold events_of; simpl.
  destruct Hrun as [|e0 Ht|url e0 Ht Hp|url u out0 s1 e0 Ht Hp Hb Hd
                   |url u out0 s1 resp0 Ht Hp Hb Hd Hf
                   |url u out0 s1 resp0 t x s2 Ht Hp Hb Hd Hf Hr Hv
                   |url u out0 s1 resp0 Ht Hp Hb Hd Hf Hv].
  - counting. repeat split; lia.
  - counting. repeat split; lia.
  - counting. repeat split; lia.
  - counting. repeat split; lia.
  - counting. rewrite !count_adds by done. simpl. repeat split; lia.
  - assert (Hc : forall f, (forall e, relay_event e -> f e = false) ->
                           f BodyClose = false ->
                           count f (closing resp0 x) = 0%nat).
    { intros f Hev Hcl. destruct x as [[]|[| |]]; simpl; rewrite ?count_cons, ?count_nil;
        rewrite ?Hcl, ?(Hev (Log INFO _) I); reflexivity. }
    counting. rewrite !count_adds by done.
    rewrite !(count_relays _ _ _ _ _ _ _ Hr) by (intros []; simpl; tauto).
    rewrite !Hc by (try reflexivity; intros []; simpl; tauto).
    simpl. repeat split; lia.
  - counting. rewrite !count_adds by done. simpl. repeat split; lia.
Qed.

(** *** The bytes of the stream *)

Lemma bytes_read_app (a b : list event) :
  bytes_read (a ++ b) = bytes_read a ++ bytes_read b.
Proof.
  induction a as [|e a IH]; [reflexivity|].
  destruct e; simpl; rewrite IH; try reflexivity. now rewrite app_assoc.
Qed.

Lemma bytes_written_app (a b : list event) :
  bytes_written (a ++ b) = bytes_written a ++ bytes_written b.
Proof.
  induction a as [|e a IH]; [reflexivity|].
  destruct e as [| | | | | | | | | | | | | | | | |d [er|]|]; simpl; rewrite IH;
    try reflexivity. now rewrite app_assoc.
Qed.

(** A part of a trace without reads and writes. *)
Lemma no_bytes (t : list event) :
  Forall (fun e => is_BodyRead e = false /\ is_Write e = false) t ->
  bytes_read t = [] /\ bytes_written t = [] /\ reads t = [] /\
  count write_failed t = 0%nat.
Proof.
  induction 1 as [|e t [H1 H2] _ (I1 & I2 & I3 & I4)]; [repeat split|].
  destruct e; simpl in *; try discriminate; rewrite ?count_cons; simpl; auto.
Qed.

Lemma delivery_bytes (data : list byte) :
  bytes_read (delivery data) = [] /\ bytes_written (delivery data) = data /\
  reads (delivery data) = [] /\ count write_failed (delivery data) = 0%nat.
Proof.
  unfold delivery. destruct (0 <? Z.of_nat (length data)) eqn:Hn; simpl.
  - rewrite app_nil_r. auto.
  - destruct data as [|b data]; [auto|].
    apply Z.ltb_ge in Hn. cbn [length] in Hn. lia.
Qed.

Lemma relays_bytes w resp s t x s' :
  relays w resp s t x s' ->
  (exists rest, bytes_read t = bytes_written t ++ rest) /\
  (count write_failed t = 0%nat -> (forall m, x <> inr (Panicked m)) ->
   bytes_written t = bytes_read t).
Proof.
  induction 1 as [s|s data err Hb Hn|s data err e Hb Hn Hw|s data Hb Hd
                 |s data msg Hb Hd|s data t r s' Hb Hd Hr [[rest IH1] IH2]].
  - split; [now exists [] | reflexivity].
  - split; [eexists; reflexivity|]. intros _ Hx. now specialize (Hx slice_out_of_range).
  - split; [eexists; reflexivity|]. rewrite !count_cons. simpl. discriminate.
  - destruct (delivery_bytes data) as (D1 & D2 & _ & _). simpl. rewrite D1, D2, app_nil_r.
    split; [exists []; now rewrite app_nil_r | reflexivity].
  - destruct (delivery_bytes data) as (D1 & D2 & _ & _). simpl.
    rewrite bytes_read_app, bytes_written_app, D1, D2. simpl. rewrite !app_nil_r.
    split; [exists []; now rewrite app_nil_r | reflexivity].
  - destruct (delivery_bytes data) as (D1 & D2 & _ & D4). simpl.
    rewrite bytes_read_app, bytes_written_app, D1, D2. simpl. split.
    + exists rest. now rewrite IH1, app_assoc.
    + rewrite count_cons, count_app, D4. simpl. intros Hc Hx. now rewrite IH2.
Qed.

Lemma closing_bytes (resp : Response.t) (x : unit + exit) :
  Forall (fun e => is_BodyRead e = false /\ is_Write e = false) (closing resp x).
Proof. destruct x as [|[| |]]; simpl; repeat constructor. Qed.

Lemma sending_bytes (r : Request.t) (url : string) (out : Request.t) :
  Forall (fun e => is_BodyRead e = false /\ is_Write e = false) (sending r url out).
Proof. repeat constructor. Qed.

(** X6. The client receives the bytes of the backend's body, in order and
    without a gap: the bytes of the successful writes are a prefix of the
    bytes read, and they are all the bytes read unless a write failed or
    a read returned more than the buffer holds. *)
Theorem stream_integrity (ready : bool) (fuel : nat) (w : ResponseWriter.t) (r : Request.t)
    (s : store) :
  (exists rest,
      bytes_read (events_of (run (api_v1 ready fuel w r) s))
      = bytes_written (events_of (run (api_v1 ready fuel w r) s)) ++ rest) /\
  (count write_failed (events_of (run (api_v1 ready fuel w r) s)) = 0%nat ->
   is_panic (exit_of_run (run (api_v1 ready fuel w r) s)) = false ->
   bytes_written (events_of (run (api_v1 ready fuel w r) s))
   = bytes_read (events_of (run (api_v1 ready fuel w r) s))).
Proof.
  destruct (run (api_v1 ready fuel w r) s) as [[t x] s'] eqn:Hrun.
  apply api_handled in Hrun. unfold events_of, exit_of_run; simpl.
  destruct Hrun as [|e0 Ht|url e0 Ht Hp|url u out0 s1 e0 Ht Hp Hb Hd
                   |url u out0 s1 resp0 Ht Hp Hb Hd Hf
                   |url u out0 s1 resp0 t x s2 Ht Hp Hb Hd Hf Hr Hv
                   |url u out0 s1 resp0 Ht Hp Hb Hd Hf Hv];
    try (split; [now exists [] | reflexivity]).
  - assert (Hq : Forall (fun e => is_BodyRead e = false /\ is_Write e = false)
                   (sending r url out0 ++ ClientDo out0 (Some resp0) None ::
                    adds (range_order (Response.Header resp0)) ++
                    [WriteHeader (Response.StatusCode resp0)
                       (copied (wh s1) (range_order (Response.Header resp0)));
                     Log ERROR [AStr "Flushing not supported! Aborting writing response"];
                     BodyClose])).
    { apply Forall_app. split; [apply sending_bytes|]. constructor; [done|].
      apply Forall_app. split; [now apply adds_events | repeat constructor]. }
    destruct (no_bytes _ Hq) as (-> & -> & _). split; [now exists [] | reflexivity].
  - assert (Hq : Forall (fun e => is_BodyRead e = false /\ is_Write e = false)
                   (sending r url out0 ++ ClientDo out0 (Some resp0) None ::
                    adds (range_order (Response.Header resp0)) ++
                    [WriteHeader (Response.StatusCode resp0)
                       (copied (wh s1) (range_order (Response.Header resp0)))])).
    { apply Forall_app. split; [apply sending_bytes|]. constructor; [done|].
      apply Forall_app. split; [now apply adds_events | repeat constructor]. }
    destruct (no_bytes _ Hq) as (Q1 & Q2 & _ & Q4).
    destruct (no_bytes _ (closing_bytes resp0 x)) as (C1 & C2 & _ & C4).
    destruct (relays_bytes _ _ _ _ _ _ Hr) as [[rest R1] R2].
    assert (Heq : sending r url out0 ++ ClientDo out0 (Some resp0) None ::
                  adds (range_order (Response.Header resp0)) ++
                  WriteHeader (Response.StatusCode resp0)
                    (copied (wh s1) (range_order (Response.Header resp0))) ::
                  t ++ closing resp0 x
                  = (sending r url out0 ++ ClientDo out0 (Some resp0) None ::
                     adds (range_order (Response.Header resp0)) ++
                     [WriteHeader (Response.StatusCode resp0)
                        (copied (wh s1) (range_order (Response.Header resp0)))])
                    ++ t ++ closing resp0 x).
    { rewrite <- !app_assoc. simpl. rewrite <- !app_assoc. reflexivity. }
    rewrite Heq. clear Heq.
    set (hd := sending r url out0 ++ _) in *.
    rewrite (bytes_read_app hd), (bytes_written_app hd), (count_app _ hd),
      (bytes_read_app t), (bytes_written_app t), (count_app _ t), Q1, Q2, Q4, C1, C2, C4.
    simpl. rewrite !app_nil_r, Nat.add_0_r. split; [now exists rest|].
    intros Hc Hx. apply R2; [exact Hc|]. intros m ->. discriminate.
  - assert (Hq : Forall (fun e => is_BodyRead e = false /\ is_Write e = false)
                   (sending r url out0 ++ ClientDo out0 (Some resp0) None ::
                    adds (range_order (Response.Header resp0)) ++ [BodyClose])).
    { apply Forall_app. split; [apply sending_bytes|]. constructor; [done|].
      apply Forall_app. split; [now apply adds_events | repeat constructor]. }
    destruct (no_bytes _ Hq) as (-> & -> & _). split; [now exists [] | reflexivity].
Qed.

Lemma relays_reads w resp s t x s' :
  relays w resp s t x s' ->
  reads t = map (Response.Body resp) (seq (nreads s) (length (reads t))) /\
  nreads s' = (nreads s + length (reads t))%nat.
Proof.
  induction 1 as [s|s data err Hb Hn|s data err e Hb Hn Hw|s data Hb Hd
                 |s data msg Hb Hd|s data t r s' Hb Hd Hr [IH1 IH2]]; simpl.
  - split; [reflexivity | lia].
  - rewrite Hb. split; [reflexivity | lia].
  - rewrite Hb. split; [reflexivity | lia].
  - destruct (delivery_bytes data) as (_ & _ & D3 & _). rewrite D3, Hb. simpl.
    split; [reflexivity | lia].
  - destruct (delivery_bytes data) as (_ & _ & D3 & _). rewrite reads_app, D3, Hb. simpl.
    split; [reflexivity | lia].
  - destruct (delivery_bytes data) as (_ & _ & D3 & _). rewrite reads_app, D3, Hb. simpl.
    simpl in IH1, IH2. rewrite <- IH1. split; [reflexivity | lia].
Qed.

Lemma built_nreads (r : Request.t) (u : URL.t) (s : store) (out : Request.t) (s1 : store) :
  built r u s = (out, s1) -> nreads s1 = nreads s.
Proof.
  unfold built, constructed, cloned.
  destruct (Request.Header r); intros H; inversion H; subst; reflexivity.
Qed.

(** X7. The handler reads the body of the response from where it stands, one
    read after the other: the [k]-th read of the handler is the next
    answer of the body, none is skipped and none is asked for twice. *)
Theorem reads_in_order (ready : bool) (fuel : nat) (w : ResponseWriter.t) (r : Request.t)
    (s : store) (out : Request.t) (resp : Response.t) :
  In (ClientDo out (Some resp) None) (events_of (run (api_v1 ready fuel w r) s)) ->
  reads (events_of (run (api_v1 ready fuel w r) s))
  = map (Response.Body resp)
        (seq (nreads s) (length (reads (events_of (run (api_v1 ready fuel w r) s))))) /\
  nreads (store_of (run (api_v1 ready fuel w r) s))
  = (nreads s + length (reads (events_of (run (api_v1 ready fuel w r) s))))%nat.
Proof.
  destruct (run (api_v1 ready fuel w r) s) as [[t x] s'] eqn:Hrun.
  apply api_handled in Hrun. unfold events_of, store_of; simpl. intros Hin.
  destruct Hrun as [|e0 Ht|url e0 Ht Hp|url u out0 s1 e0 Ht Hp Hb Hd
                   |url u out0 s1 resp0 Ht Hp Hb Hd Hf
                   |url u out0 s1 resp0 t x s2 Ht Hp Hb Hd Hf Hr Hv
                   |url u out0 s1 resp0 Ht Hp Hb Hd Hf Hv].
  - simpl in Hin. intuition discriminate.
  - simpl in Hin. intuition discriminate.
  - simpl in Hin. intuition discriminate.
  - exfalso. apply in_app_or in Hin. destruct Hin as [Hin|Hin].
    { exact (no_Do_In _ _ _ _ (sending_no_Do r url out0) Hin). }
    simpl in Hin. intuition discriminate.
  - assert (Hq : Forall (fun e => is_BodyRead e = false /\ is_Write e = false)
                   (sending r url out0 ++ ClientDo out0 (Some resp0) None ::
                    adds (range_order (Response.Header resp0)) ++
                    [WriteHeader (Response.StatusCode resp0)
                       (copied (wh s1) (range_order (Response.Header resp0)));
                     Log ERROR [AStr "Flushing not supported! Aborting writing response"];
                     BodyClose])).
    { apply Forall_app. split; [apply sending_bytes|]. constructor; [done|].
      apply Forall_app. split; [now apply adds_events | repeat constructor]. }
    destruct (no_bytes _ Hq) as (_ & _ & -> & _). simpl.
    rewrite (built_nreads _ _ _ _ _ Hb). split; [reflexivity | lia].
  - apply in_app_or in Hin. destruct Hin as [Hin|Hin].
    { exfalso. exact (no_Do_In _ _ _ _ (sending_no_Do r url out0) Hin). }
    destruct Hin as [Heq|Hin].
    2:{ exfalso. exact (no_Do_In _ _ _ _ (written_back_no_Do _ _ _ _ _ _ _ Hr) Hin). }
    inversion Heq; subst.
    assert (Hq : Forall (fun e => is_BodyRead e = false /\ is_Write e = false)
                   (sending r url out ++ ClientDo out (Some resp) None ::
                    adds (range_order (Response.Header resp)) ++
                    [WriteHeader (Response.StatusCode resp)
                       (copied (wh s1) (range_order (Response.Header resp)))])).
    { apply Forall_app. split; [apply sending_bytes|]. constructor; [done|].
      apply Forall_app. split; [now apply adds_events | repeat constructor]. }
    destruct (no_bytes _ Hq) as (_ & _ & Q3 & _).
    destruct (no_bytes _ (closing_bytes resp x)) as (_ & _ & C3 & _).
    destruct (relays_reads _ _ _ _ _ _ Hr) as [R1 R2]. simpl in R1, R2.
    rewrite (built_nreads _ _ _ _ _ Hb) in R1, R2.
    assert (Heq' : sending r url out ++ ClientDo out (Some resp) None ::
                  adds (range_order (Response.Header resp)) ++
                  WriteHeader (Response.StatusCode resp)
                    (copied (wh s1) (range_order (Response.Header resp))) ::
                  t ++ closing resp x
                  = (sending r url out ++ ClientDo out (Some resp) None ::
                     adds (range_order (Response.Header resp)) ++
                     [WriteHeader (Response.StatusCode resp)
                        (copied (wh s1) (range_order (Response.Header resp)))])
                    ++ t ++ closing resp x).
    { rewrite <- !app_assoc. simpl. rewrite <- !app_assoc. reflexivity. }
    rewrite Heq'. clear Heq'.
    set (hd := sending r url out ++ _) in *.
    rewrite (reads_app hd), (reads_app t), Q3, C3, app_nil_r. simpl. split; assumption.
  - assert (Hq : Forall (fun e => is_BodyRead e = false /\ is_Write e = false)
                   (sending r url out0 ++ ClientDo out0 (Some resp0) None ::
                    adds (range_order (Response.Header resp0)) ++ [BodyClose])).
    { apply Forall_app. split; [apply sending_bytes|]. constructor; [done|].
      apply Forall_app. split; [now apply adds_events | repeat constructor]. }
    destruct (no_bytes _ Hq) as (_ & _ & -> & _). simpl.
    rewrite (built_nreads _ _ _ _ _ Hb). split; [reflexivity | lia].
Qed.

(** *** The header maps of the store *)

Lemma built_frame (r : Request.t) (u : URL.t) (s : store) (out : Request.t) (s1 : store) :
  built r u s = (out, s1) ->
  forall l h, hdrs s !! l = Some h -> hdrs s1 !! l = Some h.
Proof.
  unfold built, constructed, cloned. intros H l h Hl.
  assert (Hl0 : hdrs (allocated s ∅) !! l = Some h).
  { destruct (fresh_loc_allocated s ∅ l) as [_ ->]; [now rewrite Hl | exact Hl]. }
  destruct (Request.Header r) as [l0|]; inversion H; subst; [|exact Hl0].
  destruct (fresh_loc_allocated (allocated s ∅)
              (default ∅ (hdrs (allocated s ∅) !! l0)) l) as [_ Hl1];
    [now rewrite Hl0|].
  rewrite Hl0 in Hl1. exact Hl1.
Qed.

(** X8. The handler writes to no header map that exists when it starts: the
    maps of the inbound request, and every other map of the store, hold
    at the end what they held at the start. *)
Theorem inbound_headers_untouched (ready : bool) (fuel : nat) (w : ResponseWriter.t)
    (r : Request.t) (s : store) (l : loc) (h : Header) :
  hdrs s !! l = Some h ->
  hdrs (store_of (run (api_v1 ready fuel w r) s)) !! l = Some h.
Proof.
  intros Hl.
  destruct (run (api_v1 ready fuel w r) s) as [[t x] s'] eqn:Hrun.
  apply api_handled in Hrun. unfold store_of; simpl.
  destruct Hrun as [|e0 Ht|url e0 Ht Hp|url u out0 s1 e0 Ht Hp Hb Hd
                   |url u out0 s1 resp0 Ht Hp Hb Hd Hf
                   |url u out0 s1 resp0 t x s2 Ht Hp Hb Hd Hf Hr Hv
                   |url u out0 s1 resp0 Ht Hp Hb Hd Hf Hv];
    try exact Hl.
  - exact (built_frame _ _ _ _ _ Hb l h Hl).
  - exact (built_frame _ _ _ _ _ Hb l h Hl).
  - destruct (relays_store _ _ _ _ _ _ Hr) as [-> _]. simpl.
    exact (built_frame _ _ _ _ _ Hb l h Hl).
  - exact (built_frame _ _ _ _ _ Hb l h Hl).
Qed.

(** X9. The outbound request runs under the context of the inbound request,
    so that it is cancelled with it; its host is the host of the joined
    URL, not the host the client asked for: the handler does not read
    the host of the inbound request at all. *)
Theorem context_forwarded (ready : bool) (fuel : nat) (w : ResponseWriter.t) (r : Request.t)
    (s : store) :
  (forall out,
      sent (events_of (run (api_v1 ready fuel w r) s)) = Some out ->
      Request.Ctx out = Request.Ctx r /\
      exists url u,
        target r = inl url /\ url_Parse url = inl u /\
        Request.Host out = removeEmptyPort (URL.Host u)) /\
  (forall h, run (api_v1 ready fuel w (with_Host h r)) s = run (api_v1 ready fuel w r) s).
Proof.
  split; [|reflexivity]. intros out Hs.
  destruct (run (api_v1 ready fuel w r) s) as [[t x] s'] eqn:Hrun.
  apply api_handled, handled_sent in Hrun. unfold events_of in Hs; simpl in Hs.
  rewrite Hs in Hrun. destruct Hrun as (url & u & s1 & _ & Ht & Hp & Hb & _).
  apply parsed_inl in Hp. destruct Hp as [_ Hp].
  unfold built, constructed in Hb. destruct (cloned r (allocated s ∅)) as [clone s2].
  inversion Hb; subst. simpl. split; [reflexivity|]. eauto.
Qed.

(** X10. The handler panics in three cases only: [http.NewRequest]
    returned an error, and the handler writes through the nil request;
    [WriteHeader] refuses the status of the backend's response (a code
    outside 100..999, on a writer of net/http); or a read of the body
    returned more bytes than the buffer holds. *)
Theorem panics_only_when (ready : bool) (fuel : nat) (w : ResponseWriter.t) (r : Request.t)
    (s : store) (m : string) :
  exit_of_run (run (api_v1 ready fuel w r) s) = Panicked m ->
  (m = nil_dereference /\ ready = true /\
   exists url e, target r = inl url /\ parsed (Request.Method r) url = inr e) \/
  (exists out resp,
     m = invalid_WriteHeader_code (Response.StatusCode resp) /\
     In (ClientDo out (Some resp) None) (events_of (run (api_v1 ready fuel w r) s)) /\
     invalid_code (Response.StatusCode resp) = true /\
     ResponseWriter.Flusher w = true) \/
  (m = slice_out_of_range /\
   exists data err,
     In (BodyRead bufSize data err) (events_of (run (api_v1 ready fuel w r) s)) /\
     bufSize < Z.of_nat (length data)).
Proof.
  destruct (run (api_v1 ready fuel w r) s) as [[t x] s'] eqn:Hrun.
  apply api_handled in Hrun. unfold events_of, exit_of_run; simpl. intros Hx.
  destruct Hrun as [|e0 Ht|url e0 Ht Hp|url u out0 s1 e0 Ht Hp Hb Hd
                   |url u out0 s1 resp0 Ht Hp Hb Hd Hf
                   |url u out0 s1 resp0 t x s2 Ht Hp Hb Hd Hf Hr Hv
                   |url u out0 s1 resp0 Ht Hp Hb Hd Hf Hv];
    try discriminate.
  - inversion Hx; subst. left. eauto 10.
  - right. right. destruct x as [[]|x]; simpl in Hx; [discriminate|]. subst x.
    destruct (relays_panic _ _ _ _ _ _ Hr m eq_refl) as (-> & data & err & Hin & Hlen).
    split; [reflexivity|]. exists data, err. split; [|exact Hlen].
    apply in_or_app. right. right. apply in_or_app. right. right.
    apply in_or_app. now left.
  - inversion Hx; subst. right. left. exists out0, resp0.
    split; [reflexivity|]. split; [|auto]. apply in_or_app. right. now left.
Qed.

End HandlerFacts.

(** ** Further properties of the monitor *)

Section MonitorMore.

Variable wolfSocketPath : string.
Variable serverPort : Z.

#[local] Arguments count : simpl never.

(** An iteration ends the goroutine with success exactly when the
    backend accepts, and goes on exactly when the backend is not there
    yet. *)
Lemma monitor_iter_verdict (p : Probe) :
  ((monitor_iter wolfSocketPath serverPort p).2 = Done <-> accepts p = true) /\
  ((monitor_iter wolfSocketPath serverPort p).2 = Continue <-> waits p = true).
Proof.
  unfold monitor_iter, accepts, waits, is_socket.
  destruct p as [[mode|] [e|] [d|]]; simpl;
    try destruct (Z.land mode ModeSocket =? 0); simpl;
    split; split; intros H; try discriminate; reflexivity.
Qed.

(** What one iteration does, by its verdict: it asks [os.Stat] once, and
    it sleeps, for 200 ms, exactly when the loop goes on. *)
Lemma monitor_iter_paced (p : Probe) :
  count is_Stat (monitor_iter wolfSocketPath serverPort p).1 = 1%nat /\
  count is_Sleep (monitor_iter wolfSocketPath serverPort p).1
    = (match (monitor_iter wolfSocketPath serverPort p).2 with
       | Continue => 1%nat
       | _ => 0%nat
       end) /\
  Forall (fun e => forall ms, e = Sleep ms -> ms = 200)
         (monitor_iter wolfSocketPath serverPort p).1.
Proof.
  unfold monitor_iter, retry_interval_ms.
  destruct p as [[mode|] [e|] [d|]]; simpl;
    try destruct (Z.land mode ModeSocket =? 0); simpl;
    (split; [reflexivity|]); (split; [reflexivity|]);
    repeat (constructor; [congruence|]); constructor.
Qed.

Lemma monitor_iter_accepts (p : Probe) :
  accepts p = true ->
  monitor_iter wolfSocketPath serverPort p
  = ([Stat wolfSocketPath; Dial "unix" wolfSocketPath;
      Log INFO [AStr "wolf.sock is ready"];
      StartAgent serverPort;
      ReadyStore true;
      ConnClose], Done).
Proof.
  unfold accepts, is_socket, monitor_iter.
  destruct p as [[mode|] [e|] [d|]]; simpl; try discriminate;
    destruct (Z.land mode ModeSocket =? 0); simpl; try discriminate; reflexivity.
Qed.

(** X11. When the path is a socket and [net.Dial] succeeds, the monitor
    reports that the backend is ready, starts the agent controller
    against the port of the server, stores [true] to the readiness flag
    and returns, closing the connection it dialled; it does not sleep and
    it makes no further iteration, whatever the world would answer. *)
Theorem monitor_ready (fuel : nat) (world : nat -> Probe) (i : nat) :
  accepts (world i) = true ->
  monitor wolfSocketPath serverPort (S fuel) world i
  = ([Stat wolfSocketPath; Dial "unix" wolfSocketPath;
      Log INFO [AStr "wolf.sock is ready"];
      StartAgent serverPort;
      ReadyStore true;
      ConnClose], Done).
Proof.
  intros Ha. apply monitor_stop; [|discriminate]. now apply monitor_iter_accepts.
Qed.

(** X12. The monitor does not poll without pausing: in every run of the
    loop the calls of [os.Stat] are one more than the sleeps when the
    loop has ended and as many as the sleeps while it goes on, and every
    sleep is of 200 ms. *)
Theorem monitor_paced (fuel : nat) (world : nat -> Probe) :
  forall i,
    count is_Stat (monitor wolfSocketPath serverPort fuel world i).1
    = (count is_Sleep (monitor wolfSocketPath serverPort fuel world i).1
       + match (monitor wolfSocketPath serverPort fuel world i).2 with
         | Continue => 0
         | _ => 1
         end)%nat /\
    Forall (fun e => forall ms, e = Sleep ms -> ms = 200)
           (monitor wolfSocketPath serverPort fuel world i).1.
Proof.
  induction fuel as [|fuel IH]; intros i; [split; [reflexivity | constructor]|].
  simpl. destruct (monitor_iter_paced (world i)) as (H1 & H2 & H3).
  destruct (monitor_iter wolfSocketPath serverPort (world i)) as [t v]. simpl in *.
  destruct v; try (simpl; rewrite H1, H2; split; [reflexivity | exact H3]).
  destruct (IH (S i)) as [I1 I2].
  destruct (monitor wolfSocketPath serverPort fuel world (S i)) as [t' v']. simpl in *.
  rewrite !count_app, H1, H2, I1. split; [lia|]. apply Forall_app. now split.
Qed.

(** X13. When the backend is not there for [n] polls and accepts at the next
    one, the monitor ends with success after [n] sleeps and [n + 1]
    polls: it has stored [true] to the flag once and started the agent
    controller. *)
Theorem monitor_reaches_ready (world : nat -> Probe) (n : nat) :
  forall fuel i,
    forallb (fun k => waits (world k)) (seq i n) = true ->
    accepts (world (i + n)%nat) = true ->
    (n < fuel)%nat ->
    (monitor wolfSocketPath serverPort fuel world i).2 = Done /\
    count is_Sleep (monitor wolfSocketPath serverPort fuel world i).1 = n /\
    count is_Stat (monitor wolfSocketPath serverPort fuel world i).1 = S n /\
    store_count (monitor wolfSocketPath serverPort fuel world i).1 = 1%nat /\
    In (StartAgent serverPort) (monitor wolfSocketPath serverPort fuel world i).1.
Proof.
  induction n as [|n IH]; intros fuel i Hw Ha Hf.
  - destruct fuel as [|fuel]; [lia|]. rewrite Nat.add_0_r in Ha.
    rewrite (monitor_stop wolfSocketPath serverPort fuel world i _ _
               (monitor_iter_accepts (world i) Ha)) by discriminate. simpl.
    repeat split; try reflexivity. auto 10.
  - destruct fuel as [|fuel]; [lia|].
    simpl in Hw. apply andb_true_iff in Hw. destruct Hw as [Hw0 Hw].
    replace (i + S n)%nat with (S i + n)%nat in Ha by lia.
    destruct (IH fuel (S i) Hw Ha ltac:(lia)) as (I1 & I2 & I3 & I4 & I5).
    destruct (monitor_iter_verdict (world i)) as [_ [_ Hc]]. specialize (Hc Hw0).
    destruct (monitor_iter_paced (world i)) as (P1 & P2 & _). rewrite Hc in P2.
    pose proof (monitor_iter_stores wolfSocketPath serverPort (world i)) as Hs.
    destruct (monitor_iter wolfSocketPath serverPort (world i)) as [t v] eqn:Hi.
    simpl in Hc, P1, P2. subst v.
    destruct (Hs t Continue false eq_refl) as [_ [_ Hs0]].
    rewrite (monitor_continue wolfSocketPath serverPort fuel world i t Hi). simpl.
    rewrite !count_app, store_count_app, P1, P2, I2, I3, I4, Hs0.
    repeat split; try reflexivity; try exact I1. apply in_or_app. now right.
Qed.

End MonitorMore.

(** ** Further properties of the process *)

Section ProcessMore.

Context {env : Env}.
Variable wolfSocketPath : string.
Variable serverPort : Z.

#[local] Arguments count : simpl never.

Lemma stored_true (t : list event) :
  forall b, stores t b = true -> b = true \/ In (ReadyStore true) t.
Proof.
  induction t as [|e t IH]; intros b Hs; [now left|].
  unfold stores in Hs. simpl in Hs. apply IH in Hs. destruct Hs as [Hs|Hs].
  - destruct e; auto. subst. right. now left.
  - right. now right.
Qed.

Lemma existsb_stored (t : list event) :
  existsb is_ReadyStore t = negb (store_count t =? 0)%nat.
Proof.
  unfold store_count. induction t as [|e t IH]; [reflexivity|].
  simpl. destruct (is_ReadyStore e); simpl; [reflexivity | exact IH].
Qed.

(** The flag of a step, and where its events come from. *)
Lemma step_ready (ps : process) (a : action) :
  ready (step wolfSocketPath serverPort ps a).2
  = stores (step wolfSocketPath serverPort ps a).1 (ready ps).
Proof.
  unfold step. destruct (alive ps); simpl; [|reflexivity].
  destruct a as [p|s|s|fuel w r s]; simpl; try reflexivity.
  destruct (monitoring ps); [|reflexivity].
  now destruct (monitor_iter wolfSocketPath serverPort p).
Qed.

Lemma step_Do (ps : process) (a : action) (e : event) :
  In e (step wolfSocketPath serverPort ps a).1 -> is_ClientDo e = true -> ready ps = true.
Proof.
  unfold step. destruct (alive ps); simpl; [|tauto].
  destruct a as [p|s|s|fuel w r s]; simpl.
  - destruct (monitoring ps); simpl; [|tauto].
    unfold monitor_iter.
    destruct p as [[mode|] [e0|] [d|]]; simpl;
      try destruct (Z.land mode ModeSocket =? 0); simpl;
      intros Hin He; repeat (destruct Hin as [<-|Hin]; [discriminate|]); destruct Hin.
  - unfold readyz, ready_Load. destruct (ready ps); simpl;
      intros Hin He; repeat (destruct Hin as [<-|Hin]; [discriminate|]); destruct Hin.
  - intros Hin He; repeat (destruct Hin as [<-|Hin]; [discriminate|]); destruct Hin.
  - destruct (run (api_v1 (ready ps) fuel w r) s) as [[t x] s'] eqn:Hrun.
    apply api_handled, handled_sent in Hrun. unfold events_of; simpl. intros Hin He.
    destruct (sent t) as [out|].
    + now destruct Hrun as (url & u & s1 & Hr & _).
    + rewrite List.Forall_forall in Hrun. apply Hrun in Hin. congruence.
Qed.

Lemma exec_gated (acts : list action) :
  forall ps pre e post,
    (exec wolfSocketPath serverPort ps acts).1 = pre ++ e :: post ->
    is_ClientDo e = true ->
    ready ps = true \/ In (ReadyStore true) pre.
Proof.
  induction acts as [|a acts IH]; intros ps pre e post Heq He.
  - destruct pre; discriminate.
  - simpl in Heq. pose proof (step_ready ps a) as Hr. pose proof (step_Do ps a e) as Hd.
    destruct (step wolfSocketPath serverPort ps a) as [t ps']. simpl in Hr, Hd.
    specialize (IH ps').
    destruct (exec wolfSocketPath serverPort ps' acts) as [t' ps'']. simpl in Heq, IH.
    assert (Hlater : forall pre', t' = pre' ++ e :: post -> pre = t ++ pre' ->
                                  ready ps = true \/ In (ReadyStore true) pre).
    { intros pre' Ht' ->. destruct (IH pre' e post Ht' He) as [Hps'|Hin].
      - rewrite Hr in Hps'. apply stored_true in Hps'. destruct Hps' as [Hps|Hin]; [now left|].
        right. apply in_or_app. now left.
      - right. apply in_or_app. now right. }
    apply app_eq_app in Heq. destruct Heq as [l [[Ht Hl]|[Hpre Ht']]].
    + destruct l as [|e' l]; simpl in Hl.
      * apply (Hlater []); [now rewrite <- Hl | now rewrite Ht, !app_nil_r].
      * inversion Hl; subst. left. apply Hd; [|exact He].
        apply in_or_app. right. now left.
    + now apply (Hlater l).
Qed.

(** X14. The backend is contacted only once it is known to be ready: in every
    run of the process, each call of [client.Do] comes after the monitor
    has stored [true] to the readiness flag. *)
Theorem no_backend_before_ready (acts : list action) (k : nat) (e : event) :
  nth_error (main wolfSocketPath serverPort acts).1 k = Some e ->
  is_ClientDo e = true ->
  In (ReadyStore true) (firstn k (main wolfSocketPath serverPort acts).1).
Proof.
  intros Hk He. apply nth_error_split in Hk. destruct Hk as (pre & post & Heq & Hlen).
  destruct (exec_gated acts start pre e post Heq He) as [H|H]; [discriminate|].
  rewrite Heq, <- Hlen, firstn_app, Nat.sub_diag, firstn_all. simpl.
  now rewrite app_nil_r.
Qed.

Lemma step_accepts (ps : process) (a : action) :
  ready ps = false -> ready (step wolfSocketPath serverPort ps a).2 = true ->
  exists p, a = MonitorIter p /\ accepts p = true.
Proof.
  intros Hps. unfold step. destruct (alive ps); simpl; [|congruence].
  assert (Hq : forall t, Forall (fun e => is_ReadyStore e = false) t ->
                         stores t (ready ps) = true -> False).
  { intros t Ht. destruct (quiet_stores t (ready ps) Ht) as [-> _]. congruence. }
  destruct a as [p|s|s|fuel w r s]; simpl.
  - destruct (monitoring ps); simpl; [|congruence].
    pose proof (monitor_iter_stores wolfSocketPath serverPort p) as Hs.
    destruct (monitor_iter_verdict wolfSocketPath serverPort p) as [[Hv _] _].
    destruct (monitor_iter wolfSocketPath serverPort p) as [t v]. simpl in *.
    destruct (Hs t v (ready ps) eq_refl) as [_ Hst].
    destruct v; try (destruct Hst as [-> _]; congruence).
    intros _. exists p. split; [reflexivity | now apply Hv].
  - rewrite Hps. discriminate.
  - rewrite Hps. discriminate.
  - intros H. exfalso. apply (Hq _ ) in H; [exact H|].
    destruct (run (api_v1 (ready ps) fuel w r) s) as [[t x] s'] eqn:Hrun.
    apply api_handled, handled_no_store in Hrun. exact Hrun.
Qed.

Lemma exec_accepted (acts : list action) :
  forall ps,
    ready ps = false ->
    ready (exec wolfSocketPath serverPort ps acts).2 = true ->
    exists p, In (MonitorIter p) acts /\ accepts p = true.
Proof.
  induction acts as [|a acts IH]; intros ps Hps Hr; simpl in Hr; [congruence|].
  pose proof (step_accepts ps a Hps) as Hstep.
  destruct (step wolfSocketPath serverPort ps a) as [t ps']. simpl in Hstep.
  destruct (ready ps') eqn:Hps'.
  - destruct (Hstep eq_refl) as (p & -> & Hp). exists p. split; [now left | exact Hp].
  - specialize (IH ps' Hps').
    destruct (exec wolfSocketPath serverPort ps' acts) as [t' ps'']. simpl in *.
    destruct (IH Hr) as (p & Hin & Hp). exists p. split; [now right | exact Hp].
Qed.

(** X15. The readiness probe tells what the monitor has found: in every state
    of a running process [/readyz] loads the flag and answers 200 when
    the monitor has stored to it, and 503 otherwise; it answers 200 only
    if an iteration of the monitor found the backend accepting; and
    [/livez] answers 200 in every state. *)
Theorem readyz_reflects_monitor (acts : list action) (s : store) :
  alive (main wolfSocketPath serverPort acts).2 = true ->
  (step wolfSocketPath serverPort (main wolfSocketPath serverPort acts).2 (Readyz s)).1
  = [ReadyLoad (existsb is_ReadyStore (main wolfSocketPath serverPort acts).1);
     WriteHeader (if existsb is_ReadyStore (main wolfSocketPath serverPort acts).1
                  then StatusOK else StatusServiceUnavailable) (wh s)] /\
  (existsb is_ReadyStore (main wolfSocketPath serverPort acts).1 = true ->
   exists p, In (MonitorIter p) acts /\ accepts p = true) /\
  (step wolfSocketPath serverPort (main wolfSocketPath serverPort acts).2 (Livez s)).1
  = [WriteHeader StatusOK (wh s)].
Proof.
  intros Ha. unfold main in *.
  assert (Hstart : ready start = true -> monitoring start = false) by discriminate.
  destruct (exec_spec wolfSocketPath serverPort acts start Hstart) as (_ & _ & _ & H4).
  specialize (H4 eq_refl).
  assert (Hr : existsb is_ReadyStore (exec wolfSocketPath serverPort start acts).1
               = ready (exec wolfSocketPath serverPort start acts).2).
  { rewrite existsb_stored, H4.
    now destruct (ready (exec wolfSocketPath serverPort start acts).2). }
  rewrite Hr. split; [|split].
  - unfold step. rewrite Ha. simpl.
    unfold readyz, ready_Load.
    now destruct (ready (exec wolfSocketPath serverPort start acts).2).
  - intros Hready. now apply (exec_accepted acts start).
  - unfold step. rewrite Ha. reflexivity.
Qed.

(** *** The end of the process *)

Lemma handled_no_exit w r s ready t x s' :
  handled w r s ready t x s' -> Forall (fun e => is_OsExit e = false) t.
Proof.
  intros H.
  destruct H as [|e Ht|url e Ht Hp|url u out s1 e Ht Hp Hb Hd
                |url u out s1 resp Ht Hp Hb Hd Hf
                |url u out s1 resp t x s2 Ht Hp Hb Hd Hf Hr Hv
                |url u out s1 resp Ht Hp Hb Hd Hf Hv];
    try (repeat constructor; fail).
  - apply Forall_app. split; [repeat constructor|]. constructor; [done|].
    apply Forall_app. split; [apply adds_events; done | repeat constructor].
  - apply Forall_app. split; [repeat constructor|]. constructor; [done|].
    apply Forall_app. split; [apply adds_events; done|]. constructor; [done|].
    apply Forall_app. split.
    + eapply List.Forall_impl; [|exact (relays_events _ _ _ _ _ _ Hr)].
      intros []; simpl; tauto.
    + destruct x as [|[| |]]; simpl; repeat constructor.
  - apply Forall_app. split; [repeat constructor|]. constructor; [done|].
    apply Forall_app. split; [apply adds_events; done | repeat constructor].
Qed.

Lemma exits_last_app (a b : list event) (live : bool) :
  Forall (fun e => is_OsExit e = false) a -> exits_last b live -> exits_last (a ++ b) live.
Proof.
  intros Ha [Hb|(Hl & pre & -> & Hpre)].
  - left. apply Forall_app. now split.
  - right. split; [exact Hl|]. exists (a ++ pre). rewrite app_assoc. split; [reflexivity|].
    apply Forall_app. now split.
Qed.

Lemma exits_last_split (t : list event) (live : bool) :
  exits_last t live ->
  forall pre code post, t = pre ++ OsExit code :: post ->
    post = [] /\ code = 255 /\ live = false.
Proof.
  intros [Ht|(Hl & pre0 & -> & Hpre)] pre code post Heq.
  - exfalso. exact (no_occurrence is_OsExit t Ht pre (OsExit code) post Heq eq_refl).
  - pose proof (last_occurrence is_OsExit pre0 (OsExit 255) Hpre pre (OsExit code) post
                  Heq eq_refl) as ->.
    apply app_inj_tail in Heq. destruct Heq as [_ Heq]. inversion Heq. auto.
Qed.

Lemma step_exits (ps : process) (a : action) :
  exits_last (step wolfSocketPath serverPort ps a).1
             (alive (step wolfSocketPath serverPort ps a).2).
Proof.
  unfold step. destruct (alive ps) eqn:Ha; simpl; [|left; constructor].
  destruct a as [p|s|s|fuel w r s]; simpl.
  - destruct (monitoring ps); simpl; [|left; constructor].
    unfold monitor_iter.
    destruct p as [[mode|] [e|] [d|]]; simpl;
      try destruct (Z.land mode ModeSocket =? 0); simpl;
      try (left; repeat constructor; fail);
      right; (split; [reflexivity|]);
      exists [Stat wolfSocketPath; Log FATAL [AStr "wolf.sock is not a socket"; AInt mode]];
      (split; [reflexivity | repeat constructor]).
  - left. unfold readyz, ready_Load. destruct (ready ps); repeat constructor.
  - left. repeat constructor.
  - left. destruct (run (api_v1 (ready ps) fuel w r) s) as [[t x] s'] eqn:Hrun.
    apply api_handled, handled_no_exit in Hrun. exact Hrun.
Qed.

Lemma exec_dead (acts : list action) (ps : process) :
  alive ps = false -> exec wolfSocketPath serverPort ps acts = ([], ps).
Proof.
  intros Ha. induction acts as [|a acts IH]; [reflexivity|].
  simpl. unfold step. rewrite Ha. simpl. now rewrite IH.
Qed.

Lemma exec_exits (acts : list action) :
  forall ps,
    exits_last (exec wolfSocketPath serverPort ps acts).1
               (alive (exec wolfSocketPath serverPort ps acts).2).
Proof.
  induction acts as [|a acts IH]; intros ps; [left; constructor|].
  simpl. pose proof (step_exits ps a) as Hs.
  destruct (step wolfSocketPath serverPort ps a) as [t ps']. simpl in Hs.
  destruct Hs as [Hs|(Hl & pre & -> & Hpre)].
  - specialize (IH ps'). destruct (exec wolfSocketPath serverPort ps' acts) as [t' ps''].
    simpl in *. now apply exits_last_app.
  - rewrite (exec_dead acts ps' Hl). simpl. rewrite app_nil_r.
    right. split; [exact Hl|]. now exists pre.
Qed.

End ProcessMore.

Section ProgramFacts.

Context {env : Env}.

#[local] Arguments banner : simpl never.


End ProgramFacts.

(** ** The socket *)

Section SocketFacts.

Context {env : Env}.

Lemma handled_no_dial w r s ready t x s' :
  handled w r s ready t x s' ->
  Forall (fun e => match e with Dial _ _ => False | _ => True end) t.
Proof.
  intros H.
  destruct H as [|e Ht|url e Ht Hp|url u out s1 e Ht Hp Hb Hd
                |url u out s1 resp Ht Hp Hb Hd Hf
                |url u out s1 resp t x s2 Ht Hp Hb Hd Hf Hr Hv
                |url u out s1 resp Ht Hp Hb Hd Hf Hv];
    try (repeat constructor; fail).
  - apply Forall_app. split; [repeat constructor|]. constructor; [done|].
    apply Forall_app. split; [apply adds_events; done | repeat constructor].
  - apply Forall_app. split; [repeat constructor|]. constructor; [done|].
    apply Forall_app. split; [apply adds_events; done|]. constructor; [done|].
    apply Forall_app. split.
    + eapply List.Forall_impl; [|exact (relays_events _ _ _ _ _ _ Hr)].
      intros []; simpl; tauto.
    + destruct x as [|[| |]]; simpl; repeat constructor.
  - apply Forall_app. split; [repeat constructor|]. constructor; [done|].
    apply Forall_app. split; [apply adds_events; done | repeat constructor].
Qed.

Lemma step_dials (path : string) (serverPort : Z) (ps : process) (a : action) :
  Forall (fun e => forall n ad, e = Dial n ad -> n = "unix" /\ ad = path)
         (step path serverPort ps a).1.
Proof.
  unfold step. destruct (alive ps); simpl; [|constructor].
  destruct a as [p|s|s|fuel w r s]; simpl.
  - destruct (monitoring ps); simpl; [|constructor].
    unfold monitor_iter.
    destruct p as [[mode|] [e|] [d|]]; simpl;
      try destruct (Z.land mode ModeSocket =? 0); simpl;
      repeat (constructor; [intros n ad [=]; auto|]); constructor.
  - unfold readyz, ready_Load. destruct (ready ps); repeat (constructor; [discriminate|]);
      constructor.
  - repeat (constructor; [discriminate|]); constructor.
  - destruct (run (api_v1 (ready ps) fuel w r) s) as [[t x] s'] eqn:Hrun.
    apply api_handled, handled_no_dial in Hrun. unfold events_of; simpl.
    eapply List.Forall_impl; [|exact Hrun]. intros e He n ad ->. destruct He.
Qed.

Lemma exec_dials (path : string) (serverPort : Z) (acts : list action) :
  forall ps,
    Forall (fun e => forall n ad, e = Dial n ad -> n = "unix" /\ ad = path)
           (exec path serverPort ps acts).1.
Proof.
  induction acts as [|a acts IH]; intros ps; [constructor|].
  simpl. pose proof (step_dials path serverPort ps a) as Hs.
  destruct (step path serverPort ps a) as [t ps']. specialize (IH ps').
  destruct (exec path serverPort ps' acts) as [t' ps'']. simpl in *.
  apply Forall_app. now split.
Qed.


End SocketFacts.

(** ** The further properties on the sample deployment *)

Lemma backend_failure_witness :
  In (ClientDo Sample.outbound None
        (Some (Err "dial unix /var/run/wolf.sock: connect: connection refused")))
     (events_of (run (@api_v1 Sample.refusing_env true 0 Sample.w Sample.request)
                     Sample.s0)) /\
  client_status
    (events_of (run (@api_v1 Sample.refusing_env true 0 Sample.w Sample.request) Sample.s0))
  = Some StatusInternalServerError.
Proof.
  assert (Hin : In (ClientDo Sample.outbound None
                      (Some (Err "dial unix /var/run/wolf.sock: connect: connection refused")))
                   (events_of (run (@api_v1 Sample.refusing_env true 0 Sample.w
                                      Sample.request) Sample.s0))).
  { vm_compute. do 5 right. left. reflexivity. }
  split; [exact Hin|].
  exact (proj1 (proj2 (@backend_failure Sample.refusing_env true 0 Sample.w Sample.request
                         Sample.s0 Sample.outbound _ Hin))).
Defined.


Lemma reads_in_order_witness :
  length (reads (events_of (run (Sample.api true 9 Sample.w Sample.request) Sample.s0)))
    = 4%nat /\
  reads (events_of (run (Sample.api true 9 Sample.w Sample.request) Sample.s0))
  = map Sample.stream [0; 1; 2; 3]%nat.
Proof.
  split; [vm_compute; reflexivity|].
  refine (proj1 (@reads_in_order Sample.env true 9 Sample.w Sample.request Sample.s0
                   Sample.outbound Sample.response _)).
  vm_compute. do 5 right. left. reflexivity.
Defined.

Lemma inbound_headers_untouched_witness :
  hdrs Sample.s0 !! 0%nat = Some Sample.inbound_header /\
  hdrs (store_of (run (Sample.api true 9 Sample.w Sample.request) Sample.s0)) !! 0%nat
  = Some Sample.inbound_header.
Proof.
  split; [reflexivity|].
  apply (@inbound_headers_untouched Sample.env true 9 Sample.w Sample.request Sample.s0).
  reflexivity.
Defined.

Lemma panics_only_when_witness :
  exit_of_run (run (@api_v1 Sample.unwritable_env true 9 Sample.w Sample.request) Sample.s0)
    = Panicked "invalid WriteHeader code 99" /\
  ~ ("invalid WriteHeader code 99" = nil_dereference /\ true = true /\
     exists url e, @target Sample.unwritable_env Sample.request = inl url /\
                   @parsed Sample.unwritable_env (Request.Method Sample.request) url
                   = inr e) /\
  ~ ("invalid WriteHeader code 99" = slice_out_of_range /\
     exists data err,
       In (BodyRead bufSize data err)
          (events_of (run (@api_v1 Sample.unwritable_env true 9 Sample.w Sample.request)
                          Sample.s0)) /\
       bufSize < Z.of_nat (length data)) /\
  exists out resp,
    "invalid WriteHeader code 99" = invalid_WriteHeader_code (Response.StatusCode resp) /\
    In (ClientDo out (Some resp) None)
       (events_of (run (@api_v1 Sample.unwritable_env true 9 Sample.w Sample.request)
                       Sample.s0)) /\
    invalid_code (Response.StatusCode resp) = true /\
    ResponseWriter.Flusher Sample.w = true.
Proof.
  assert (Hx : exit_of_run (run (@api_v1 Sample.unwritable_env true 9 Sample.w
                                   Sample.request) Sample.s0)
               = Panicked "invalid WriteHeader code 99") by (vm_compute; reflexivity).
  split; [exact Hx|].
  assert (H1 : ~ ("invalid WriteHeader code 99" = nil_dereference /\ true = true /\
                  exists url e, @target Sample.unwritable_env Sample.request = inl url /\
                                @parsed Sample.unwritable_env
                                  (Request.Method Sample.request) url = inr e))
    by (intros [H _]; discriminate).
  assert (H3 : ~ ("invalid WriteHeader code 99" = slice_out_of_range /\
                  exists data err,
                    In (BodyRead bufSize data err)
                       (events_of (run (@api_v1 Sample.unwritable_env true 9 Sample.w
                                          Sample.request) Sample.s0)) /\
                    bufSize < Z.of_nat (length data)))
    by (intros [H _]; discriminate).
  split; [exact H1|]. split; [exact H3|].
  destruct (@panics_only_when Sample.unwritable_env true 9 Sample.w Sample.request
              Sample.s0 "invalid WriteHeader code 99" Hx) as [H|[H|H]];
    [contradiction | exact H | contradiction].
Defined.

Lemma monitor_ready_witness :
  accepts Sample.listening = true /\
  (monitor "/var/run/wolf.sock" 443 1 (fun _ => Sample.listening) 0).2 = Done.
Proof.
  split; [reflexivity|].
  rewrite (monitor_ready "/var/run/wolf.sock" 443 0 (fun _ => Sample.listening) 0);
    reflexivity.
Defined.

Lemma monitor_reaches_ready_witness :
  forallb (fun k => waits (Sample.world k)) (seq 0 3) = true /\
  accepts (Sample.world 3) = true /\
  count is_Sleep (monitor "/var/run/wolf.sock" 443 5 Sample.world 0).1 = 3%nat.
Proof.
  split; [reflexivity|]. split; [reflexivity|].
  refine (proj1 (proj2 (monitor_reaches_ready "/var/run/wolf.sock" 443 Sample.world 3 5 0
                          _ _ _))); [reflexivity | reflexivity | lia].
Defined.

Lemma no_backend_before_ready_witness :
  In (ReadyStore true)
     (firstn 25 (@main Sample.env "/var/run/wolf.sock" 443 Sample.schedule).1).
Proof.
  eapply (@no_backend_before_ready Sample.env "/var/run/wolf.sock" 443 Sample.schedule 25).
  - vm_compute. reflexivity.
  - reflexivity.
Defined.

Lemma readyz_reflects_monitor_witness :
  alive (@main Sample.env "/var/run/wolf.sock" 443 Sample.schedule).2 = true /\
  (@step Sample.env "/var/run/wolf.sock" 443
        (@main Sample.env "/var/run/wolf.sock" 443 Sample.schedule).2
        (Readyz Sample.s0)).1
  = [ReadyLoad true; WriteHeader StatusOK ∅].
Proof.
  split; [vm_compute; reflexivity|].
  refine (eq_trans (proj1 (@readyz_reflects_monitor Sample.env "/var/run/wolf.sock" 443
                             Sample.schedule Sample.s0 _)) _);
    vm_compute; reflexivity.
Defined.

Lemma clean_path_forwarded_witness :
  GoStd.cleanPath ["api"; "v1"; "apps"] false = true /\
  exists out,
    sent (events_of (run (Sample.api true 0 Sample.w Sample.request) Sample.s0)) = Some out /\
    Request.URL out = URL.mk "http" "wolf.sock" "/api/v1/apps" "".
Proof.
  split; [vm_compute; reflexivity|].
  apply (clean_path_forwarded GoStd.CanonicalMIMEHeaderKey map_to_list Sample.backend
           0 Sample.w Sample.request Sample.s0 ["api"; "v1"; "apps"] false);
    vm_compute; reflexivity.
Defined.

